(** * Alert dispatch engine: a shallow embedding of [alerts/alert_manager.py]

    The development follows the Python class [AlertManager] method by
    method.  Mutable instance attributes live in one record that is threaded
    through a small state monad; [Alert] objects live in an object store and
    are referred to by reference from the queue and from the history, as in
    the source, where the very same object is enqueued again on a retry and
    mutated afterwards.

    Conventions.
    - A naive [datetime] is the number of microseconds since
      0001-01-01T00:00:00, a [timedelta] a number of microseconds.
    - [datetime.now()] reads the [clock] attribute of the state.  Time only
      passes where the model says so: [asyncio.sleep], the queue time-out of
      the worker loop and the explicit [advance] step of the environment.
    - Channel transports and trigger implementations are external
      collaborators; they enter as oracles ([send_alert], [check]).
    - Worker interleaving at suspension points is not modelled: one
      [_process_alert] call is one atomic step. *)

From Stdlib Require Import ZArith String Ascii List Lia Bool DecimalString.
From stdpp Require Import gmap strings list fin_maps finite.

#[local] Set Warnings "-clear-no-such-hyp".

Local Open Scope string_scope.
Local Open Scope list_scope.
Local Open Scope Z_scope.

(** ** Time *)

Abbreviation datetime := Z (only parsing).
Abbreviation timedelta := Z (only parsing).

Module Time.

Definition seconds (n : Z) : timedelta := n * 1000000.
Definition minutes (n : Z) : timedelta := n * 60 * 1000000.
Definition hours (n : Z) : timedelta := n * 3600 * 1000000.

(** [datetime.max], 9999-12-31 23:59:59.999999; [datetime.min] is 0. *)
Definition max_datetime : datetime := 315537897599999999.

(** The instants that are a [datetime].  Python raises [OverflowError]
    when the sum or difference of a [datetime] and a [timedelta] is not
    one of them; the arithmetic of the model is that of [Z] and agrees
    with Python on these. *)
Definition representable (t : Z) : Prop := 0 ≤ t ≤ max_datetime.

(** Proleptic Gregorian calendar: day number (0 is 0001-01-01) to
    (year, month, day). *)
Definition civil_from_days (d : Z) : Z * Z * Z :=
  let z := d + 306 in
  let era := z / 146097 in
  let doe := z - era * 146097 in
  let yoe := (doe - doe / 1460 + doe / 36524 - doe / 146096) / 365 in
  let y := yoe + era * 400 in
  let doy := doe - (365 * yoe + yoe / 4 - yoe / 100) in
  let mp := (5 * doy + 2) / 153 in
  let day := doy - (153 * mp + 2) / 5 + 1 in
  let m := if mp <? 10 then mp + 3 else mp - 9 in
  (if m <=? 2 then y + 1 else y, m, day).

Definition dec (n : Z) : string := NilZero.string_of_int (Z.to_int n).

(** [%m], [%d], [%H], [%M], [%S]: two digits, zero padded. *)
Definition dec2 (n : Z) : string :=
  if n <? 10 then "0" +:+ dec n else dec n.

(** [strftime('%Y%m%d_%H%M%S')]; [%Y] as the C library prints it (no
    padding, which only shows before year 1000). *)
Definition strftime (t : datetime) : string :=
  let secs := t / 1000000 in
  let '(y, m, d) := civil_from_days (secs / 86400) in
  let sod := secs mod 86400 in
  dec y +:+ dec2 m +:+ dec2 d +:+ "_" +:+
  dec2 (sod / 3600) +:+ dec2 (sod mod 3600 / 60) +:+ dec2 (sod mod 60).

End Time.

(** ** Data *)

(** Modelled from the spec: [AlertPriority] is declared in
    [channels/base_channel.py], which is not part of the sources at hand;
    the spec lists its four members. *)
Inductive AlertPriority := LOW | MEDIUM | HIGH | CRITICAL.

Global Instance AlertPriority_eq_dec : EqDecision AlertPriority.
Proof. solve_decision. Defined.

Definition AlertPriority_to_nat (p : AlertPriority) : nat :=
  match p with LOW => 0 | MEDIUM => 1 | HIGH => 2 | CRITICAL => 3 end%nat.

Definition AlertPriority_of_nat (n : nat) : option AlertPriority :=
  match n with
  | 0 => Some LOW | 1 => Some MEDIUM | 2 => Some HIGH | 3 => Some CRITICAL
  | _ => None
  end%nat.

Global Program Instance AlertPriority_countable : Countable AlertPriority :=
  inj_countable AlertPriority_to_nat AlertPriority_of_nat _.
Next Obligation. by intros []. Qed.

(** The dataclass [Alert]. *)
Record Alert := mkAlert {
  id : string;
  title : string;
  message : string;
  priority : AlertPriority;
  symbol : string;
  timestamp : datetime;
  channels : list string;
  metadata : list (string * string);
  sent : bool;
  retry_count : Z
}.

Definition set_sent (b : bool) (a : Alert) : Alert :=
  mkAlert (id a) (title a) (message a) (priority a) (symbol a) (timestamp a)
          (channels a) (metadata a) b (retry_count a).

Definition set_retry_count (n : Z) (a : Alert) : Alert :=
  mkAlert (id a) (title a) (message a) (priority a) (symbol a) (timestamp a)
          (channels a) (metadata a) (sent a) n.

(** One entry of [config['rate_limits'][channel][priority.value]]: what
    [.get('max_per_hour')] and [.get('max_per_minute')] return, [None] when
    the key is absent. *)
Record PriorityLimit := mkLimit {
  max_per_hour : option Z;
  max_per_minute : option Z
}.

Definition no_limit : PriorityLimit := mkLimit None None.

(** The part of [config] the manager reads after construction; each field
    holds what the corresponding [config.get] yields. *)
Record Config := mkConfig {
  rate_limits : gmap string (gmap AlertPriority PriorityLimit);
  duplicate_window_minutes : Z;
  max_history_size : Z;
  default_channels : gmap AlertPriority (list string)
}.

(** References into the object store. *)
Abbreviation ref := nat (only parsing).

Inductive LogLevel := DEBUG | INFO | WARNING | ERROR.

Global Instance LogLevel_eq_dec : EqDecision LogLevel.
Proof. solve_decision. Defined.

(** What a run does to the outside world, in order. *)
Inductive Event :=
| EvRateCheck (r : ref) (passed : bool)
| EvDupCheck (r : ref) (duplicate : bool)
| EvSend (channel_name : string) (r : ref) (delivered : bool)
| EvSleep (secs : Z)
| EvPut (r : ref)
| EvCheck (trigger_name : string)
| EvLog (lvl : LogLevel) (subject : string).

Global Instance Event_eq_dec : EqDecision Event.
Proof. solve_decision. Defined.

(** The instance attributes of [AlertManager] that change at run time,
    the keys of the registries filled by [__init__], the object store and
    the clock. *)
Record AlertManager := mkManager {
  mgr_channels : list string;
  mgr_triggers : list string;
  alert_queue : list ref;
  alert_history : list ref;
  sent_alerts_tracker : gmap string (list datetime);
  recent_alerts : gset string;
  store : gmap ref Alert;
  clock : datetime
}.

Definition set_alert_queue (q : list ref) (m : AlertManager) : AlertManager :=
  mkManager (mgr_channels m) (mgr_triggers m) q (alert_history m)
            (sent_alerts_tracker m) (recent_alerts m) (store m) (clock m).

Definition set_alert_history (h : list ref) (m : AlertManager) : AlertManager :=
  mkManager (mgr_channels m) (mgr_triggers m) (alert_queue m) h
            (sent_alerts_tracker m) (recent_alerts m) (store m) (clock m).

Definition set_sent_alerts_tracker (t : gmap string (list datetime))
    (m : AlertManager) : AlertManager :=
  mkManager (mgr_channels m) (mgr_triggers m) (alert_queue m)
            (alert_history m) t (recent_alerts m) (store m) (clock m).

Definition set_recent_alerts (s : gset string) (m : AlertManager) : AlertManager :=
  mkManager (mgr_channels m) (mgr_triggers m) (alert_queue m)
            (alert_history m) (sent_alerts_tracker m) s (store m) (clock m).

Definition set_store (st : gmap ref Alert) (m : AlertManager) : AlertManager :=
  mkManager (mgr_channels m) (mgr_triggers m) (alert_queue m)
            (alert_history m) (sent_alerts_tracker m) (recent_alerts m) st
            (clock m).

Definition set_clock (t : datetime) (m : AlertManager) : AlertManager :=
  mkManager (mgr_channels m) (mgr_triggers m) (alert_queue m)
            (alert_history m) (sent_alerts_tracker m) (recent_alerts m)
            (store m) t.

(** [AlertManager.__init__] once [_init_channels] and [_init_triggers] have
    registered the enabled entries of the configuration. *)
Definition init (channel_names trigger_names : list string) (t0 : datetime)
  : AlertManager :=
  mkManager channel_names trigger_names [] [] ∅ ∅ ∅ t0.

(** ** The monad of the methods

    A method takes the manager, returns a value and the manager it leaves
    behind, and emits the events it caused, in order. *)

Definition Run (S A : Type) : Type := S → A * S * list Event.

Global Instance Run_ret {S} : MRet (Run S) := λ A x s, (x, s, []).
Global Instance Run_bind {S} : MBind (Run S) :=
  λ A B f c s,
    let '(x, s1, e1) := c s in
    let '(y, s2, e2) := f x s1 in
    (y, s2, e1 ++ e2).

Abbreviation M := (Run AlertManager).

Definition result {A} (c : M A) (m : AlertManager) : A := (c m).1.1.
Definition final {A} (c : M A) (m : AlertManager) : AlertManager := (c m).1.2.
Definition events {A} (c : M A) (m : AlertManager) : list Event := (c m).2.

Definition gets {A} (f : AlertManager → A) : M A := λ m, (f m, m, []).
Definition modify (f : AlertManager → AlertManager) : M unit :=
  λ m, (tt, f m, []).

Definition emit (e : Event) : M unit := λ m, (tt, m, [e]).
Definition log (lvl : LogLevel) (subject : string) : M unit :=
  emit (EvLog lvl subject).

(** [datetime.now()] *)
Definition now : M datetime := gets clock.

(** Time passing. *)
Definition advance (d : timedelta) : M unit :=
  modify (λ m, set_clock (clock m + d) m).

(** [await asyncio.sleep(secs)] *)
Definition sleep (secs : Z) : M unit :=
  emit (EvSleep secs);; advance (Time.seconds secs).

(** [await self.alert_queue.put(alert)]; the queue is unbounded. *)
Definition put (r : ref) : M unit :=
  emit (EvPut r);; modify (λ m, set_alert_queue (alert_queue m ++ [r]) m).

(** Object construction: the new object gets an unused reference. *)
Definition alloc (a : Alert) : M ref :=
  λ m, let r := fresh (dom (store m)) in
       (r, set_store (<[r := a]> (store m)) m, []).

Global Instance Alert_inhabited : Inhabited Alert :=
  populate (mkAlert "" "" "" LOW "" 0 [] [] false 0).

(** Attribute access through a reference. *)
Definition deref (r : ref) : M Alert := gets (λ m, store m !!! r).
Definition update (r : ref) (f : Alert → Alert) : M unit :=
  modify (λ m, set_store (alter f r (store m)) m).

(** Python truthiness of a limit read from the configuration: [None] and
    [0] are falsy. *)
Definition truthy (o : option Z) : bool :=
  match o with Some v => negb (v =? 0) | None => false end.

(** [if limit: if count >= limit: return False] *)
Definition reached (count : Z) (limit : option Z) : bool :=
  match limit with
  | Some v => negb (v =? 0) && (v <=? count)
  | None => false
  end.

(** [l[start:]] *)
Definition slice_from {A} (start : Z) (l : list A) : list A :=
  let n := Z.of_nat (length l) in
  drop (Z.to_nat (if start <? 0 then Z.max 0 (n + start) else start)) l.

(** What a trigger's [check] coroutine does: raise, or return the pair
    [(should_trigger, alert_data)]. *)
Record AlertData := mkAlertData {
  ad_title : string;
  ad_message : string;
  ad_symbol : string;
  ad_priority : option AlertPriority;
  ad_channels : option (list string);
  ad_metadata : option (list (string * string))
}.

Inductive CheckResult :=
| CheckRaises
| CheckReturns (should_trigger : bool) (alert_data : option AlertData).

(** ** The methods of [AlertManager] *)

Section Methods.

(** The configuration dictionary. *)
Variable config : Config.

(** How [priority.value] prints inside an f-string. *)
Variable priority_value : AlertPriority → string.

(** The built-in [hash] on [str], salted per process. *)
Variable hash : string → Z.

(** [channel.send_alert(alert)] awaited at a given time: [true] when it
    returns, [false] when it raises. *)
Variable send_alert : string → Alert → datetime → bool.

(** [trigger.check(market_data)] awaited at a given time. *)
Variable MarketData : Type.
Variable check : string → MarketData → datetime → CheckResult.

Definition duplicate_window : timedelta :=
  Time.minutes (duplicate_window_minutes config).

(** [f"{channel_name}_{alert.priority.value}"] *)
Definition tracker_key (channel_name : string) (p : AlertPriority) : string :=
  channel_name +:+ "_" +:+ priority_value p.

(** [f"{alert.symbol}_{alert.title}_{alert.message}"] *)
Definition alert_hash (alert : Alert) : string :=
  symbol alert +:+ "_" +:+ title alert +:+ "_" +:+ message alert.

(** The body of the [for channel_name in alert.channels] loop of
    [_check_rate_limit]; [None] stands for falling through to the next
    iteration. *)
Definition check_channel (t : datetime) (p : AlertPriority)
    (channel_name : string) : M (option bool) :=
  let channel_limits := default ∅ (rate_limits config !! channel_name) in
  let priority_limit := default no_limit (channel_limits !! p) in
  let mph := max_per_hour priority_limit in
  let mpm := max_per_minute priority_limit in
  if negb (truthy mph) && negb (truthy mpm) then mret None
  else
    let key := tracker_key channel_name p in
    modify (λ m, if decide (key ∈ dom (sent_alerts_tracker m)) then m
                 else set_sent_alerts_tracker
                        (<[key := []]> (sent_alerts_tracker m)) m);;
    tracker ← gets (λ m, sent_alerts_tracker m !!! key);
    let hour_ago := t - Time.hours 1 in
    let minute_ago := t - Time.minutes 1 in
    let tracker := filter (λ ts, hour_ago < ts) tracker in
    modify (λ m, set_sent_alerts_tracker
                   (<[key := tracker]> (sent_alerts_tracker m)) m);;
    if reached (Z.of_nat (length tracker)) mph then mret (Some false)
    else if reached (Z.of_nat (length (filter (λ ts, minute_ago < ts) tracker)))
                    mpm
    then mret (Some false)
    else mret None.

Fixpoint check_rate_limit_loop (t : datetime) (p : AlertPriority)
    (chs : list string) : M bool :=
  match chs with
  | [] => mret true
  | channel_name :: rest =>
      res ← check_channel t p channel_name;
      match res with
      | Some b => mret b
      | None => check_rate_limit_loop t p rest
      end
  end.

Definition check_rate_limit (r : ref) : M bool :=
  t ← now;
  alert ← deref r;
  check_rate_limit_loop t (priority alert) (channels alert).

Fixpoint track_sent_alert_loop (t : datetime) (p : AlertPriority)
    (chs : list string) : M unit :=
  match chs with
  | [] => mret tt
  | channel_name :: rest =>
      let key := tracker_key channel_name p in
      modify (λ m, if decide (key ∈ dom (sent_alerts_tracker m)) then m
                   else set_sent_alerts_tracker
                          (<[key := []]> (sent_alerts_tracker m)) m);;
      modify (λ m, set_sent_alerts_tracker
                     (alter (λ l, l ++ [t]) key (sent_alerts_tracker m)) m);;
      track_sent_alert_loop t p rest
  end.

Definition track_sent_alert (r : ref) : M unit :=
  t ← now;
  alert ← deref r;
  track_sent_alert_loop t (priority alert) (channels alert).

(** [_is_duplicate].  [cutoff_time] is computed and not used; the
    subtraction that computes it raises when the result is not a
    [datetime] (see [Time.representable]), which the model leaves out. *)
Definition is_duplicate (r : ref) : M bool :=
  alert ← deref r;
  let alert_hash := alert_hash alert in
  current_time ← now;
  let cutoff_time := current_time - duplicate_window in
  recent ← gets recent_alerts;
  let recent_to_keep :=
    foldl (λ acc recent_hash, {[recent_hash]} ∪ acc) ∅ (elements recent) in
  modify (set_recent_alerts recent_to_keep);;
  recent ← gets recent_alerts;
  if decide (alert_hash ∈ recent) then mret true
  else
    modify (λ m, set_recent_alerts ({[alert_hash]} ∪ recent_alerts m) m);;
    mret false.

Definition cleanup_history : M unit :=
  let max_history := max_history_size config in
  history ← gets alert_history;
  if max_history <? Z.of_nat (length history) then
    modify (set_alert_history (slice_from (- max_history) history))
  else mret tt.

(** The second loop of [_process_alert], over the [send_tasks]. *)
Fixpoint send_loop (r : ref) (send_tasks : list string) : M unit :=
  match send_tasks with
  | [] => mret tt
  | channel_name :: rest =>
      alert ← deref r;
      t ← now;
      (if send_alert channel_name alert t then
         emit (EvSend channel_name r true);;
         log INFO channel_name
       else
         emit (EvSend channel_name r false);;
         log ERROR channel_name;;
         if bool_decide (priority alert = CRITICAL) && (retry_count alert <? 3)
         then
           update r (set_retry_count (retry_count alert + 1));;
           alert ← deref r;
           sleep (2 ^ retry_count alert);;
           put r
         else mret tt);;
      send_loop r rest
  end.

(** [_process_alert], from its first line to its last with nothing else
    running at its awaits; [act], further down, cuts it at these. *)
Definition process_alert (r : ref) : M unit :=
  passed ← check_rate_limit r;
  emit (EvRateCheck r passed);;
  if negb passed then
    alert ← deref r; log DEBUG (id alert)
  else
    duplicate ← is_duplicate r;
    emit (EvDupCheck r duplicate);;
    if (duplicate : bool) then
      alert ← deref r; log DEBUG (id alert)
    else
      alert ← deref r;
      registered ← gets mgr_channels;
      let send_tasks := filter (λ ch, ch ∈ registered) (channels alert) in
      send_loop r send_tasks;;
      update r (set_sent true);;
      track_sent_alert r;;
      modify (λ m, set_alert_history (alert_history m ++ [r]) m);;
      cleanup_history.

Definition create_alert (title message symbol : string)
    (priority : AlertPriority) (channels : option (list string))
    (metadata : option (list (string * string))) : M (option string) :=
  registered ← gets mgr_channels;
  let channels :=
    match channels with
    | Some chs => chs
    | None => default registered (default_channels config !! priority)
    end in
  let available_channels := filter (λ ch, ch ∈ registered) channels in
  match available_channels with
  | [] => log WARNING title;; mret None
  | _ :: _ =>
      t ← now;
      let alert_id :=
        "alert_" +:+ Time.strftime t +:+ "_" +:+ Time.dec (hash title mod 10000) in
      t' ← now;
      r ← alloc (mkAlert alert_id title message priority symbol t'
                         available_channels (default [] metadata) false 0);
      put r;;
      log INFO alert_id;;
      mret (Some alert_id)
  end.

(** [create_alert] called with [alert_data] unpacked into keyword
    arguments: those left out take the defaults of the signature. *)
Definition create_alert_kw (d : AlertData) : M (option string) :=
  create_alert (ad_title d) (ad_message d) (ad_symbol d)
               (default MEDIUM (ad_priority d)) (ad_channels d)
               (ad_metadata d).

(** [check_triggers]; [alert_data = None] stands for a mapping that
    [create_alert] does not accept, so that the call raises. *)
Fixpoint check_triggers_loop (market_data : MarketData)
    (trigger_names : list string) : M unit :=
  match trigger_names with
  | [] => mret tt
  | trigger_name :: rest =>
      t ← now;
      emit (EvCheck trigger_name);;
      match check trigger_name market_data t with
      | CheckRaises => log ERROR trigger_name
      | CheckReturns false _ => mret tt
      | CheckReturns true None => log ERROR trigger_name
      | CheckReturns true (Some d) => create_alert_kw d;; mret tt
      end;;
      check_triggers_loop market_data rest
  end.

Definition check_triggers (market_data : MarketData) : M unit :=
  trigger_names ← gets mgr_triggers;
  check_triggers_loop market_data trigger_names.

(** One iteration of the [while] loop of [_alert_worker]: wait for an item
    for at most one second, process it.  This is a worker that is alone
    on the queue; the pool of workers is [run_pool], further down. *)
Definition alert_worker_step : M unit :=
  queue ← gets alert_queue;
  match queue with
  | [] => advance (Time.seconds 1)
  | r :: rest => modify (set_alert_queue rest);; process_alert r
  end.

Fixpoint alert_worker (iterations : nat) : M unit :=
  match iterations with
  | O => mret tt
  | S n => alert_worker_step;; alert_worker n
  end.

(** [get_alert_stats()['total_alerts_sent']] *)
Definition total_alerts_sent (m : AlertManager) : Z :=
  Z.of_nat (length (alert_history m)).


(** ** Vocabulary of the statements *)

(** The fields a computation leaves alone. *)
Record same_registries (m m' : AlertManager) : Prop := {
  same_channels : mgr_channels m' = mgr_channels m;
  same_triggers : mgr_triggers m' = mgr_triggers m
}.

(** Only the rate tracker changed. *)
Record tracker_only (m m' : AlertManager) : Prop := {
  to_registries : same_registries m m';
  to_queue : alert_queue m' = alert_queue m;
  to_history : alert_history m' = alert_history m;
  to_recent : recent_alerts m' = recent_alerts m;
  to_store : store m' = store m;
  to_clock : clock m' = clock m
}.

(** Only the set of recent hashes changed. *)
Record recent_only (m m' : AlertManager) : Prop := {
  ro_registries : same_registries m m';
  ro_queue : alert_queue m' = alert_queue m;
  ro_history : alert_history m' = alert_history m;
  ro_tracker : sent_alerts_tracker m' = sent_alerts_tracker m;
  ro_store : store m' = store m;
  ro_clock : clock m' = clock m
}.

(** The bookkeeping of admission and history is untouched: what a fan-out
    may change is the queue, the objects and the clock. *)
Record books_untouched (m m' : AlertManager) : Prop := {
  bu_registries : same_registries m m';
  bu_history : alert_history m' = alert_history m;
  bu_tracker : sent_alerts_tracker m' = sent_alerts_tracker m;
  bu_recent : recent_alerts m' = recent_alerts m
}.

(** The events a fan-out for [r] can emit. *)
Definition delivery_event (r : ref) (e : Event) : Prop :=
  match e with
  | EvSend _ r' _ | EvPut r' => r' = r
  | EvSleep _ | EvLog _ _ => True
  | EvRateCheck _ _ | EvDupCheck _ _ | EvCheck _ => False
  end.

Definition send_tasks (r : ref) (m : AlertManager) : list string :=
  filter (λ ch, ch ∈ mgr_channels m) (channels (store m !!! r)).

(** The state in which the fan-out starts, and the one it leaves. *)
Definition after_admission (r : ref) (m : AlertManager) : AlertManager :=
  final (is_duplicate r) (final (check_rate_limit r) m).

Definition after_fanout (r : ref) (m : AlertManager) : AlertManager :=
  final (send_loop r (send_tasks r m)) (after_admission r m).

(** How many of the channels share one tracker key. *)
Definition key_count (p : AlertPriority) (key : string) (chs : list string)
  : nat :=
  length (filter (λ ch, tracker_key ch p = key) chs).

(** What [_cleanup_history] makes of a history. *)
Definition trim_history (history : list ref) : list ref :=
  if max_history_size config <? Z.of_nat (length history)
  then slice_from (- max_history_size config) history
  else history.

(** The three ways a processing step can go. *)
Inductive Outcome := RateLimited | Duplicate | Dispatched.

Definition outcome (r : ref) (m : AlertManager) : Outcome :=
  if result (check_rate_limit r) m then
    if result (is_duplicate r) (final (check_rate_limit r) m)
    then Duplicate else Dispatched
  else RateLimited.

(** The channels [create_alert] resolves its argument to, and those of
    them that are registered. *)
Definition resolved_channels (p : AlertPriority) (chs : option (list string))
    (m : AlertManager) : list string :=
  match chs with
  | Some chs => chs
  | None => default (mgr_channels m) (default_channels config !! p)
  end.

Definition available_channels (p : AlertPriority)
    (chs : option (list string)) (m : AlertManager) : list string :=
  filter (λ ch, ch ∈ mgr_channels m) (resolved_channels p chs m).

(** The identifier [create_alert] builds at time [t]. *)
Definition alert_id (t : datetime) (title : string) : string :=
  "alert_" +:+ Time.strftime t +:+ "_" +:+ Time.dec (hash title mod 10000).

(** The object [create_alert] builds. *)
Definition new_alert (title message symbol : string) (p : AlertPriority)
    (chs : option (list string)) (md : option (list (string * string)))
    (m : AlertManager) : Alert :=
  mkAlert (alert_id (clock m) title) title message p symbol (clock m)
          (available_channels p chs m) (default [] md) false 0.

(** What the environment and the engine can do, one step at a time. *)
Inductive step : AlertManager → AlertManager → Prop :=
| step_create title message symbol p chs md m :
    step m (final (create_alert title message symbol p chs md) m)
| step_triggers market_data m :
    step m (final (check_triggers market_data) m)
| step_worker m :
    step m (final alert_worker_step m)
| step_time d m :
    0 ≤ d → step m (final (advance d) m).

(** Two versions of one alert object: only [sent] and [retry_count] may
    differ. *)
Definition same_alert (a a' : Alert) : Prop :=
  a' = set_sent (sent a') (set_retry_count (retry_count a') a).

(** What every step preserves: the registries, the hashes already seen,
    and the identity of the alert objects. *)
Record evolves (m m' : AlertManager) : Prop := {
  ev_registries : same_registries m m';
  ev_recent : recent_alerts m ⊆ recent_alerts m';
  ev_store : ∀ r a, store m !! r = Some a →
                    ∃ a', store m' !! r = Some a' ∧ same_alert a a'
}.

(** Every queued reference points to an alert with target channels. *)
Definition queue_wf (m : AlertManager) : Prop :=
  ∀ r, r ∈ alert_queue m →
       ∃ a, store m !! r = Some a ∧ channels a ≠ [].

(** The triggers whose [check] was called, in the order of the calls. *)
Definition checked (es : list Event) : list string :=
  omap (λ e, match e with EvCheck name => Some name | _ => None end) es.

(** The limits configured for a channel and a priority. *)
Definition limits_of (channel_name : string) (p : AlertPriority)
  : PriorityLimit :=
  default no_limit (default ∅ (rate_limits config !! channel_name) !! p).

(** The channel has a limit the check enforces. *)
Definition has_limit (channel_name : string) (p : AlertPriority) : bool :=
  truthy (max_per_hour (limits_of channel_name p))
  || truthy (max_per_minute (limits_of channel_name p)).

(** The sends recorded under a key after the given time. *)
Definition sends_since (tracker : gmap string (list datetime)) (key : string)
    (since : datetime) : Z :=
  Z.of_nat (length (filter (λ ts, since < ts) (tracker !!! key))).

(** The channel is at one of its non-zero limits at time [t]. *)
Definition over_limit (t : datetime) (tracker : gmap string (list datetime))
    (p : AlertPriority) (channel_name : string) : bool :=
  reached (sends_since tracker (tracker_key channel_name p) (t - Time.hours 1))
          (max_per_hour (limits_of channel_name p))
  || reached (sends_since tracker (tracker_key channel_name p)
                          (t - Time.minutes 1))
             (max_per_minute (limits_of channel_name p)).

(** The target channels the loop of [_check_rate_limit] gets to: all of
    them up to and including the first that is at a limit. *)
Fixpoint reached_channels (t : datetime)
    (tracker : gmap string (list datetime)) (p : AlertPriority)
    (chs : list string) : list string :=
  match chs with
  | [] => []
  | channel_name :: rest =>
      channel_name ::
      (if over_limit t tracker p channel_name then []
       else reached_channels t tracker p rest)
  end.

(** The keys of the channels the loop gets to and does not skip at its
    [continue]. *)
Definition pruned_keys (t : datetime) (tracker : gmap string (list datetime))
    (p : AlertPriority) (chs : list string) : list string :=
  (λ channel_name, tracker_key channel_name p)
  <$> filter (λ channel_name, has_limit channel_name p = true)
             (reached_channels t tracker p chs).

(** The condition as the spec words it: the count meets or exceeds a
    configured maximum, whatever its value. *)
Definition limit_met (t : datetime) (tracker : gmap string (list datetime))
    (p : AlertPriority) (channel_name : string) : Prop :=
  (∃ v, max_per_hour (limits_of channel_name p) = Some v ∧
        v ≤ sends_since tracker (tracker_key channel_name p)
                        (t - Time.hours 1)) ∨
  (∃ v, max_per_minute (limits_of channel_name p) = Some v ∧
        v ≤ sends_since tracker (tracker_key channel_name p)
                        (t - Time.minutes 1)).

(** The two halves of the rate-limit claim as the spec words them. *)
Definition suppression_as_stated (r : ref) (m : AlertManager) : Prop :=
  (∃ ch, ch ∈ channels (store m !!! r) ∧
         limit_met (clock m) (sent_alerts_tracker m)
                   (priority (store m !!! r)) ch) →
  result (check_rate_limit r) m = false.

Definition pruning_as_stated (r : ref) (m : AlertManager) : Prop :=
  ∀ ch ts,
    ch ∈ channels (store m !!! r) →
    ts ∈ sent_alerts_tracker (final (check_rate_limit r) m)
           !!! tracker_key ch (priority (store m !!! r)) →
    clock m - Time.hours 1 ≤ ts.

(** A family of pairwise distinct titles. *)
Fixpoint title_of_length (n : nat) : string :=
  match n with
  | O => ""
  | S n => String "a" (title_of_length n)
  end.

End Methods.


(** ** Delivery outcomes and the stored alert *)

(** Modelled from the spec: the three states of a delivery ledger entry;
    the source has no such type. *)
Inductive DeliveryState := Pending | Delivered | Failed.

(** What the spec asks of a per-channel ledger read off a stored alert:
    after a processing step it tells, for every channel a send was made
    on, whether that send was delivered. *)
Definition ledger_records_outcomes
    (ledger : Alert → string → option DeliveryState) : Prop :=
  ∀ config priority_value send_alert (r : ref) (m : AlertManager)
    (channel_name : string) (delivered : bool),
    EvSend channel_name r delivered
      ∈ events (process_alert config priority_value send_alert r) m →
    ledger (store (final (process_alert config priority_value send_alert r) m)
              !!! r) channel_name
    = Some (if delivered then Delivered else Failed).

(** ** Concrete runs *)

(** One rendering of [priority.value]. *)
Definition ex_priority_value (p : AlertPriority) : string :=
  match p with
  | LOW => "low" | MEDIUM => "medium" | HIGH => "high" | CRITICAL => "critical"
  end.

(** A stand-in for the salted hash of the interpreter. *)
Definition ex_hash (s : string) : Z := Z.of_nat (String.length s) * 7919.

Definition ex_send_ok (channel_name : string) (a : Alert) (t : datetime)
  : bool := true.
Definition ex_send_fail (channel_name : string) (a : Alert) (t : datetime)
  : bool := false.

(** Three triggers: the first raises, the second fires, the third does
    not. *)
Definition ex_check (trigger_name : string) (market_data : unit)
    (t : datetime) : CheckResult :=
  if String.eqb trigger_name "signal" then CheckRaises
  else if String.eqb trigger_name "price" then
    CheckReturns true
      (Some (mkAlertData "Price Spike" "BTC +5%" "BTCUSDT" (Some HIGH)
                         None None))
  else CheckReturns false None.

(** 2026-11-03 17:27:05.123456 *)
Definition ex_t0 : datetime := 63929323625123456.

(** The default configuration: no rate limits, a window of five minutes,
    a history of 1000 records. *)
Definition ex_config : Config := mkConfig ∅ 5 1000 ∅.

(** The same with [max_history_size] set to 0. *)
Definition ex_config_size0 : Config := mkConfig ∅ 5 0 ∅.

(** The same with [max_per_hour] set to 0 for CRITICAL alerts on
    telegram. *)
Definition ex_config_limit0 : Config :=
  mkConfig {[ "telegram" := {[ CRITICAL := mkLimit (Some 0) None ]} ]}
           5 1000 ∅.

Definition ex_m0 : AlertManager :=
  init ["telegram"] ["signal"; "price"; "risk"] ex_t0.

(** One alert created and waiting on the queue, as reference 0. *)
Definition ex_created (config : Config) (p : AlertPriority) : AlertManager :=
  final (create_alert config ex_hash "Price Spike" "BTC +5%" "BTCUSDT" p
                      (Some ["telegram"]) None) ex_m0.

(** The state a worker passes to [_process_alert] once it has taken the
    only queued alert. *)
Definition ex_taken (config : Config) (p : AlertPriority) : AlertManager :=
  set_alert_queue [] (ex_created config p).

(** The alert processed, six minutes gone, and the same alert created
    again, as reference 1. *)
Definition ex_repeated : AlertManager :=
  final (create_alert ex_config ex_hash "Price Spike" "BTC +5%" "BTCUSDT"
                      HIGH (Some ["telegram"]) None)
    (final (advance (Time.minutes 6))
       (final (process_alert ex_config ex_priority_value ex_send_ok 0)
          (ex_taken ex_config HIGH))).

(** The alert processed, two hours gone, and another alert created for
    the same channel, as reference 1. *)
Definition ex_stale : AlertManager :=
  final (create_alert ex_config ex_hash "Volume" "ETH x3" "ETHUSDT"
                      HIGH (Some ["telegram"]) None)
    (final (advance (Time.hours 2))
       (final (process_alert ex_config ex_priority_value ex_send_ok 0)
          (ex_taken ex_config HIGH))).

(** A whole run: a CRITICAL alert for a channel that always fails, and
    five iterations of one worker. *)
Definition ex_retry_run : M unit :=
  create_alert ex_config ex_hash "Price Spike" "BTC +5%" "BTCUSDT" CRITICAL
               (Some ["telegram"]) None;;
  alert_worker ex_config ex_priority_value ex_send_fail 5.

Definition is_send (e : Event) : bool :=
  match e with EvSend _ _ _ => true | _ => false end.

(** At most two HIGH alerts a minute on telegram. *)
Definition ex_config_limit2 : Config :=
  mkConfig {[ "telegram" := {[ HIGH := mkLimit None (Some 2) ]} ]} 5 1000 ∅.

(** Three different alerts created within one second, the first two
    processed, the third taken from the queue. *)
Definition ex_third_taken : AlertManager :=
  set_alert_queue []
    (final
       (create_alert ex_config_limit2 ex_hash "Spike 1" "BTC +5%" "BTCUSDT"
                     HIGH None None;;
        create_alert ex_config_limit2 ex_hash "Spike 2" "BTC +6%" "BTCUSDT"
                     HIGH None None;;
        create_alert ex_config_limit2 ex_hash "Spike 3" "BTC +7%" "BTCUSDT"
                     HIGH None None;;
        alert_worker ex_config_limit2 ex_priority_value ex_send_ok 2)
       ex_m0).

(** ** The rest of the manager *)

(** *** Statistics *)

(** The counting entries of the dictionary [get_alert_stats] returns.  The
    entries that only pass on what a channel reports about itself, the
    float [duplicate_window_minutes] and the running flag are left out. *)
Record AlertStats := mkStats {
  stat_total_alerts_sent : Z;
  stat_alerts_last_hour : Z;
  stat_alerts_last_24h : Z;
  stat_pending_alerts : Z;
  stat_active_channels : Z;
  stat_active_triggers : Z
}.

Definition get_alert_stats : M AlertStats :=
  t ← now;
  let last_hour := t - Time.hours 1 in
  let last_24h := t - Time.hours 24 in
  history ← gets alert_history;
  objects ← gets store;
  let alerts_last_hour :=
    filter (λ r, last_hour < timestamp (objects !!! r)) history in
  let alerts_last_24h :=
    filter (λ r, last_24h < timestamp (objects !!! r)) history in
  pending ← gets alert_queue;
  registered ← gets mgr_channels;
  triggers ← gets mgr_triggers;
  mret (mkStats (Z.of_nat (length history))
                (Z.of_nat (length alerts_last_hour))
                (Z.of_nat (length alerts_last_24h))
                (Z.of_nat (length pending))
                (Z.of_nat (length registered))
                (Z.of_nat (length triggers))).

(** *** Construction of the registries *)

(** One entry of [config['channels']] or [config['triggers']]: the
    truth value of [.get('enabled', False)] and the string
    [.get('type', '')]. *)
Record EntryConfig := mkEntry {
  entry_enabled : bool;
  entry_type : string
}.

(** What calling a channel or trigger class does: raise, or return an
    object, which Python then tests for truth. *)
Inductive Construction := ConstructorRaises | Constructed (truthy : bool).

(** What [_create_channel] and [_create_trigger] do. *)
Inductive Creation := CreationRaises | ReturnsNone | Returns (truthy : bool).

(** The keys of [channel_map] and of [trigger_map]. *)
Definition channel_map : list string := ["email"; "telegram"; "discord"; "sms"].
Definition trigger_map : list string := ["signal"; "price"; "risk"].

Section Registries.

(** [str.lower] *)
Variable lower : string → string.

(** The class looked up under a key of the map, called on the entry. *)
Variable construct : string → EntryConfig → Construction.

(** [_create_channel] and [_create_trigger], over the keys of their map. *)
Definition create_component (known : list string) (name : string)
    (entry : EntryConfig) : Creation * list Event :=
  let component_type := lower (entry_type entry) in
  if decide (component_type ∈ known) then
    match construct component_type entry with
    | ConstructorRaises => (CreationRaises, [])
    | Constructed truthy => (Returns truthy, [])
    end
  else (ReturnsNone, [EvLog WARNING component_type]).

(** [self.channels[name] = channel] on the keys of the dictionary. *)
Definition register (name : string) (registry : list string) : list string :=
  if decide (name ∈ registry) then registry else registry ++ [name].

(** [_init_channels] and [_init_triggers]: the loop over the items of the
    configuration, from the registry built so far. *)
Fixpoint init_components (known : list string)
    (entries : list (string * EntryConfig)) (registry : list string)
  : list string * list Event :=
  match entries with
  | [] => (registry, [])
  | (name, entry) :: rest =>
      if negb (entry_enabled entry) then init_components known rest registry
      else
        let '(created, es) := create_component known name entry in
        let '(registry', es') :=
          match created with
          | CreationRaises => (registry, [EvLog ERROR name])
          | ReturnsNone | Returns false => (registry, [])
          | Returns true => (register name registry, [EvLog INFO name])
          end in
        let '(final_registry, es'') := init_components known rest registry' in
        (final_registry, es ++ es' ++ es'')
  end.

Definition init_channels (entries : list (string * EntryConfig))
  : list string * list Event :=
  init_components channel_map entries [].

Definition init_triggers (entries : list (string * EntryConfig))
  : list string * list Event :=
  init_components trigger_map entries [].

(** The entries that end up registered. *)
Definition accepted (known : list string) (item : string * EntryConfig)
  : bool :=
  entry_enabled item.2
  && bool_decide (lower (entry_type item.2) ∈ known)
  && match construct (lower (entry_type item.2)) item.2 with
     | Constructed true => true
     | _ => false
     end.

End Registries.

(** [AlertManager.__init__]: both registries from the configuration, with
    the channel classes and the trigger classes as oracles. *)
Definition construct_manager (lower : string → string)
    (channel_class trigger_class : string → EntryConfig → Construction)
    (channels_config triggers_config : list (string * EntryConfig))
    (t0 : datetime) : AlertManager :=
  init (init_channels lower channel_class channels_config).1
       (init_triggers lower trigger_class triggers_config).1 t0.

(** *** Start and stop *)

(** The manager with the attributes of the worker pool:
    [workers_running] and the names of the tasks in [worker_tasks]. *)
Record Engine := mkEngine {
  manager : AlertManager;
  workers_running : bool;
  worker_tasks : list string
}.

Inductive LifecycleEvent :=
| LcInitialize (channel_name : string) (returned : bool)
| LcCreateTask (worker_name : string)
| LcCancel (worker_name : string)
| LcCleanup (channel_name : string) (returned : bool)
| LcInfo.

(** How a coroutine ends. *)
Inductive Completion := Returned | Raised.

Section Lifecycle.

(** [config.get('alert_workers', 3)] *)
Variable alert_workers : Z.

(** [channel.initialize()] and [channel.cleanup()]: [true] when the call
    returns, [false] when it raises. *)
Variable initialize : string → bool.
Variable cleanup : string → bool.

(** A loop of awaited calls over the channels that stops at the first
    call that raises. *)
Fixpoint await_each (call : string → bool)
    (event : string → bool → LifecycleEvent) (names : list string)
  : Completion * list LifecycleEvent :=
  match names with
  | [] => (Returned, [])
  | name :: rest =>
      if call name then
        let '(c, es) := await_each call event rest in
        (c, event name true :: es)
      else (Raised, [event name false])
  end.

(** [f"worker-{i}" for i in range(num_workers)] *)
Definition worker_names (num_workers : Z) : list string :=
  (λ i, "worker-" +:+ Time.dec (Z.of_nat i)) <$> seq 0 (Z.to_nat num_workers).

Definition start (e : Engine) : Completion * Engine * list LifecycleEvent :=
  if workers_running e then (Returned, e, [])
  else
    let e1 := mkEngine (manager e) true (worker_tasks e) in
    match await_each initialize LcInitialize (mgr_channels (manager e)) with
    | (Raised, es) => (Raised, e1, es)
    | (Returned, es) =>
        let names := worker_names alert_workers in
        (Returned,
         mkEngine (manager e) true (worker_tasks e ++ names),
         es ++ (LcCreateTask <$> names) ++ [LcInfo])
    end.

Definition stop (e : Engine) : Completion * Engine * list LifecycleEvent :=
  if negb (workers_running e) then (Returned, e, [])
  else
    let cancelled := LcCancel <$> worker_tasks e in
    let e1 := mkEngine (manager e) false [] in
    match await_each cleanup LcCleanup (mgr_channels (manager e)) with
    | (Raised, es) => (Raised, e1, cancelled ++ es)
    | (Returned, es) => (Returned, e1, cancelled ++ es ++ [LcInfo])
    end.

End Lifecycle.

(** *** Vocabulary of the further statements *)

(** The channels on which a send was attempted, the alerts a worker
    started on, the alerts put back on the queue and the back-off delays,
    each in order of occurrence. *)
Definition sent_on (es : list Event) : list string :=
  omap (λ e, match e with EvSend ch _ _ => Some ch | _ => None end) es.

Definition processed (es : list Event) : list ref :=
  omap (λ e, match e with EvRateCheck r _ => Some r | _ => None end) es.

Definition enqueued (es : list Event) : list ref :=
  omap (λ e, match e with EvPut r => Some r | _ => None end) es.

Definition sleeps (es : list Event) : list Z :=
  omap (λ e, match e with EvSleep secs => Some secs | _ => None end) es.

(** The duplicate keys of the records of the history. *)
Definition history_keys (m : AlertManager) : list string :=
  (λ r, alert_hash (store m !!! r)) <$> alert_history m.

Fixpoint has_underscore (s : string) : bool :=
  match s with
  | EmptyString => false
  | String c rest => if Ascii.eqb c "_" then true else has_underscore rest
  end.

(** What holds of a manager from its construction on. *)
Record sound (m : AlertManager) : Prop := {
  sound_queue : queue_wf m;
  sound_targets :
    ∀ r a, store m !! r = Some a →
           channels a ≠ [] ∧ ∀ ch, ch ∈ channels a → ch ∈ mgr_channels m;
  sound_retries :
    ∀ r a, store m !! r = Some a →
           0 ≤ retry_count a ≤ 3 ∧
           (priority a ≠ CRITICAL → retry_count a = 0);
  sound_history :
    ∀ r, r ∈ alert_history m →
         ∃ a, store m !! r = Some a ∧ sent a = true ∧
              alert_hash a ∈ recent_alerts m;
  sound_keys : NoDup (history_keys m)
}.

(** The subjects logged at a level, in order. *)
Definition logged (lvl : LogLevel) (es : list Event) : list string :=
  omap (λ e, match e with
             | EvLog l subject =>
                 if decide (l = lvl) then Some subject else None
             | _ => None
             end) es.

(** The tasks created, the tasks cancelled and the channels whose
    [cleanup] was awaited, in order. *)
Definition created_tasks (es : list LifecycleEvent) : list string :=
  omap (λ e, match e with LcCreateTask name => Some name | _ => None end) es.

Definition cancelled_tasks (es : list LifecycleEvent) : list string :=
  omap (λ e, match e with LcCancel name => Some name | _ => None end) es.

Definition cleaned_up (es : list LifecycleEvent) : list string :=
  omap (λ e, match e with LcCleanup ch _ => Some ch | _ => None end) es.

(** *** The trigger loop of the application *)

Section TriggerLoop.

Variable config : Config.
Variable hash : string → Z.
Variable MarketData : Type.
Variable check : string → MarketData → datetime → CheckResult.

(** [self._get_current_market_data()] awaited at a given time; [None]
    when it raises. *)
Variable get_current_market_data : datetime → option MarketData.

(** One iteration of the [while self.running] loop of
    [_alert_trigger_loop] in [main.py]. *)
Definition alert_trigger_iteration : M unit :=
  t ← now;
  match get_current_market_data t with
  | Some market_data =>
      check_triggers config hash MarketData check market_data;;
      sleep 60
  | None =>
      log ERROR "Error en loop de triggers";;
      sleep 30
  end.

(** The loop, for as many iterations as [self.running] holds. *)
Fixpoint alert_trigger_loop (iterations : nat) : M unit :=
  match iterations with
  | O => mret ()
  | S n => alert_trigger_iteration;; alert_trigger_loop n
  end.

(** The delay that follows an iteration started at time [t]: 60 seconds
    when the market data were obtained, 30 when getting them raised. *)
Definition iteration_delay (t : datetime) : Z :=
  match get_current_market_data t with Some _ => 60 | None => 30 end.

(** The delays of the iterations of a loop started at time [t], and the
    triggers checked in them: all registered ones in an iteration that
    obtained the market data, none in the others. *)
Fixpoint loop_delays (iterations : nat) (t : datetime) : list Z :=
  match iterations with
  | O => []
  | S n =>
      iteration_delay t
      :: loop_delays n (t + Time.seconds (iteration_delay t))
  end.

Fixpoint loop_checks (trigger_names : list string) (iterations : nat)
    (t : datetime) : list string :=
  match iterations with
  | O => []
  | S n =>
      match get_current_market_data t with
      | Some _ => trigger_names
      | None => []
      end
      ++ loop_checks trigger_names n (t + Time.seconds (iteration_delay t))
  end.

End TriggerLoop.

(** *** The pool of workers

    [start] creates [alert_workers] tasks that run [_alert_worker] on
    the one queue.  A coroutine runs until its next [await]; there the
    event loop may go on with another worker, with [create_alert] or
    [check_triggers] called by the application, or let time pass.  The
    definitions below cut [_alert_worker] and [_process_alert] at their
    awaits and let a schedule choose what runs next. *)

(** Where a worker stands: in [wait_for(self.alert_queue.get())]; in
    [await task] for a channel, with the send tasks still to come; or in
    the [asyncio.sleep] of a retry, which ends at the given time. *)
Inductive Worker :=
| Waiting
| Sending (r : ref) (channel_name : string) (rest : list string)
| Backoff (r : ref) (rest : list string) (until : datetime).

Section WorkerPool.

Variable config : Config.
Variable priority_value : AlertPriority → string.
Variable hash : string → Z.
Variable send_alert : string → Alert → datetime → bool.
Variable MarketData : Type.
Variable check : string → MarketData → datetime → CheckResult.

(** What happens next: the [get] of a waiting worker returns an alert;
    the send a worker awaits returns or raises; the sleep of a worker is
    over; the application creates an alert or checks the triggers; time
    passes. *)
Inductive Action :=
| Take (i : nat)
| Complete (i : nat)
| Wake (i : nat)
| Create (title message symbol : string) (p : AlertPriority)
         (chs : option (list string)) (md : option (list (string * string)))
| Triggers (market_data : MarketData)
| Tick (d : timedelta).

(** [_process_alert] up to the loop over [send_tasks]: the two checks
    and the list of the tasks; [None] when the alert is rejected. *)
Definition run_checks (r : ref) : M (option (list string)) :=
  passed ← check_rate_limit config priority_value r;
  emit (EvRateCheck r passed);;
  if negb passed then
    alert ← deref r; log DEBUG (id alert);; mret None
  else
    duplicate ← is_duplicate config r;
    emit (EvDupCheck r duplicate);;
    if (duplicate : bool) then
      alert ← deref r; log DEBUG (id alert);; mret None
    else
      alert ← deref r;
      registered ← gets mgr_channels;
      mret (Some (filter (λ ch, ch ∈ registered) (channels alert))).

(** The end of [_process_alert], from [alert.sent = True] on. *)
Definition record_sent (r : ref) : M unit :=
  update r (set_sent true);;
  track_sent_alert priority_value r;;
  modify (λ m, set_alert_history (alert_history m ++ [r]) m);;
  cleanup_history config.

(** From the head of the loop over [send_tasks] to the next await: the
    await of the next task or, after the last one, that of the next
    [get], with the end of [_process_alert] before it. *)
Definition next_send (r : ref) (tasks : list string) : M Worker :=
  match tasks with
  | [] => record_sent r;; mret Waiting
  | channel_name :: rest => mret (Sending r channel_name rest)
  end.

(** [await task] returns or raises, and the worker runs to its next
    await. *)
Definition complete_send (r : ref) (channel_name : string)
    (rest : list string) : M Worker :=
  alert ← deref r;
  t ← now;
  if send_alert channel_name alert t then
    emit (EvSend channel_name r true);;
    log INFO channel_name;;
    next_send r rest
  else
    emit (EvSend channel_name r false);;
    log ERROR channel_name;;
    if bool_decide (priority alert = CRITICAL) && (retry_count alert <? 3)
    then
      update r (set_retry_count (retry_count alert + 1));;
      alert ← deref r;
      emit (EvSleep (2 ^ retry_count alert));;
      t ← now;
      mret (Backoff r rest (t + Time.seconds (2 ^ retry_count alert)))
    else next_send r rest.

(** [asyncio.sleep] returns: the alert is put back and the loop goes
    on. *)
Definition wake (r : ref) (rest : list string) : M Worker :=
  put r;;
  next_send r rest.

(** One action on the workers [ws]; [None] when the action is not
    possible in the state at hand, which is then left as it is. *)
Definition act (action : Action) (ws : list Worker)
  : M (option (list Worker)) :=
  match action with
  | Take i =>
      queue ← gets alert_queue;
      match ws !! i, queue with
      | Some Waiting, r :: rest =>
          modify (set_alert_queue rest);;
          tasks ← run_checks r;
          w ← match tasks with
              | None => mret Waiting
              | Some tasks => next_send r tasks
              end;
          mret (Some (<[i := w]> ws))
      | _, _ => mret None
      end
  | Complete i =>
      match ws !! i with
      | Some (Sending r channel_name rest) =>
          w ← complete_send r channel_name rest;
          mret (Some (<[i := w]> ws))
      | _ => mret None
      end
  | Wake i =>
      t ← now;
      match ws !! i with
      | Some (Backoff r rest until) =>
          if until <=? t then
            w ← wake r rest;
            mret (Some (<[i := w]> ws))
          else mret None
      | _ => mret None
      end
  | Create title message symbol p chs md =>
      create_alert config hash title message symbol p chs md;;
      mret (Some ws)
  | Triggers market_data =>
      check_triggers config hash MarketData check market_data;;
      mret (Some ws)
  | Tick d =>
      if 0 <=? d then advance d;; mret (Some ws) else mret None
  end.

(** A schedule, action by action, up to the first that is not
    possible. *)
Fixpoint run_pool (schedule : list Action) (ws : list Worker)
  : M (option (list Worker)) :=
  match schedule with
  | [] => mret (Some ws)
  | action :: rest =>
      ws' ← act action ws;
      match ws' with
      | Some ws' => run_pool rest ws'
      | None => mret None
      end
  end.

(** The schedule in which worker [i] is alone: its sends complete one
    after the other and the time of each sleep passes at once. *)
Fixpoint run_alone (i : nat) (steps : nat) (ws : list Worker)
  : M (option (list Worker)) :=
  match steps with
  | O => mret (Some ws)
  | S n =>
      match ws !! i with
      | Some (Sending _ _ _) =>
          ws' ← act (Complete i) ws;
          match ws' with
          | Some ws' => run_alone i n ws'
          | None => mret None
          end
      | Some (Backoff _ _ until) =>
          t ← now;
          act (Tick (until - t)) ws;;
          ws' ← act (Wake i) ws;
          match ws' with
          | Some ws' => run_alone i n ws'
          | None => mret None
          end
      | _ => mret (Some ws)
      end
  end.

End WorkerPool.

Arguments Take {MarketData} i.
Arguments Complete {MarketData} i.
Arguments Wake {MarketData} i.
Arguments Create {MarketData} title message symbol p chs md.
Arguments Triggers {MarketData} market_data.
Arguments Tick {MarketData} d.

(** Computations that neither take from the queue nor put on it. *)
Definition off_queue {A} (c : M A) : Prop :=
  ∀ m, alert_queue (final c m) = alert_queue m ∧
       enqueued (events c m) = [] ∧ processed (events c m) = [].

(** What the queue gained is what it lost and what it holds: a
    computation keeps the queue first in, first out. *)
Definition queue_law {A} (c : M A) : Prop :=
  ∀ m, alert_queue m ++ enqueued (events c m)
       = processed (events c m) ++ alert_queue (final c m).

(** *** Further concrete runs *)

(** The alert created as CRITICAL and one step of a worker whose channel
    fails. *)
Definition ex_retried : AlertManager :=
  final (alert_worker_step ex_config ex_priority_value ex_send_fail)
        (ex_created ex_config CRITICAL).

(** One alert created twice and another one after it, and three steps
    of a worker: the second object of the first alert is rejected as a
    duplicate, the two others are dispatched. *)
Definition ex_three_created : AlertManager :=
  final (create_alert ex_config ex_hash "Spike 2" "BTC +6%" "BTCUSDT" HIGH
                      None None)
    (final (create_alert ex_config ex_hash "Spike 1" "BTC +5%" "BTCUSDT" HIGH
                         None None)
       (final (create_alert ex_config ex_hash "Spike 1" "BTC +5%" "BTCUSDT"
                            HIGH None None) ex_m0)).

Definition ex_three_processed : AlertManager :=
  final (alert_worker_step ex_config ex_priority_value ex_send_ok)
    (final (alert_worker_step ex_config ex_priority_value ex_send_ok)
       (final (alert_worker_step ex_config ex_priority_value ex_send_ok)
          ex_three_created)).

(** At most one HIGH alert a minute on telegram. *)
Definition ex_config_limit1 : Config :=
  mkConfig {[ "telegram" := {[ HIGH := mkLimit None (Some 1) ]} ]} 5 1000 ∅.

(** Two different alerts created, as references 0 and 1. *)
Definition ex_two_created : AlertManager :=
  final (create_alert ex_config_limit1 ex_hash "Spike 2" "BTC +6%" "BTCUSDT"
                      HIGH None None)
    (final (create_alert ex_config_limit1 ex_hash "Spike 1" "BTC +5%"
                         "BTCUSDT" HIGH None None) ex_m0).

(** The first alert has passed both checks and its worker awaits the
    send; meanwhile another worker has processed the second alert. *)
Definition ex_other_recorded : AlertManager :=
  final (process_alert ex_config_limit1 ex_priority_value ex_send_ok 1)
        (after_admission ex_config_limit1 ex_priority_value 0
                         ex_two_created).

(** The first alert has passed both checks and has been sent, and
    nothing else has run. *)
Definition ex_sent_alone : AlertManager :=
  after_fanout ex_config_limit1 ex_priority_value ex_send_ok 0
               ex_two_created.

(** Two workers and the two alerts: each worker takes one before either
    send completes. *)
Definition ex_pool_run : M (option (list Worker)) :=
  run_pool ex_config_limit1 ex_priority_value ex_hash ex_send_ok unit ex_check
           [Take 0%nat; Take 1%nat; Complete 1%nat; Complete 0%nat]
           [Waiting; Waiting].

(** A history of one record. *)
Definition ex_config_size1 : Config := mkConfig ∅ 5 1 ∅.

(** Two alerts created, the first processed, the second taken from the
    queue. *)
Definition ex_second_taken : AlertManager :=
  set_alert_queue []
    (final
       (create_alert ex_config_size1 ex_hash "Spike 1" "BTC +5%" "BTCUSDT"
                     HIGH None None;;
        create_alert ex_config_size1 ex_hash "Spike 2" "BTC +6%" "BTCUSDT"
                     HIGH None None;;
        alert_worker ex_config_size1 ex_priority_value ex_send_ok 1)
       ex_m0).

(** Two alerts that differ in symbol and title, as references 0 and 1,
    the first taken from the queue. *)
Definition ex_moved : AlertManager :=
  set_alert_queue [1%nat]
    (final
       (create_alert ex_config ex_hash "Spike" "+5%" "BTC_USDT" HIGH None
                     None;;
        create_alert ex_config ex_hash "USDT_Spike" "+5%" "BTC" HIGH None
                     None)
       ex_m0).

(** The first of the two processed, and two hours gone. *)
Definition ex_moved_later : AlertManager :=
  final (advance (Time.hours 2))
        (final (process_alert ex_config ex_priority_value ex_send_ok 0)
               ex_moved).

(** [str.lower] on ASCII letters. *)
Definition ex_lower_ascii (c : ascii) : ascii :=
  let n := nat_of_ascii c in
  if (Nat.leb 65 n && Nat.leb n 90)%bool then ascii_of_nat (n + 32) else c.

Fixpoint ex_lower (s : string) : string :=
  match s with
  | EmptyString => EmptyString
  | String c rest => String (ex_lower_ascii c) (ex_lower rest)
  end.

(** Classes of which the one for e-mail raises and the one for Discord
    returns a falsy object. *)
Definition ex_construct (component_type : string) (entry : EntryConfig)
  : Construction :=
  if String.eqb component_type "email" then ConstructorRaises
  else if String.eqb component_type "discord" then Constructed false
  else Constructed true.

(** A configuration of six channels, of which two are registered. *)
Definition ex_channels_config : list (string * EntryConfig) :=
  [("tg", mkEntry true "Telegram");
   ("mail", mkEntry true "email");
   ("pager", mkEntry true "pager");
   ("text", mkEntry false "sms");
   ("chat", mkEntry true "discord");
   ("text2", mkEntry true "SMS")].

Definition ex_triggers_config : list (string * EntryConfig) :=
  [("spikes", mkEntry true "price"); ("drawdown", mkEntry true "Risk")].

Definition ex_built : AlertManager :=
  construct_manager ex_lower ex_construct (λ _ _, Constructed true)
                    ex_channels_config ex_triggers_config ex_t0.

Definition ex_built_created : AlertManager :=
  final (create_alert ex_config ex_hash "Price Spike" "BTC +5%" "BTCUSDT"
                      HIGH None None) ex_built.

(** A manager with two channels, before its start. *)
Definition ex_engine : Engine :=
  mkEngine (init ["telegram"; "email"] ["price"] ex_t0) false [].

(** Channels of which the one for e-mail raises. *)
Definition ex_channel_call (channel_name : string) : bool :=
  negb (String.eqb channel_name "email").

(** The manager started with three workers. *)
Definition ex_engine_running : Engine :=
  (start 3 (λ _, true) ex_engine).1.2.

(** ** The primitives against the interpreter *)

(** Values printed by [datetime.strftime] for these instants. *)
Example strftime_epoch : Time.strftime 62135596800000000 = "19700101_000000".
Proof. reflexivity. Qed.

Example strftime_leap_day :
  Time.strftime 63844847999999999 = "20240229_235959".
Proof. reflexivity. Qed.

Example strftime_max : Time.strftime Time.max_datetime = "99991231_235959".
Proof. vm_compute. reflexivity. Qed.
Example strftime_t0 : Time.strftime ex_t0 = "20261103_172705".
Proof. reflexivity. Qed.

(** Slices of [[1, 2, 3]] as Python computes them: [-0:] is everything. *)
Example slice_from_examples :
  slice_from (-0) [1; 2; 3] = [1; 2; 3] ∧
  slice_from (-2) [1; 2; 3] = [2; 3] ∧
  slice_from 1 [1; 2; 3] = [2; 3] ∧
  slice_from 5 [1; 2; 3] = [] ∧
  slice_from (-7) [1; 2; 3] = [1; 2; 3].
Proof. repeat split. Qed.

Example truthy_examples :
  truthy None = false ∧ truthy (Some 0) = false ∧ truthy (Some 2) = true ∧
  truthy (Some (-1)) = true.
Proof. repeat split. Qed.

(** ** Reasoning about runs *)

Lemma final_bind {A B} (c : M A) (f : A → M B) m :
  final (c ≫= f) m = final (f (result c m)) (final c m).
Proof.
  unfold final, result, mbind, Run_bind.
  destruct (c m) as [[x m1] e1]; simpl. by destruct (f x m1) as [[y m2] e2].
Qed.

Lemma result_bind {A B} (c : M A) (f : A → M B) m :
  result (c ≫= f) m = result (f (result c m)) (final c m).
Proof.
  unfold final, result, mbind, Run_bind.
  destruct (c m) as [[x m1] e1]; simpl. by destruct (f x m1) as [[y m2] e2].
Qed.

Lemma events_bind {A B} (c : M A) (f : A → M B) m :
  events (c ≫= f) m = events c m ++ events (f (result c m)) (final c m).
Proof.
  unfold events, final, result, mbind, Run_bind.
  destruct (c m) as [[x m1] e1]; simpl. by destruct (f x m1) as [[y m2] e2].
Qed.

Lemma run_eta {A} (c : M A) m : c m = (result c m, final c m, events c m).
Proof. unfold result, final, events. by destruct (c m) as [[? ?] ?]. Qed.

Lemma final_ret {A} (x : A) m : final (mret x) m = m.
Proof. reflexivity. Qed.
Lemma result_ret {A} (x : A) m : result (mret x) m = x.
Proof. reflexivity. Qed.
Lemma events_ret {A} (x : A) m : events (mret x) m = [].
Proof. reflexivity. Qed.
Lemma final_gets {A} (f : AlertManager → A) m : final (gets f) m = m.
Proof. reflexivity. Qed.
Lemma result_gets {A} (f : AlertManager → A) m : result (gets f) m = f m.
Proof. reflexivity. Qed.
Lemma events_gets {A} (f : AlertManager → A) m : events (gets f) m = [].
Proof. reflexivity. Qed.
Lemma final_modify f m : final (modify f) m = f m.
Proof. reflexivity. Qed.
Lemma events_modify f m : events (modify f) m = [].
Proof. reflexivity. Qed.
Lemma final_emit e m : final (emit e) m = m.
Proof. reflexivity. Qed.
Lemma events_emit e m : events (emit e) m = [e].
Proof. reflexivity. Qed.
Lemma final_log l s m : final (log l s) m = m.
Proof. reflexivity. Qed.
Lemma events_log l s m : events (log l s) m = [EvLog l s].
Proof. reflexivity. Qed.
Lemma final_now m : final now m = m.
Proof. reflexivity. Qed.
Lemma result_now m : result now m = clock m.
Proof. reflexivity. Qed.
Lemma events_now m : events now m = [].
Proof. reflexivity. Qed.
Lemma final_deref r m : final (deref r) m = m.
Proof. reflexivity. Qed.
Lemma result_deref r m : result (deref r) m = store m !!! r.
Proof. reflexivity. Qed.
Lemma events_deref r m : events (deref r) m = [].
Proof. reflexivity. Qed.
Lemma final_update r f m :
  final (update r f) m = set_store (alter f r (store m)) m.
Proof. reflexivity. Qed.
Lemma events_update r f m : events (update r f) m = [].
Proof. reflexivity. Qed.
Lemma final_advance d m : final (advance d) m = set_clock (clock m + d) m.
Proof. reflexivity. Qed.
Lemma events_advance d m : events (advance d) m = [].
Proof. reflexivity. Qed.
Lemma final_sleep n m :
  final (sleep n) m = set_clock (clock m + Time.seconds n) m.
Proof. reflexivity. Qed.
Lemma events_sleep n m : events (sleep n) m = [EvSleep n].
Proof. reflexivity. Qed.
Lemma final_put r m :
  final (put r) m = set_alert_queue (alert_queue m ++ [r]) m.
Proof. reflexivity. Qed.
Lemma events_put r m : events (put r) m = [EvPut r].
Proof. reflexivity. Qed.

Lemma final_alloc a m :
  final (alloc a) m = set_store (<[fresh (dom (store m)) := a]> (store m)) m.
Proof. reflexivity. Qed.
Lemma result_alloc a m : result (alloc a) m = fresh (dom (store m)).
Proof. reflexivity. Qed.
Lemma events_alloc a m : events (alloc a) m = [].
Proof. reflexivity. Qed.

Create Rewrite HintDb run.
#[export] Hint Rewrite @final_bind @result_bind @events_bind
  @final_ret @result_ret @events_ret @final_gets @result_gets @events_gets
  final_modify events_modify final_emit events_emit final_log events_log
  final_now result_now events_now final_deref result_deref events_deref
  final_update events_update final_advance events_advance
  final_sleep events_sleep final_put events_put
  final_alloc result_alloc events_alloc : run.

Ltac run_eqs := autorewrite with run; simpl.

(** The loop that is meant to drop old hashes copies the whole set. *)
Lemma recent_to_keep_all (recent : list string) (keep : gset string) :
  foldl (λ acc recent_hash, {[recent_hash]} ∪ acc) keep recent
  = list_to_set recent ∪ keep.
Proof.
  revert keep. induction recent as [|h l IH]; intros keep; simpl.
  - set_solver.
  - rewrite IH. set_solver.
Qed.

(** ** Properties of the methods *)

Section Properties.

#[local] Set Default Proof Using "Type".

Variable config : Config.
Variable priority_value : AlertPriority → string.
Variable hash : string → Z.
Variable send_alert : string → Alert → datetime → bool.
Variable MarketData : Type.
Variable check : string → MarketData → datetime → CheckResult.

Local Abbreviation duplicate_window := (duplicate_window config).
Local Abbreviation tracker_key := (tracker_key priority_value).
Local Abbreviation check_channel := (check_channel config priority_value).
Local Abbreviation check_rate_limit_loop :=
  (check_rate_limit_loop config priority_value).
Local Abbreviation check_rate_limit := (check_rate_limit config priority_value).
Local Abbreviation track_sent_alert_loop :=
  (track_sent_alert_loop priority_value).
Local Abbreviation track_sent_alert := (track_sent_alert priority_value).
Local Abbreviation is_duplicate := (is_duplicate config).
Local Abbreviation cleanup_history := (cleanup_history config).
Local Abbreviation send_loop := (send_loop send_alert).
Local Abbreviation process_alert :=
  (process_alert config priority_value send_alert).
Local Abbreviation create_alert := (create_alert config hash).
Local Abbreviation create_alert_kw := (create_alert_kw config hash).
Local Abbreviation check_triggers_loop :=
  (check_triggers_loop config hash MarketData check).
Local Abbreviation check_triggers :=
  (check_triggers config hash MarketData check).
Local Abbreviation alert_worker_step :=
  (alert_worker_step config priority_value send_alert).
Local Abbreviation after_admission := (after_admission config priority_value).
Local Abbreviation after_fanout :=
  (after_fanout config priority_value send_alert).
Local Abbreviation key_count := (key_count priority_value).
Local Abbreviation trim_history := (trim_history config).
Local Abbreviation outcome := (outcome config priority_value).
Local Abbreviation limits_of := (limits_of config).
Local Abbreviation has_limit := (has_limit config).
Local Abbreviation over_limit := (over_limit config priority_value).
Local Abbreviation reached_channels :=
  (reached_channels config priority_value).
Local Abbreviation pruned_keys := (pruned_keys config priority_value).
Local Abbreviation resolved_channels := (resolved_channels config).
Local Abbreviation available_channels := (available_channels config).
Local Abbreviation alert_id := (alert_id hash).
Local Abbreviation new_alert := (new_alert config hash).
Local Abbreviation step :=
  (step config priority_value hash send_alert MarketData check).

(** *** Frames *)

Lemma same_registries_refl m : same_registries m m.
Proof. by split. Qed.

Lemma tracker_only_refl m : tracker_only m m.
Proof. split; auto using same_registries_refl. Qed.

Lemma tracker_only_trans m1 m2 m3 :
  tracker_only m1 m2 → tracker_only m2 m3 → tracker_only m1 m3.
Proof.
  intros [[] ? ? ? ? ?] [[] ? ? ? ? ?]. split; [split|..]; congruence.
Qed.

Lemma books_untouched_refl m : books_untouched m m.
Proof. split; auto using same_registries_refl. Qed.

Lemma books_untouched_trans m1 m2 m3 :
  books_untouched m1 m2 → books_untouched m2 m3 → books_untouched m1 m3.
Proof.
  intros [[] ? ? ?] [[] ? ? ?]. split; [split|..]; congruence.
Qed.


Lemma check_channel_frame t p ch m :
  tracker_only m (final (check_channel t p ch) m) ∧
  events (check_channel t p ch) m = [].
Proof.
  unfold check_channel.
  destruct (negb _ && negb _); [run_eqs; auto using tracker_only_refl|].
  run_eqs. repeat destruct (reached _ _); run_eqs;
    (split; [|done]); case_decide; simpl;
    (split; [split|..]; reflexivity).
Qed.

Lemma check_rate_limit_loop_frame t p chs m :
  tracker_only m (final (check_rate_limit_loop t p chs) m) ∧
  events (check_rate_limit_loop t p chs) m = [].
Proof.
  revert m. induction chs as [|ch chs IH]; intros m; simpl.
  - split; [apply tracker_only_refl | done].
  - rewrite final_bind, events_bind.
    destruct (check_channel_frame t p ch m) as [Hf He]. rewrite He.
    destruct (result (check_channel t p ch) m) as [b|].
    + split; [|done]. eapply tracker_only_trans; [apply Hf|].
      apply tracker_only_refl.
    + destruct (IH (final (check_channel t p ch) m)) as [Hf' He'].
      split; [|done]. by eapply tracker_only_trans.
Qed.

Lemma check_rate_limit_frame r m :
  tracker_only m (final (check_rate_limit r) m) ∧
  events (check_rate_limit r) m = [].
Proof.
  unfold check_rate_limit. rewrite !final_bind, !events_bind. simpl.
  apply check_rate_limit_loop_frame.
Qed.

Lemma track_sent_alert_loop_frame t p chs m :
  tracker_only m (final (track_sent_alert_loop t p chs) m) ∧
  events (track_sent_alert_loop t p chs) m = [].
Proof.
  revert m. induction chs as [|ch chs IH]; intros m; simpl.
  - split; [apply tracker_only_refl | done].
  - run_eqs.
    match goal with |- context [final (track_sent_alert_loop t p chs) ?m'] =>
      destruct (IH m') as [Hf He]; split;
        [eapply tracker_only_trans; [|apply Hf] | by rewrite He] end.
    case_decide; simpl; (split; [split|..]; reflexivity).
Qed.

Lemma track_sent_alert_frame r m :
  tracker_only m (final (track_sent_alert r) m) ∧
  events (track_sent_alert r) m = [].
Proof.
  unfold track_sent_alert. rewrite !final_bind, !events_bind. simpl.
  apply track_sent_alert_loop_frame.
Qed.

(** *** The duplicate filter *)

Lemma is_duplicate_run r m :
  is_duplicate r m =
  let h := alert_hash (store m !!! r) in
  if decide (h ∈ recent_alerts m)
  then (true, set_recent_alerts (recent_alerts m) m, [])
  else (false, set_recent_alerts ({[h]} ∪ recent_alerts m) m, []).
Proof.
  clear send_alert hash check MarketData.
  unfold is_duplicate. rewrite (run_eta (_ ≫= _)). run_eqs.
  rewrite recent_to_keep_all, list_to_set_elements_L.
  replace (recent_alerts m ∪ ∅) with (recent_alerts m) by set_solver.
  destruct (decide _); run_eqs; reflexivity.
Qed.

Lemma is_duplicate_result r m :
  result (is_duplicate r) m
  = bool_decide (alert_hash (store m !!! r) ∈ recent_alerts m).
Proof.
  unfold result. rewrite is_duplicate_run. simpl.
  destruct (decide _); simpl; case_bool_decide; done.
Qed.

Lemma is_duplicate_frame r m :
  recent_only m (final (is_duplicate r) m) ∧
  events (is_duplicate r) m = [].
Proof.
  unfold final, events. rewrite is_duplicate_run. simpl.
  destruct (decide _); simpl; (split; [split; [split|..]|]; reflexivity).
Qed.

(** Whatever the clock and the window, the hash of the alert is in the
    set afterwards and nothing has left the set. *)
Lemma is_duplicate_recent r m :
  recent_alerts (final (is_duplicate r) m)
  = {[alert_hash (store m !!! r)]} ∪ recent_alerts m.
Proof.
  clear send_alert hash check MarketData.
  unfold final. rewrite is_duplicate_run. simpl.
  destruct (decide _); simpl; set_solver.
Qed.

(** *** History clean-up *)

Lemma cleanup_history_run m :
  cleanup_history m =
  (tt,
   set_alert_history
     (if max_history_size config <? Z.of_nat (length (alert_history m))
      then slice_from (- max_history_size config) (alert_history m)
      else alert_history m) m,
   []).
Proof.
  unfold cleanup_history. rewrite (run_eta (_ ≫= _)). run_eqs.
  destruct (_ <? _); run_eqs; [done|]. by destruct m.
Qed.

Lemma final_cleanup_history m :
  final cleanup_history m
  = set_alert_history (trim_history (alert_history m)) m.
Proof. unfold final. by rewrite cleanup_history_run. Qed.

Lemma events_cleanup_history m : events cleanup_history m = [].
Proof. unfold events. by rewrite cleanup_history_run. Qed.

(** *** Fan-out *)

Lemma set_retry_count_same (st : gmap ref Alert) (r : ref) :
  alter (set_retry_count (retry_count (st !!! r))) r st = st.
Proof.
  apply alter_id. intros a Ha. rewrite (lookup_total_correct _ _ _ Ha).
  by destruct a.
Qed.

Lemma set_retry_count_twice n1 n2 (r : ref) (st : gmap ref Alert) :
  alter (set_retry_count n2) r (alter (set_retry_count n1) r st)
  = alter (set_retry_count n2) r st.
Proof.
  rewrite alter_alter_eq. apply alter_ext. by intros [] _.
Qed.

Lemma send_loop_frame r tasks m :
  let m' := final (send_loop r tasks) m in
  books_untouched m m' ∧
  (∃ n, store m' = alter (set_retry_count n) r (store m)) ∧
  (∃ k, alert_queue m' = alert_queue m ++ replicate k r) ∧
  Forall (delivery_event r) (events (send_loop r tasks) m).
Proof.
  revert m. induction tasks as [|ch tasks IH]; intros m; simpl.
  - split; [apply books_untouched_refl|]. split; [|split].
    + eexists. symmetry. apply set_retry_count_same.
    + exists 0%nat. simpl. by rewrite app_nil_r.
    + constructor.
  - run_eqs.
    match goal with |- context [final (send_loop r tasks) ?m1] =>
      destruct (IH m1) as (Hb & [n Hs] & [k Hq] & He);
      set (m2 := final (send_loop r tasks) m1) in *;
      assert (books_untouched m m1 ∧
              (∃ n1, store m1 = alter (set_retry_count n1) r (store m)) ∧
              (∃ k1, alert_queue m1 = alert_queue m ++ replicate k1 r) ∧
              Forall (delivery_event r)
                (events
                   (if send_alert ch (store m !!! r) (clock m)
                    then emit (EvSend ch r true);; log INFO ch
                    else
                      emit (EvSend ch r false);; log ERROR ch;;
                      if bool_decide (priority (store m !!! r) = CRITICAL)
                         && (retry_count (store m !!! r) <? 3)
                      then
                        update r (set_retry_count
                                    (retry_count (store m !!! r) + 1));;
                        alert ← deref r;
                        sleep (2 ^ retry_count alert);;
                        put r
                      else mret tt) m))
        as (Hb1 & [n1 Hs1] & [k1 Hq1] & He1)
    end.
    { destruct (send_alert _ _ _); [|destruct (_ && _)]; run_eqs.
      - split; [apply books_untouched_refl|]. split; [|split].
        + eexists. symmetry. apply set_retry_count_same.
        + exists 0%nat. simpl. by rewrite app_nil_r.
        + repeat constructor.
      - split; [by repeat split|]. split; [|split].
        + by eexists.
        + by exists 1%nat.
        + repeat constructor.
      - split; [apply books_untouched_refl|]. split; [|split].
        + eexists. symmetry. apply set_retry_count_same.
        + exists 0%nat. simpl. by rewrite app_nil_r.
        + repeat constructor. }
    split; [by eapply books_untouched_trans|]. split; [|split].
    + exists n. by rewrite Hs, Hs1, set_retry_count_twice.
    + exists (k1 + k)%nat. by rewrite Hq, Hq1, replicate_add, app_assoc.
    + by apply Forall_app.
Qed.

(** *** One processing step, path by path *)

Lemma process_alert_run r m :
  process_alert r m =
  let m1 := final (check_rate_limit r) m in
  if result (check_rate_limit r) m then
    if result (is_duplicate r) m1 then
      (tt, after_admission r m,
       [EvRateCheck r true; EvDupCheck r true;
        EvLog DEBUG (id (store m !!! r))])
    else
      let m4 := final (update r (set_sent true)) (after_fanout r m) in
      let m5 := final (track_sent_alert r) m4 in
      let m6 := set_alert_history (alert_history m5 ++ [r]) m5 in
      (tt, final cleanup_history m6,
       EvRateCheck r true :: EvDupCheck r false ::
       events (send_loop r (send_tasks r m)) (after_admission r m))
  else (tt, m1, [EvRateCheck r false; EvLog DEBUG (id (store m !!! r))]).
Proof.
  unfold process_alert, after_fanout, after_admission, send_tasks.
  rewrite (run_eta (_ ≫= _)).
  destruct (check_rate_limit_frame r m) as [[[Hc _] _ _ _ Hst _] He].
  rewrite final_bind, events_bind, (result_bind (check_rate_limit r)), He.
  set (m1 := final (check_rate_limit r) m) in *.
  destruct (result (check_rate_limit r) m); cbn [negb].
  - destruct (is_duplicate_frame r m1) as [[[Hc' _] _ _ _ Hst' _] He'].
    autorewrite with run. rewrite He'.
    set (m2 := final (is_duplicate r) m1) in *.
    destruct (result (is_duplicate r) m1); autorewrite with run.
    + by rewrite Hst', Hst.
    + rewrite Hst', Hst, Hc', Hc.
      match goal with |- context [final (track_sent_alert r) ?m4] =>
        destruct (track_sent_alert_frame r m4) as [_ He5] end.
      rewrite He5, events_cleanup_history. cbn [app].
      rewrite app_nil_r. by destruct (result cleanup_history _).
  - autorewrite with run. by rewrite Hst.
Qed.

(** *** Admission comes first *)

Lemma process_alert_by_outcome (r : ref) (m : AlertManager) :
  let m' := final (process_alert r) m in
  let new := events (process_alert r) m in
  match outcome r m with
  | RateLimited =>
      new = [EvRateCheck r false; EvLog DEBUG (id (store m !!! r))] ∧
      alert_queue m' = alert_queue m ∧ alert_history m' = alert_history m ∧
      store m' = store m ∧ recent_alerts m' = recent_alerts m
  | Duplicate =>
      new = [EvRateCheck r true; EvDupCheck r true;
             EvLog DEBUG (id (store m !!! r))] ∧
      alert_queue m' = alert_queue m ∧ alert_history m' = alert_history m ∧
      store m' = store m
  | Dispatched =>
      ∃ rest, new = EvRateCheck r true :: EvDupCheck r false :: rest ∧
              Forall (delivery_event r) rest
  end.
Proof.
  unfold outcome, final, events. rewrite process_alert_run. cbn zeta.
  destruct (check_rate_limit_frame r m) as [[_ Hq Hh Hr Hs _] _].
  destruct (result (check_rate_limit r) m); cbn [fst snd]; [|done].
  destruct (is_duplicate_frame r (final (check_rate_limit r) m))
    as [[_ Hq' Hh' _ Hs' _] _].
  destruct (result (is_duplicate r) _); cbn [fst snd].
  - unfold after_admission. by rewrite Hq', Hh', Hs', Hq, Hh, Hs.
  - eexists. split; [done|]. apply send_loop_frame.
Qed.


(** C6. Every processing step starts with the rate-limit check; the
    duplicate check follows when the first one passed; channel sends,
    back-off sleeps and re-enqueues only come after both, and only when the
    alert passed both.  A rejected alert leaves the queue, the history and
    the alert objects as they were and emits nothing but the two checks and
    one debug line; the step itself returns normally. *)
Theorem admission_precedes_delivery (r : ref) (m : AlertManager) :
  let m' := final (process_alert r) m in
  let new := events (process_alert r) m in
  match outcome r m with
  | RateLimited =>
      new = [EvRateCheck r false; EvLog DEBUG (id (store m !!! r))] ∧
      alert_queue m' = alert_queue m ∧ alert_history m' = alert_history m ∧
      store m' = store m ∧ recent_alerts m' = recent_alerts m
  | Duplicate =>
      new = [EvRateCheck r true; EvDupCheck r true;
             EvLog DEBUG (id (store m !!! r))] ∧
      alert_queue m' = alert_queue m ∧ alert_history m' = alert_history m ∧
      store m' = store m
  | Dispatched =>
      ∃ rest, new = EvRateCheck r true :: EvDupCheck r false :: rest ∧
              Forall (delivery_event r) rest
  end.
Proof. apply process_alert_by_outcome. Qed.

(** *** What an admitted alert leaves behind *)

Lemma process_alert_dispatched r m :
  outcome r m = Dispatched →
  final (process_alert r) m =
    (let m4 := final (update r (set_sent true)) (after_fanout r m) in
     let m5 := final (track_sent_alert r) m4 in
     final cleanup_history
       (set_alert_history (alert_history m5 ++ [r]) m5)) ∧
  events (process_alert r) m =
    EvRateCheck r true :: EvDupCheck r false ::
    events (send_loop r (send_tasks r m)) (after_admission r m).
Proof.
  intros Hout. unfold outcome in Hout.
  pose proof (process_alert_run r m) as Hrun. cbn zeta in Hrun.
  destruct (result (check_rate_limit r) m); [|done].
  destruct (result (is_duplicate r) _); [done|].
  unfold final at 1, events at 1. by rewrite Hrun.
Qed.

Lemma tracker_append_total (tr : gmap string (list datetime))
    (k key : string) (t : datetime) (d : Decision (k ∈ dom tr)) :
  alter (λ l, l ++ [t]) k (if d then tr else <[k := []]> tr) !!! key
  = if decide (k = key) then tr !!! key ++ [t] else tr !!! key.
Proof.
  assert (k ∉ dom tr → tr !!! k = []) as Hnone.
  { intros Hk%not_elem_of_dom. unfold lookup_total, map_lookup_total.
    by rewrite Hk. }
  case_decide as Hkey.
  - subst key. rewrite lookup_total_alter_eq. destruct d as [Hin|Hk].
    + apply elem_of_dom in Hin as [l Hl]. rewrite Hl. simpl.
      by rewrite (lookup_total_correct _ _ _ Hl).
    + rewrite lookup_insert_eq. simpl. by rewrite Hnone.
  - rewrite lookup_total_alter_ne by done. destruct d as [|Hk]; [done|].
    by rewrite lookup_total_insert_ne.
Qed.

Lemma track_sent_alert_loop_tracker t p chs m key :
  sent_alerts_tracker (final (track_sent_alert_loop t p chs) m) !!! key
  = sent_alerts_tracker m !!! key ++ replicate (key_count p key chs) t.
Proof.
  revert m. induction chs as [|ch chs IH]; intros m; simpl.
  - by rewrite app_nil_r.
  - autorewrite with run. rewrite IH.
    cbn [sent_alerts_tracker set_sent_alerts_tracker].
    unfold key_count. rewrite filter_cons.
    replace (sent_alerts_tracker
               (if decide (tracker_key ch p ∈ dom (sent_alerts_tracker m))
                then m
                else set_sent_alerts_tracker
                       (<[tracker_key ch p:=[]]> (sent_alerts_tracker m)) m))
      with (if decide (tracker_key ch p ∈ dom (sent_alerts_tracker m))
            then sent_alerts_tracker m
            else <[tracker_key ch p:=[]]> (sent_alerts_tracker m))
      by (by case_decide).
    rewrite tracker_append_total.
    destruct (decide (tracker_key ch p = key)) as [Hk|Hk].
    + cbn [length replicate]. by rewrite <- app_assoc.
    + done.
Qed.

Lemma process_alert_dispatched_fields
    (r : ref) (m : AlertManager) (a : Alert) :
  store m !! r = Some a →
  outcome r m = Dispatched →
  let m' := final (process_alert r) m in
  (∃ n, store m' !! r = Some (set_sent true (set_retry_count n a))) ∧
  alert_history m' = trim_history (alert_history m ++ [r]) ∧
  total_alerts_sent m' =
    Z.of_nat (length (trim_history (alert_history m ++ [r]))) ∧
  ∀ key,
    sent_alerts_tracker m' !!! key
    = sent_alerts_tracker (final (check_rate_limit r) m) !!! key
      ++ replicate (key_count (priority a) key (channels a)) (clock m').
Proof.
  intros Ha Hout m'. subst m'.
  rewrite (proj1 (process_alert_dispatched r m Hout)). cbn zeta.
  destruct (check_rate_limit_frame r m) as [[_ _ Hh1 _ Hs1 _] _].
  destruct (is_duplicate_frame r (final (check_rate_limit r) m))
    as [[_ _ Hh2 Ht2 Hs2 _] _].
  destruct (send_loop_frame r (send_tasks r m) (after_admission r m))
    as ([_ Hh3 Ht3 _] & [n Hs3] & _ & _).
  fold (after_fanout r m) in Hh3, Ht3, Hs3. unfold after_admission in *.
  set (m3 := after_fanout r m) in *.
  rewrite final_update.
  set (m4 := set_store (alter (set_sent true) r (store m3)) m3).
  destruct (track_sent_alert_frame r m4) as [[_ _ Hh5 _ Hs5 Hc5] _].
  set (m5 := final (track_sent_alert r) m4) in *.
  rewrite final_cleanup_history.
  assert (store m4 !! r = Some (set_sent true (set_retry_count n a))) as Hr4.
  { unfold m4. cbn [store set_store]. rewrite Hs3, Hs2, Hs1.
    by rewrite !lookup_alter_eq, Ha. }
  assert (alert_history m5 = alert_history m) as Hh.
  { rewrite Hh5. unfold m4. cbn [alert_history set_store].
    by rewrite Hh3, Hh2, Hh1. }
  cbn [store alert_history sent_alerts_tracker clock set_alert_history].
  unfold total_alerts_sent. cbn [alert_history set_alert_history].
  rewrite Hs5, Hh. repeat split; [by exists n|].
  intros key. rewrite Hc5. unfold m5, track_sent_alert.
  autorewrite with run. rewrite track_sent_alert_loop_tracker.
  rewrite (lookup_total_correct _ _ _ Hr4).
  cbn [priority channels set_sent set_retry_count].
  f_equal. unfold m4. cbn [sent_alerts_tracker set_store]. by rewrite Ht3, Ht2.
Qed.

(** C10. An alert that passed both admission checks is marked as sent:
    the object stored under its reference afterwards has [sent = True],
    whatever the flag was before, and is otherwise the alert that came
    in, up to its retry counter.  It is appended to the history (which is
    then trimmed) and counted once per target channel in the rate
    tracker, with the time at which the fan-out ended.  Nothing in this
    depends on what the sends did, nor on whether a target channel is
    registered: the channel oracle only shows in the retry counter and in
    the clock. *)
Theorem admitted_alert_recorded_whatever_the_outcome
    (r : ref) (m : AlertManager) (a : Alert) :
  store m !! r = Some a →
  outcome r m = Dispatched →
  let m' := final (process_alert r) m in
  (∃ a', store m' !! r = Some a' ∧
         sent a' = true ∧
         id a' = id a ∧ title a' = title a ∧ message a' = message a ∧
         priority a' = priority a ∧ symbol a' = symbol a ∧
         timestamp a' = timestamp a ∧ channels a' = channels a ∧
         metadata a' = metadata a) ∧
  (∃ n, store m' !! r = Some (set_sent true (set_retry_count n a))) ∧
  alert_history m' = trim_history (alert_history m ++ [r]) ∧
  total_alerts_sent m' =
    Z.of_nat (length (trim_history (alert_history m ++ [r]))) ∧
  ∀ key,
    sent_alerts_tracker m' !!! key
    = sent_alerts_tracker (final (check_rate_limit r) m) !!! key
      ++ replicate (key_count (priority a) key (channels a)) (clock m').
Proof.
  intros Ha Hout m'.
  pose proof (process_alert_dispatched_fields r m a Ha Hout) as H.
  cbn zeta in H. fold m' in H. destruct H as ([n Hn] & Hrest).
  split; [|split; [by exists n|exact Hrest]].
  exists (set_sent true (set_retry_count n a)). by repeat split.
Qed.

(** *** Creation *)

Lemma create_alert_run title message symbol p chs md m :
  create_alert title message symbol p chs md m =
  match available_channels p chs m with
  | [] => (None, m, [EvLog WARNING title])
  | _ :: _ =>
      let r := fresh (dom (store m)) in
      (Some (alert_id (clock m) title),
       set_alert_queue (alert_queue m ++ [r])
         (set_store
            (<[r := new_alert title message symbol p chs md m]> (store m)) m),
       [EvPut r; EvLog INFO (alert_id (clock m) title)])
  end.
Proof.
  unfold create_alert, available_channels, resolved_channels, new_alert.
  rewrite (run_eta (_ ≫= _)). autorewrite with run.
  unfold available_channels, resolved_channels.
  destruct (filter _ _); autorewrite with run; reflexivity.
Qed.

(** *** What all steps preserve *)

Lemma same_alert_refl a : same_alert a a.
Proof. by destruct a. Qed.

Lemma same_alert_trans a b c : same_alert a b → same_alert b c → same_alert a c.
Proof. unfold same_alert. intros -> ->. by destruct a. Qed.

Lemma same_alert_hash a a' : same_alert a a' → alert_hash a' = alert_hash a.
Proof. by intros ->. Qed.

Lemma same_alert_channels a a' : same_alert a a' → channels a' = channels a.
Proof. by intros ->. Qed.

Lemma evolves_refl m : evolves m m.
Proof.
  split; [apply same_registries_refl|done|].
  intros r a Ha. exists a. auto using same_alert_refl.
Qed.

Lemma evolves_trans m1 m2 m3 : evolves m1 m2 → evolves m2 m3 → evolves m1 m3.
Proof.
  clear send_alert hash check MarketData.
  intros [[] Hr Hs] [[] Hr' Hs']. split; [split; congruence|set_solver|].
  intros r a Ha. destruct (Hs r a Ha) as (a' & Ha' & Hsame).
  destruct (Hs' r a' Ha') as (a'' & Ha'' & Hsame').
  exists a''. eauto using same_alert_trans.
Qed.

Lemma process_alert_fields r m :
  let m' := final (process_alert r) m in
  same_registries m m' ∧
  (store m' = store m ∨
   ∃ n, store m' = alter (set_sent true) r
                     (alter (set_retry_count n) r (store m))) ∧
  (∃ k, alert_queue m' = alert_queue m ++ replicate k r) ∧
  recent_alerts m ⊆ recent_alerts m' ∧
  (outcome r m ≠ RateLimited →
   alert_hash (store m !!! r) ∈ recent_alerts m').
Proof.
  clear hash check MarketData.
  cbn zeta. set (m' := final (process_alert r) m).
  assert (m' = (process_alert r m).1.2) as Hm' by reflexivity.
  clearbody m'. rewrite process_alert_run in Hm'. cbn zeta in Hm'.
  unfold outcome, after_fanout, after_admission in *.
  destruct (check_rate_limit_frame r m) as [[Hg1 Hq1 Hh1 Hr1 Hs1 _] _].
  set (m1 := final (check_rate_limit r) m) in *.
  destruct (result (check_rate_limit r) m); cbn [fst snd] in Hm'.
  2:{ subst m'. split; [done|]. split; [by left|].
      split; [|split]; [|set_solver|done].
      exists 0%nat. simpl. by rewrite app_nil_r. }
  destruct (is_duplicate_frame r m1) as [[Hg2 Hq2 Hh2 Ht2 Hs2 _] _].
  pose proof (is_duplicate_recent r m1) as Hr2.
  set (m2 := final (is_duplicate r) m1) in *.
  assert (same_registries m m2) as Hg12.
  { destruct Hg1, Hg2. split; congruence. }
  assert (alert_hash (store m !!! r) ∈ recent_alerts m2 ∧
          recent_alerts m ⊆ recent_alerts m2) as [Hin Hsub].
  { rewrite Hr2, Hs1, Hr1. clear.
    split; [apply elem_of_union_l; by apply elem_of_singleton
           |apply union_subseteq_r]. }
  destruct (result (is_duplicate r) m1); cbn [fst snd] in Hm'.
  { subst m'. split; [done|]. split; [left; congruence|]. split; [|done].
    exists 0%nat. simpl. rewrite app_nil_r. congruence. }
  destruct (send_loop_frame r (send_tasks r m) m2)
    as ([Hg3 Hh3 Ht3 Hr3] & [n Hs3] & [k Hq3] & _).
  set (m3 := final (send_loop r (send_tasks r m)) m2) in *.
  rewrite final_update, final_cleanup_history in Hm'.
  set (m4 := set_store (alter (set_sent true) r (store m3)) m3) in *.
  destruct (track_sent_alert_frame r m4) as [[Hg5 Hq5 Hh5 Hr5 Hs5 _] _].
  set (m5 := final (track_sent_alert r) m4) in *.
  subst m'.
  cbn [mgr_channels mgr_triggers store alert_queue recent_alerts
       set_alert_history].
  split; [|split; [|split; [|split]]].
  - destruct Hg12, Hg3, Hg5. split; cbn in *; congruence.
  - right. exists n. rewrite Hs5. unfold m4. cbn [store set_store].
    by rewrite Hs3, Hs2, Hs1.
  - exists k. rewrite Hq5. unfold m4. cbn [alert_queue set_store].
    by rewrite Hq3, Hq2, Hq1.
  - rewrite Hr5. unfold m4. cbn [recent_alerts set_store]. by rewrite Hr3.
  - intros _. rewrite Hr5. unfold m4. cbn [recent_alerts set_store].
    by rewrite Hr3.
Qed.

Lemma process_alert_evolves r m : evolves m (final (process_alert r) m).
Proof.
  destruct (process_alert_fields r m) as (Hg & Hs & _ & Hr & _).
  split; [done..|]. intros r' a Ha. destruct Hs as [->|[n ->]].
  - exists a. auto using same_alert_refl.
  - destruct (decide (r' = r)) as [->|Hne].
    + rewrite !lookup_alter_eq, Ha. eexists. split; [done|]. by destruct a.
    + rewrite !lookup_alter_ne by done. exists a. auto using same_alert_refl.
Qed.

Lemma create_alert_evolves title message symbol p chs md m :
  evolves m (final (create_alert title message symbol p chs md) m).
Proof.
  unfold final. rewrite create_alert_run.
  destruct (available_channels p chs m); [apply evolves_refl|].
  split; [done..|]. intros r a Ha. exists a. split; [|apply same_alert_refl].
  cbn [fst snd store set_alert_queue set_store].
  rewrite lookup_insert_ne; [done|]. intros <-.
  apply (is_fresh (dom (store m))). apply elem_of_dom. eauto.
Qed.

Lemma check_triggers_loop_evolves market_data names m :
  evolves m (final (check_triggers_loop market_data names) m).
Proof.
  revert m. induction names as [|name names IH]; intros m; simpl.
  - apply evolves_refl.
  - autorewrite with run. eapply evolves_trans; [|apply IH].
    destruct (check name market_data (clock m)) as [|[] [d|]];
      autorewrite with run; try apply evolves_refl.
    apply create_alert_evolves.
Qed.

Lemma check_triggers_evolves market_data m :
  evolves m (final (check_triggers market_data) m).
Proof.
  unfold check_triggers. autorewrite with run.
  apply check_triggers_loop_evolves.
Qed.

Lemma alert_worker_step_evolves m : evolves m (final alert_worker_step m).
Proof.
  unfold alert_worker_step. autorewrite with run.
  destruct (alert_queue m) as [|r rest]; autorewrite with run.
  - by split; [split|..]; [..|intros r a ?; exists a; split;
                                 [|apply same_alert_refl]].
  - eapply evolves_trans; [|apply process_alert_evolves].
    by split; [split|..]; [..|intros r' a ?; exists a; split;
                                 [|apply same_alert_refl]].
Qed.

Lemma step_evolves m m' : step m m' → evolves m m'.
Proof.
  destruct 1.
  - apply create_alert_evolves.
  - apply check_triggers_evolves.
  - apply alert_worker_step_evolves.
  - by split; [split|..]; [..|intros r a ?; exists a; split;
                                 [|apply same_alert_refl]].
Qed.

Lemma run_evolves m m' : rtc step m m' → evolves m m'.
Proof.
  induction 1 as [|m1 m2 m3 H12 _ IH]; [apply evolves_refl|].
  eapply evolves_trans; [by apply step_evolves|done].
Qed.

(** *** Only alerts with channels are queued *)

Lemma queue_wf_evolves m m' :
  evolves m m' →
  (∀ r, r ∈ alert_queue m' →
        r ∈ alert_queue m ∨ ∃ a, store m' !! r = Some a ∧ channels a ≠ []) →
  queue_wf m → queue_wf m'.
Proof.
  intros [_ _ Hs] Hq Hwf r Hr. destruct (Hq r Hr) as [Hold|Hnew]; [|done].
  destruct (Hwf r Hold) as (a & Ha & Hch).
  destruct (Hs r a Ha) as (a' & Ha' & Hsame).
  exists a'. split; [done|]. by rewrite (same_alert_channels _ _ Hsame).
Qed.

Lemma create_alert_queue_wf title message symbol p chs md m :
  queue_wf m →
  queue_wf (final (create_alert title message symbol p chs md) m).
Proof.
  apply queue_wf_evolves; [apply create_alert_evolves|].
  unfold final. rewrite create_alert_run. unfold new_alert.
  destruct (available_channels p chs m) as [|ch l] eqn:Hav; [by left|].
  cbn [fst snd store alert_queue set_alert_queue set_store].
  intros r [Hr|Hr%list_elem_of_singleton]%elem_of_app; [by left|right].
  subst r. rewrite lookup_insert_eq. eexists. split; [done|]. done.
Qed.

Lemma process_alert_queue_wf r m :
  (∃ a, store m !! r = Some a ∧ channels a ≠ []) →
  queue_wf m → queue_wf (final (process_alert r) m).
Proof.
  intros (a & Ha & Hch).
  apply queue_wf_evolves; [apply process_alert_evolves|].
  destruct (process_alert_fields r m) as (_ & _ & [k ->] & _).
  intros r' [Hr|Hr%elem_of_replicate]%elem_of_app; [by left|right].
  destruct Hr as [-> _].
  destruct (process_alert_evolves r m) as [_ _ Hs].
  destruct (Hs r a Ha) as (a' & Ha' & Hsame).
  exists a'. split; [done|]. by rewrite (same_alert_channels _ _ Hsame).
Qed.

Lemma check_triggers_loop_queue_wf market_data names m :
  queue_wf m → queue_wf (final (check_triggers_loop market_data names) m).
Proof.
  revert m. induction names as [|name names IH]; intros m Hwf; simpl.
  - done.
  - autorewrite with run. apply IH.
    destruct (check name market_data (clock m)) as [|[] [d|]];
      autorewrite with run; try done.
    by apply create_alert_queue_wf.
Qed.

Lemma step_queue_wf m m' : step m m' → queue_wf m → queue_wf m'.
Proof.
  destruct 1; intros Hwf.
  - by apply create_alert_queue_wf.
  - unfold check_triggers. autorewrite with run.
    by apply check_triggers_loop_queue_wf.
  - unfold alert_worker_step. autorewrite with run.
    destruct (alert_queue m) as [|r rest] eqn:Hq; autorewrite with run.
    + intros r Hr. cbn in Hr. rewrite Hq in Hr. by apply elem_of_nil in Hr.
    + apply process_alert_queue_wf.
      * apply (Hwf r). rewrite Hq. by left.
      * intros r' Hr'. apply (Hwf r'). rewrite Hq. by right.
  - done.
Qed.

Lemma run_queue_wf m m' : rtc step m m' → queue_wf m → queue_wf m'.
Proof. induction 1; eauto using step_queue_wf. Qed.

(** C5. When no resolved channel is registered, [create_alert] returns
    [None] and leaves the manager as it was: nothing is enqueued and no
    object is kept.  Hence, from construction on and whatever happens
    (creations, trigger passes, worker iterations with their retries, time
    passing), every alert on the queue has at least one target channel. *)
Theorem no_channels_nothing_enqueued :
  (∀ title message symbol p chs md m,
     available_channels p chs m = [] →
     result (create_alert title message symbol p chs md) m = None ∧
     final (create_alert title message symbol p chs md) m = m ∧
     events (create_alert title message symbol p chs md) m
     = [EvLog WARNING title]) ∧
  (∀ channel_names trigger_names t0 m,
     rtc step (init channel_names trigger_names t0) m →
     ∀ r, r ∈ alert_queue m →
          ∃ a, store m !! r = Some a ∧ channels a ≠ []).
Proof.
  split.
  - intros * Hav. unfold result, final, events.
    by rewrite create_alert_run, Hav.
  - intros * Hrun. apply (run_queue_wf _ _ Hrun).
    intros r Hr. by apply elem_of_nil in Hr.
Qed.

(** *** The duplicate store only grows *)

(** Once the hash of an alert is in the set, the alert cannot be
    dispatched: if the rate limiter lets it through, the duplicate filter
    stops it. *)
Lemma seen_hash_not_dispatched r a m :
  store m !! r = Some a →
  alert_hash a ∈ recent_alerts m →
  result (is_duplicate r) m = true ∧ outcome r m ≠ Dispatched.
Proof.
  intros Ha Hin. split.
  - rewrite is_duplicate_result, (lookup_total_correct _ _ _ Ha).
    by apply bool_decide_eq_true.
  - unfold outcome.
    destruct (check_rate_limit_frame r m) as [[_ _ _ Hr Hs _] _].
    destruct (result (check_rate_limit r) m); [|done].
    rewrite is_duplicate_result, Hs, Hr, (lookup_total_correct _ _ _ Ha).
    by rewrite bool_decide_eq_true_2.
Qed.

Lemma hash_stays_seen r a m m' :
  store m !! r = Some a →
  alert_hash a ∈ recent_alerts m →
  rtc step m m' →
  ∃ a', store m' !! r = Some a' ∧ alert_hash a' ∈ recent_alerts m'.
Proof.
  intros Ha Hin [_ Hr Hs]%run_evolves.
  destruct (Hs r a Ha) as (a' & Ha' & Hsame). exists a'. split; [done|].
  rewrite (same_alert_hash _ _ Hsame). set_solver.
Qed.

Lemma not_dispatched_events r m :
  outcome r m ≠ Dispatched →
  events (process_alert r) m
  = [EvRateCheck r false; EvLog DEBUG (id (store m !!! r))] ∨
  events (process_alert r) m
  = [EvRateCheck r true; EvDupCheck r true; EvLog DEBUG (id (store m !!! r))].
Proof.
  intros Hout. pose proof (process_alert_by_outcome r m) as H. cbn zeta in H.
  destruct (outcome r m); [left|right|done]; apply H.
Qed.

(** C1 (not met by the code). The duplicate filter records hashes without
    a time and never removes one.  Take an alert that reached the filter,
    let anything happen afterwards and let more than the duplicate window
    pass: an alert with the same symbol, title and message is still
    reported as a duplicate and is not dispatched. *)
Theorem dedup_store_never_expires (r1 r2 : ref) (a1 a2 : Alert)
    (m m' : AlertManager) :
  store m !! r1 = Some a1 →
  outcome r1 m ≠ RateLimited →
  rtc step (final (process_alert r1) m) m' →
  duplicate_window < clock m' - clock m →
  store m' !! r2 = Some a2 →
  alert_hash a2 = alert_hash a1 →
  result (is_duplicate r2) m' = true ∧ outcome r2 m' ≠ Dispatched.
Proof.
  intros Ha1 Hout Hrun _ Ha2 Hhash.
  destruct (process_alert_fields r1 m) as (_ & _ & _ & _ & Hin).
  specialize (Hin Hout). rewrite (lookup_total_correct _ _ _ Ha1) in Hin.
  apply run_evolves in Hrun as [_ Hr _].
  apply (seen_hash_not_dispatched r2 a2); [done|]. rewrite Hhash. set_solver.
Qed.

(** *** Retries *)

(** C2 (not met by the code). A CRITICAL alert whose only channel fails
    is sent once: the failure raises the retry counter, sleeps [2^1]
    seconds and puts the alert back on the queue, but the hash recorded on
    the first pass makes every later pass of the same alert stop at the
    duplicate filter, so that no second attempt is ever made. *)
Theorem critical_retry_never_resends (r : ref) (a : Alert) (c : string)
    (m : AlertManager) :
  store m !! r = Some a →
  priority a = CRITICAL →
  retry_count a = 0 →
  channels a = [c] →
  c ∈ mgr_channels m →
  (∀ alert t, send_alert c alert t = false) →
  outcome r m = Dispatched →
  events (process_alert r) m
  = [EvRateCheck r true; EvDupCheck r false; EvSend c r false;
     EvLog ERROR c; EvSleep 2; EvPut r] ∧
  ∀ m', rtc step (final (process_alert r) m) m' →
        outcome r m' ≠ Dispatched ∧
        ∀ ch delivered, EvSend ch r delivered ∉ events (process_alert r) m'.
Proof.
  intros Ha Hp Hrc Hch Hc Hfail Hout. split.
  - rewrite (proj2 (process_alert_dispatched r m Hout)).
    destruct (check_rate_limit_frame r m) as [[_ _ _ _ Hs1 _] _].
    destruct (is_duplicate_frame r (final (check_rate_limit r) m))
      as [[_ _ _ _ Hs2 _] _].
    unfold send_tasks, after_admission.
    rewrite (lookup_total_correct _ _ _ Ha), Hch, filter_cons, filter_nil.
    rewrite decide_True by done. cbn [send_loop]. autorewrite with run.
    rewrite Hs2, Hs1, (lookup_total_correct _ _ _ Ha), Hfail, Hp, Hrc.
    rewrite bool_decide_eq_true_2 by done. cbn [andb].
    change (0 <? 3) with true. cbn iota. autorewrite with run.
    cbn [store set_store]. rewrite lookup_total_alter_eq.
    rewrite Hs2, Hs1, Ha. reflexivity.
  - intros m' Hrun.
    destruct (process_alert_fields r m) as (_ & _ & _ & _ & Hin).
    rewrite Hout, (lookup_total_correct _ _ _ Ha) in Hin.
    specialize (Hin ltac:(done)).
    destruct (process_alert_evolves r m) as [_ _ Hs].
    destruct (Hs r a Ha) as (a1 & Ha1 & Hsame).
    rewrite <- (same_alert_hash _ _ Hsame) in Hin.
    destruct (hash_stays_seen r a1 _ m' Ha1 Hin Hrun) as (a' & Ha' & Hin').
    destruct (seen_hash_not_dispatched r a' m' Ha' Hin') as [_ Hnd].
    split; [done|]. intros ch delivered.
    destruct (not_dispatched_events r m' Hnd) as [-> | ->];
      rewrite !elem_of_cons, elem_of_nil; naive_solver.
Qed.

(** *** The history buffer *)

Lemma process_alert_history r m :
  alert_history (final (process_alert r) m)
  = match outcome r m with
    | Dispatched => trim_history (alert_history m ++ [r])
    | _ => alert_history m
    end.
Proof.
  pose proof (process_alert_by_outcome r m) as H. cbn zeta in H.
  destruct (outcome r m) eqn:Hout; [apply H..|].
  rewrite (proj1 (process_alert_dispatched r m Hout)). cbn zeta.
  rewrite final_cleanup_history, final_update.
  cbn [alert_history set_alert_history].
  destruct (check_rate_limit_frame r m) as [[_ _ Hh1 _ _ _] _].
  destruct (is_duplicate_frame r (final (check_rate_limit r) m))
    as [[_ _ Hh2 _ _ _] _].
  destruct (send_loop_frame r (send_tasks r m) (after_admission r m))
    as ([_ Hh3 _ _] & _).
  match goal with |- context [final (track_sent_alert r) ?m4] =>
    destruct (track_sent_alert_frame r m4) as [[_ _ Hh5 _ _ _] _] end.
  rewrite Hh5. cbn [alert_history set_store].
  unfold after_fanout, after_admission in *. by rewrite Hh3, Hh2, Hh1.
Qed.

Lemma trim_history_zero history :
  max_history_size config = 0 → trim_history history = history.
Proof.
  intros H0. unfold trim_history, slice_from. rewrite H0.
  by destruct (0 <? _).
Qed.

(** For a positive size the clean-up keeps the most recent records, at
    most [max_history_size] of them. *)
Lemma trim_history_positive history :
  1 ≤ max_history_size config →
  trim_history history
  = drop (length history - Z.to_nat (max_history_size config)) history ∧
  Z.of_nat (length (trim_history history)) ≤ max_history_size config.
Proof.
  intros Hmax. unfold trim_history, slice_from.
  destruct (_ <? Z.of_nat _) eqn:Hlt.
  - apply Z.ltb_lt in Hlt.
    replace (- max_history_size config <? 0) with true
      by (symmetry; apply Z.ltb_lt; lia).
    replace (Z.to_nat (Z.max 0 (Z.of_nat (length history)
                                + - max_history_size config)))
      with (length history - Z.to_nat (max_history_size config))%nat by lia.
    split; [done|]. rewrite length_drop. lia.
  - apply Z.ltb_ge in Hlt. split; [|done].
    replace (length history - Z.to_nat (max_history_size config))%nat
      with 0%nat by lia.
    done.
Qed.

(** With the default size, and with any size of at least one, the bound
    of the spec holds along every run. *)
Lemma history_bounded_for_positive_size m m' :
  1 ≤ max_history_size config →
  Z.of_nat (length (alert_history m)) ≤ max_history_size config →
  rtc step m m' →
  Z.of_nat (length (alert_history m')) ≤ max_history_size config.
Proof.
  intros Hmax Hlen Hrun. induction Hrun as [|m1 m2 m3 Hstep _ IH]; [done|].
  apply IH. clear IH. destruct Hstep.
  - unfold final. rewrite create_alert_run.
    by destruct (available_channels _ _ _).
  - unfold check_triggers. autorewrite with run.
    generalize (mgr_triggers m). intros names. revert m Hlen.
    induction names as [|name names IH]; intros m Hlen; [done|]. simpl.
    autorewrite with run. apply IH.
    destruct (check name market_data (clock m)) as [|[] [d|]];
      autorewrite with run; try done.
    unfold create_alert_kw, final. rewrite create_alert_run.
    by destruct (available_channels _ _ _).
  - unfold alert_worker_step. autorewrite with run.
    destruct (alert_queue m) as [|r rest]; autorewrite with run; [done|].
    rewrite process_alert_history. destruct (outcome _ _); [done..|].
    by apply trim_history_positive.
  - done.
Qed.

(** C7 (not met by the code for size 0). With [max_history_size] set to
    [0] the slice [alert_history[-0:]] is the whole list: the clean-up
    drops nothing, every dispatched alert makes the history one longer and
    the history exceeds the configured size. *)
Theorem history_exceeds_size_zero (r : ref) (m : AlertManager) :
  max_history_size config = 0 →
  outcome r m = Dispatched →
  alert_history (final (process_alert r) m) = alert_history m ++ [r] ∧
  max_history_size config
  < Z.of_nat (length (alert_history (final (process_alert r) m))).
Proof.
  intros H0 Hout. rewrite process_alert_history, Hout, trim_history_zero by done.
  split; [done|]. rewrite length_app. simpl. lia.
Qed.

(** *** Trigger passes *)

Lemma create_alert_kw_pass d m :
  clock (final (create_alert_kw d) m) = clock m ∧
  checked (events (create_alert_kw d) m) = [].
Proof.
  unfold create_alert_kw, final, events. rewrite create_alert_run.
  by destruct (available_channels _ _ _).
Qed.

Lemma checked_app es1 es2 : checked (es1 ++ es2) = checked es1 ++ checked es2.
Proof. apply omap_app. Qed.

Lemma check_triggers_loop_pass market_data names m :
  clock (final (check_triggers_loop market_data names) m) = clock m ∧
  checked (events (check_triggers_loop market_data names) m) = names ∧
  ∀ name, name ∈ names →
    check name market_data (clock m) = CheckRaises →
    ∃ before after,
      events (check_triggers_loop market_data names) m
      = before ++ [EvCheck name; EvLog ERROR name] ++ after.
Proof.
  revert m. induction names as [|name names IH]; intros m.
  - simpl. split; [done|]. split; [done|]. by intros ? ?%elem_of_nil.
  - cbn [check_triggers_loop]. autorewrite with run.
    change (result now m) with (clock m).
    set (body := match check name market_data (clock m) with
                 | CheckRaises => log ERROR name
                 | CheckReturns true (Some d) => create_alert_kw d ≫= λ _, mret ()
                 | CheckReturns true None => log ERROR name
                 | CheckReturns false _ => mret ()
                 end).
    assert (clock (final body m) = clock m ∧ checked (events body m) = [])
      as [Hclock Hchecked].
    { unfold body. destruct (check name market_data (clock m)) as [|[] [d|]];
        autorewrite with run; try done.
      rewrite app_nil_r. apply create_alert_kw_pass. }
    destruct (IH (final body m)) as (Hc & Hn & Hraise).
    split; [congruence|]. split.
    + rewrite !checked_app, Hchecked, Hn. done.
    + intros name' Hin Hr. apply elem_of_cons in Hin as [->|Hin].
      * exists [], (events (check_triggers_loop market_data names) (final body m)).
        unfold body. rewrite Hr. autorewrite with run. done.
      * rewrite <- Hclock in Hr. destruct (Hraise name' Hin Hr) as (b & a & ->).
        exists ([EvCheck name] ++ events body m ++ b), a.
        by rewrite <- !app_assoc.
Qed.


(** *** The rate limiter *)

Lemma filter_filter_impl {A} (P Q : A → Prop) `{∀ x, Decision (P x)}
    `{∀ x, Decision (Q x)} (l : list A) :
  (∀ x, P x → Q x) → filter P (filter Q l) = filter P l.
Proof.
  intros HPQ. induction l as [|x l IH]; [done|].
  rewrite !filter_cons. destruct (decide (Q x)) as [HQ|HQ].
  - rewrite filter_cons. destruct (decide (P x)); by rewrite IH.
  - rewrite decide_False by auto. done.
Qed.

Lemma filter_idemp {A} (P : A → Prop) `{∀ x, Decision (P x)} (l : list A) :
  filter P (filter P l) = filter P l.
Proof. by apply filter_filter_impl. Qed.

Lemma check_channel_hit t p ch m :
  result (check_channel t p ch) m
  = if over_limit t (sent_alerts_tracker m) p ch then Some false else None.
Proof.
  unfold check_channel, over_limit, sends_since. fold (limits_of ch p).
  set (mph := max_per_hour (limits_of ch p)).
  set (mpm := max_per_minute (limits_of ch p)).
  destruct (negb (truthy mph) && negb (truthy mpm)) eqn:Hno.
  { autorewrite with run.
    apply andb_true_iff in Hno as [H1%negb_true_iff H2%negb_true_iff].
    destruct mph as [v|], mpm as [w|]; simpl in *;
      rewrite ?H1, ?H2; done. }
  autorewrite with run. cbn [sent_alerts_tracker set_sent_alerts_tracker].
  set (key := tracker_key ch p).
  assert ((sent_alerts_tracker
             (if decide (key ∈ dom (sent_alerts_tracker m)) then m
              else set_sent_alerts_tracker
                     (<[key:=[]]> (sent_alerts_tracker m)) m)) !!! key
          = sent_alerts_tracker m !!! key) as ->.
  { case_decide as Hk; [done|]. cbn [sent_alerts_tracker set_sent_alerts_tracker].
    rewrite lookup_total_insert_eq. apply not_elem_of_dom in Hk.
    unfold lookup_total, map_lookup_total. by rewrite Hk. }
  rewrite (filter_filter_impl (λ ts, t - Time.minutes 1 < ts)).
  2:{ intros ts. unfold Time.minutes, Time.hours. lia. }
  destruct (reached _ mph); [by autorewrite with run|].
  destruct (reached _ mpm); by autorewrite with run.
Qed.

Lemma check_channel_tracker t p ch m :
  sent_alerts_tracker (final (check_channel t p ch) m)
  = if has_limit ch p
    then <[tracker_key ch p :=
             filter (λ ts, t - Time.hours 1 < ts)
                    (sent_alerts_tracker m !!! tracker_key ch p)]>
           (sent_alerts_tracker m)
    else sent_alerts_tracker m.
Proof.
  unfold check_channel, has_limit. fold (limits_of ch p).
  set (mph := max_per_hour (limits_of ch p)).
  set (mpm := max_per_minute (limits_of ch p)).
  rewrite <- negb_orb.
  destruct (truthy mph || truthy mpm); cbn [negb];
    [|by autorewrite with run].
  autorewrite with run. set (key := tracker_key ch p).
  assert (∀ c1 c2 : M (option bool), ∀ b : bool, ∀ m0,
            final c1 m0 = m0 → final c2 m0 = m0 →
            final (if b then c1 else c2) m0 = m0) as Hif
    by (by intros ? ? []).
  rewrite Hif; [| done | by apply Hif].
  cbn [sent_alerts_tracker set_sent_alerts_tracker].
  case_decide as Hk; [done|]. cbn [sent_alerts_tracker set_sent_alerts_tracker].
  rewrite insert_insert_eq, lookup_total_insert_eq.
  apply not_elem_of_dom in Hk. unfold lookup_total, map_lookup_total.
  by rewrite Hk.
Qed.

Lemma check_channel_prunes t p ch m key :
  let fresh_only := filter (λ ts, t - Time.hours 1 < ts) in
  let tr := sent_alerts_tracker m in
  let tr1 := sent_alerts_tracker (final (check_channel t p ch) m) in
  (tr1 !!! key = tr !!! key ∨ tr1 !!! key = fresh_only (tr !!! key)) ∧
  (has_limit ch p = true → key = tracker_key ch p →
   tr1 !!! key = fresh_only (tr !!! key)).
Proof.
  cbn zeta. rewrite check_channel_tracker.
  destruct (has_limit ch p); [|by split; [left|]].
  destruct (decide (tracker_key ch p = key)) as [<-|Hne].
  - rewrite lookup_total_insert_eq. by split; [right|].
  - rewrite lookup_total_insert_ne by done. split; [by left|]. by intros _ ->.
Qed.

Lemma over_limit_pruned t (tr1 tr2 : gmap string (list datetime)) p ch :
  (∀ key, filter (λ ts, t - Time.hours 1 < ts) (tr1 !!! key)
          = filter (λ ts, t - Time.hours 1 < ts) (tr2 !!! key)) →
  over_limit t tr1 p ch = over_limit t tr2 p ch.
Proof.
  intros Heq. unfold over_limit, sends_since. rewrite Heq.
  rewrite <- (filter_filter_impl (λ ts, t - Time.minutes 1 < ts)
                (λ ts, t - Time.hours 1 < ts) (tr1 !!! _))
    by (intros ts; unfold Time.minutes, Time.hours; lia).
  rewrite <- (filter_filter_impl (λ ts, t - Time.minutes 1 < ts)
                (λ ts, t - Time.hours 1 < ts) (tr2 !!! _))
    by (intros ts; unfold Time.minutes, Time.hours; lia).
  by rewrite Heq.
Qed.

Lemma existsb_ext_all {A} (f g : A → bool) (l : list A) :
  (∀ x, f x = g x) → existsb f l = existsb g l.
Proof. intros Hfg. induction l as [|x l IH]; simpl; by rewrite ?Hfg, ?IH. Qed.

Lemma check_rate_limit_loop_spec t p chs m :
  let fresh_only := filter (λ ts, t - Time.hours 1 < ts) in
  let tr := sent_alerts_tracker m in
  let tr' := sent_alerts_tracker (final (check_rate_limit_loop t p chs) m) in
  result (check_rate_limit_loop t p chs) m
  = negb (existsb (over_limit t tr p) chs) ∧
  (∀ key, tr' !!! key = tr !!! key ∨ tr' !!! key = fresh_only (tr !!! key)) ∧
  (result (check_rate_limit_loop t p chs) m = true →
   ∀ ch, ch ∈ chs → has_limit ch p = true →
         tr' !!! tracker_key ch p = fresh_only (tr !!! tracker_key ch p)).
Proof.
  cbn zeta. revert m. induction chs as [|ch chs IH]; intros m.
  - simpl. split; [done|]. split; [by left|]. by intros _ ? ?%elem_of_nil.
  - cbn [check_rate_limit_loop existsb]. autorewrite with run.
    rewrite check_channel_hit.
    pose proof (λ key, check_channel_prunes t p ch m key) as Hstep.
    cbn zeta in Hstep.
    set (m1 := final (check_channel t p ch) m) in *.
    assert (∀ key, filter (λ ts, t - Time.hours 1 < ts)
                     (sent_alerts_tracker m1 !!! key)
                   = filter (λ ts, t - Time.hours 1 < ts)
                       (sent_alerts_tracker m !!! key)) as Hview.
    { intros key. destruct (Hstep key) as [[-> | ->] _]; [done|].
      apply filter_idemp. }
    destruct (over_limit t (sent_alerts_tracker m) p ch) eqn:Hover.
    + autorewrite with run. split; [done|]. split; [|done].
      intros key. apply Hstep.
    + cbn [orb]. destruct (IH m1) as (Hres & Hkeys & Hpruned).
      split; [|split].
      * rewrite Hres. f_equal. apply existsb_ext_all.
        intros x. by apply over_limit_pruned.
      * intros key. destruct (Hkeys key) as [-> | ->].
        -- apply Hstep.
        -- right. apply Hview.
      * intros Hok ch' Hin Hlim.
        apply elem_of_cons in Hin as [->|Hin].
        -- destruct (Hkeys (tracker_key ch p)) as [-> | ->].
           ++ by apply Hstep.
           ++ apply Hview.
        -- rewrite (Hpruned Hok ch' Hin Hlim). apply Hview.
Qed.

Lemma reached_true count limit :
  reached count limit = true ↔ ∃ v, limit = Some v ∧ v ≠ 0 ∧ v ≤ count.
Proof.
  unfold reached. destruct limit as [v|]; [|naive_solver].
  rewrite andb_true_iff, negb_true_iff, Z.eqb_neq, Z.leb_le. naive_solver.
Qed.

Lemma over_limit_true t tr p ch :
  over_limit t tr p ch = true ↔
  ∃ v, v ≠ 0 ∧
    ((max_per_hour (limits_of ch p) = Some v ∧
      v ≤ sends_since tr (tracker_key ch p) (t - Time.hours 1)) ∨
     (max_per_minute (limits_of ch p) = Some v ∧
      v ≤ sends_since tr (tracker_key ch p) (t - Time.minutes 1))).
Proof.
  clear send_alert hash check MarketData.
  unfold over_limit. rewrite orb_true_iff, !reached_true. naive_solver.
Qed.

Lemma no_limit_not_over t tr p ch :
  has_limit ch p = false → over_limit t tr p ch = false.
Proof.
  unfold has_limit, over_limit, truthy, reached.
  intros [H1 H2]%orb_false_iff.
  destruct (max_per_hour _) as [v|], (max_per_minute _) as [w|];
    rewrite ?H1, ?H2; done.
Qed.

Lemma string_length_app (s1 s2 : string) :
  String.length (s1 +:+ s2) = (String.length s1 + String.length s2)%nat.
Proof.
  induction s1 as [|c s1 IH]; [done|].
  change (S (String.length (s1 +:+ s2))
          = S (String.length s1 + String.length s2)). by rewrite IH.
Qed.

Lemma string_app_inj_r (s1 s2 v : string) : s1 +:+ v = s2 +:+ v → s1 = s2.
Proof.
  revert s2. induction s1 as [|c s1 IH]; intros [|c' s2] Heq.
  - done.
  - apply (f_equal String.length) in Heq.
    change ("" +:+ v) with v in Heq.
    change (String c' s2 +:+ v) with (String c' (s2 +:+ v)) in Heq.
    cbn [String.length] in Heq. rewrite string_length_app in Heq. lia.
  - apply (f_equal String.length) in Heq.
    change ("" +:+ v) with v in Heq.
    change (String c s1 +:+ v) with (String c (s1 +:+ v)) in Heq.
    cbn [String.length] in Heq. rewrite string_length_app in Heq. lia.
  - change (String c (s1 +:+ v) = String c' (s2 +:+ v)) in Heq.
    injection Heq as -> Heq. by rewrite (IH s2 Heq).
Qed.

(** For one priority, different channels have different keys. *)
Lemma tracker_key_inj p ch ch' :
  tracker_key ch p = tracker_key ch' p → ch = ch'.
Proof. unfold tracker_key. apply string_app_inj_r. Qed.

Lemma reached_channels_ext t tr1 tr2 p chs :
  (∀ ch, over_limit t tr1 p ch = over_limit t tr2 p ch) →
  reached_channels t tr1 p chs = reached_channels t tr2 p chs.
Proof.
  intros Hext. induction chs as [|ch chs IH]; [done|].
  cbn [reached_channels]. by rewrite Hext, IH.
Qed.

Lemma reached_channels_all t tr p chs :
  existsb (over_limit t tr p) chs = false →
  reached_channels t tr p chs = chs.
Proof.
  induction chs as [|ch chs IH]; [done|]. cbn [existsb reached_channels].
  intros [-> Hrest]%orb_false_iff. by rewrite IH.
Qed.

Lemma reached_channels_subseteq t tr p chs ch :
  ch ∈ reached_channels t tr p chs → ch ∈ chs.
Proof.
  induction chs as [|ch' chs IH]; [done|]. cbn [reached_channels].
  intros [->|Hin]%elem_of_cons; [by left|].
  destruct (over_limit t tr p ch'); [by apply elem_of_nil in Hin|].
  right. by apply IH.
Qed.

(** Where the loop stops when it rejects. *)
Lemma reached_channels_stop t tr p chs :
  existsb (over_limit t tr p) chs = true →
  ∃ before ch after,
    chs = before ++ ch :: after ∧
    (∀ ch', ch' ∈ before → over_limit t tr p ch' = false) ∧
    over_limit t tr p ch = true ∧
    reached_channels t tr p chs = before ++ [ch].
Proof.
  induction chs as [|ch chs IH]; [done|]. cbn [existsb reached_channels].
  destruct (over_limit t tr p ch) eqn:Hover.
  - intros _. exists [], ch, chs. repeat split; [|done].
    by intros ? ?%elem_of_nil.
  - cbn [orb]. intros (before & ch1 & after & -> & Hb & Hc & ->)%IH.
    exists (ch :: before), ch1, after. repeat split; [|done].
    intros ch' [->|Hin]%elem_of_cons; [done|by apply Hb].
Qed.

Lemma pruned_keys_elem t tr p chs key :
  key ∈ pruned_keys t tr p chs ↔
  ∃ ch, ch ∈ reached_channels t tr p chs ∧ has_limit ch p = true ∧
        key = tracker_key ch p.
Proof.
  unfold pruned_keys. rewrite list_elem_of_fmap.
  split.
  - intros (ch & -> & [Hlim Hin]%list_elem_of_filter). by exists ch.
  - intros (ch & Hin & Hlim & ->). exists ch. split; [done|].
    by apply list_elem_of_filter.
Qed.

(** The tracker the loop leaves, key by key. *)
Lemma check_rate_limit_loop_tracker t p chs m key :
  sent_alerts_tracker (final (check_rate_limit_loop t p chs) m) !!! key
  = if decide (key ∈ pruned_keys t (sent_alerts_tracker m) p chs)
    then filter (λ ts, t - Time.hours 1 < ts) (sent_alerts_tracker m !!! key)
    else sent_alerts_tracker m !!! key.
Proof.
  clear send_alert hash check MarketData.
  revert m. induction chs as [|ch chs IH]; intros m.
  - cbn. rewrite decide_False; [done|]. by intros ?%elem_of_nil.
  - cbn [check_rate_limit_loop]. autorewrite with run.
    rewrite check_channel_hit.
    pose proof (check_channel_tracker t p ch m) as Hone.
    set (m1 := final (check_channel t p ch) m) in *.
    assert (∀ k, filter (λ ts, t - Time.hours 1 < ts)
                   (sent_alerts_tracker m1 !!! k)
                 = filter (λ ts, t - Time.hours 1 < ts)
                     (sent_alerts_tracker m !!! k)) as Hview.
    { intros k. rewrite Hone. destruct (has_limit ch p); [|done].
      destruct (decide (tracker_key ch p = k)) as [<-|Hne].
      - rewrite lookup_total_insert_eq. apply filter_idemp.
      - by rewrite lookup_total_insert_ne. }
    assert (sent_alerts_tracker m1 !!! key
            = if decide (has_limit ch p = true ∧ key = tracker_key ch p)
              then filter (λ ts, t - Time.hours 1 < ts)
                          (sent_alerts_tracker m !!! key)
              else sent_alerts_tracker m !!! key) as Hkey.
    { rewrite Hone. destruct (has_limit ch p) eqn:Hlim.
      - destruct (decide (tracker_key ch p = key)) as [<-|Hne].
        + rewrite lookup_total_insert_eq. by rewrite decide_True.
        + rewrite lookup_total_insert_ne by done.
          rewrite decide_False; [done|]. by intros [_ ->].
      - rewrite decide_False; [done|]. by intros [? _]. }
    assert (∀ rest : list string,
              key ∈ (λ c, tracker_key c p)
                    <$> filter (λ c, has_limit c p = true) (ch :: rest)
              ↔ (has_limit ch p = true ∧ key = tracker_key ch p) ∨
                key ∈ (λ c, tracker_key c p)
                      <$> filter (λ c, has_limit c p = true) rest) as Hcons.
    { intros rest. rewrite filter_cons.
      destruct (decide (has_limit ch p = true)) as [Hlim|Hlim].
      - rewrite fmap_cons, elem_of_cons. naive_solver.
      - naive_solver. }
    unfold pruned_keys. cbn [reached_channels].
    destruct (over_limit t (sent_alerts_tracker m) p ch) eqn:Hover.
    + autorewrite with run. fold m1. rewrite Hkey.
      destruct (decide (has_limit ch p = true ∧ key = tracker_key ch p))
        as [Hk|Hk].
      * rewrite decide_True; [done|]. apply Hcons. by left.
      * rewrite decide_False; [done|].
        intros [?|Hin%elem_of_nil]%Hcons; done.
    + rewrite IH.
      replace (pruned_keys t (sent_alerts_tracker m1) p chs)
        with (pruned_keys t (sent_alerts_tracker m) p chs).
      2:{ unfold pruned_keys.
          rewrite (reached_channels_ext t (sent_alerts_tracker m1)
                     (sent_alerts_tracker m) p chs); [done|].
          intros c. by apply over_limit_pruned. }
      fold (pruned_keys t (sent_alerts_tracker m) p chs).
      destruct (decide (key ∈ pruned_keys t (sent_alerts_tracker m) p chs))
        as [Hin|Hin].
      * rewrite Hview. rewrite decide_True; [done|]. apply Hcons. by right.
      * rewrite Hkey.
        destruct (decide (has_limit ch p = true ∧ key = tracker_key ch p))
          as [Hk|Hk].
        -- rewrite decide_True; [done|]. apply Hcons. by left.
        -- rewrite decide_False; [done|]. intros [?|?]%Hcons; done.
Qed.

(** C4 (as amended). The rate-limit check rejects an alert exactly when
    one of its target channels has, for the priority of the alert, a
    non-zero [max_per_hour] met by the sends of the last hour recorded
    under the channel's key, or a non-zero [max_per_minute] met by those
    of the last minute.  A rejected alert is dropped whole: no channel
    receives it and neither queue nor history change.  A channel whose
    limits are absent or zero imposes none.  The check never adds a
    timestamp to the tracker, and it prunes to the last hour the lists of
    exactly these keys: those of the target channels that have a non-zero limit and
    that the loop gets to, which are all target channels when the alert
    is accepted and those up to the first channel at its limit when it is
    rejected.  Every other list is left as it was; in particular the key
    of a channel without a non-zero limit is never pruned, be the channel
    a target or not. *)
Theorem rate_limit_rejects_whole_alert (r : ref) (m : AlertManager) :
  let a := store m !!! r in
  let p := priority a in
  let tr := sent_alerts_tracker m in
  let tr' := sent_alerts_tracker (final (check_rate_limit r) m) in
  let fresh_only := filter (λ ts, clock m - Time.hours 1 < ts) in
  let reached := reached_channels (clock m) tr p (channels a) in
  (result (check_rate_limit r) m = false ↔
   ∃ ch v, ch ∈ channels a ∧ v ≠ 0 ∧
     ((max_per_hour (limits_of ch p) = Some v ∧
       v ≤ sends_since tr (tracker_key ch p) (clock m - Time.hours 1)) ∨
      (max_per_minute (limits_of ch p) = Some v ∧
       v ≤ sends_since tr (tracker_key ch p) (clock m - Time.minutes 1)))) ∧
  (result (check_rate_limit r) m = false →
   events (process_alert r) m = [EvRateCheck r false; EvLog DEBUG (id a)] ∧
   alert_queue (final (process_alert r) m) = alert_queue m ∧
   alert_history (final (process_alert r) m) = alert_history m) ∧
  (∀ ch, has_limit ch p = false → over_limit (clock m) tr p ch = false) ∧
  (∀ key, tr' !!! key = tr !!! key ∨
          tr' !!! key = filter (λ ts, clock m - Time.hours 1 < ts) (tr !!! key)) ∧
  (result (check_rate_limit r) m = true →
   ∀ ch ts, ch ∈ channels a → has_limit ch p = true →
            ts ∈ tr' !!! tracker_key ch p → clock m - Time.hours 1 < ts) ∧
  (∀ key, key ∈ pruned_keys (clock m) tr p (channels a) ↔
          ∃ ch, ch ∈ reached ∧ has_limit ch p = true ∧
                key = tracker_key ch p) ∧
  (∀ key,
     tr' !!! key
     = if decide (key ∈ pruned_keys (clock m) tr p (channels a))
       then fresh_only (tr !!! key) else tr !!! key) ∧
  (∀ ch, ch ∈ reached → has_limit ch p = true →
         tr' !!! tracker_key ch p = fresh_only (tr !!! tracker_key ch p)) ∧
  (∀ ch, has_limit ch p = false →
         tr' !!! tracker_key ch p = tr !!! tracker_key ch p) ∧
  (∀ ch, ch ∉ reached → tr' !!! tracker_key ch p = tr !!! tracker_key ch p) ∧
  (result (check_rate_limit r) m = true → reached = channels a) ∧
  (result (check_rate_limit r) m = false →
   ∃ before ch after,
     channels a = before ++ ch :: after ∧
     (∀ ch', ch' ∈ before → over_limit (clock m) tr p ch' = false) ∧
     over_limit (clock m) tr p ch = true ∧
     reached = before ++ [ch]).
Proof.
  cbn zeta.
  assert (∀ key,
            sent_alerts_tracker (final (check_rate_limit r) m) !!! key
            = if decide (key ∈ pruned_keys (clock m) (sent_alerts_tracker m)
                                 (priority (store m !!! r))
                                 (channels (store m !!! r)))
              then filter (λ ts, clock m - Time.hours 1 < ts)
                          (sent_alerts_tracker m !!! key)
              else sent_alerts_tracker m !!! key) as Hexact.
  { intros key. unfold check_rate_limit. autorewrite with run.
    apply check_rate_limit_loop_tracker. }
  assert (result (check_rate_limit r) m
          = result (check_rate_limit_loop (clock m) (priority (store m !!! r))
                      (channels (store m !!! r))) m) as Hres
    by (unfold check_rate_limit; by autorewrite with run).
  assert (final (check_rate_limit r) m
          = final (check_rate_limit_loop (clock m) (priority (store m !!! r))
                     (channels (store m !!! r))) m) as Hfin
    by (unfold check_rate_limit; by autorewrite with run).
  destruct (check_rate_limit_loop_spec (clock m) (priority (store m !!! r))
              (channels (store m !!! r)) m) as (Hspec & Hkeys & Hpruned).
  rewrite Hres. rewrite Hfin in Hexact |- *.
  split; [|split; [|split; [|split; [|split]]]].
  - rewrite Hspec, negb_false_iff, existsb_exists. split.
    + intros (ch & Hin%list_elem_of_In & (v & ?)%over_limit_true).
      by exists ch, v.
    + intros (ch & v & Hin%list_elem_of_In & Hv). exists ch.
      split; [done|]. apply over_limit_true. by exists v.
  - intros Hrej. pose proof (process_alert_by_outcome r m) as H.
    cbn zeta in H. unfold outcome in H. rewrite Hres, Hrej in H. tauto.
  - intros ch. apply no_limit_not_over.
  - done.
  - intros Hok ch ts Hin Hlim. rewrite (Hpruned Hok ch Hin Hlim).
    by intros [? _]%list_elem_of_filter.
  - split; [intros key; apply pruned_keys_elem|].
    split; [exact Hexact|]. split; [|split; [|split; [|split]]].
    + intros ch Hin Hlim. rewrite Hexact, decide_True; [done|].
      apply pruned_keys_elem. by exists ch.
    + intros ch Hlim. rewrite Hexact, decide_False; [done|].
      intros (ch' & _ & Hlim' & Hkey)%pruned_keys_elem.
      apply tracker_key_inj in Hkey. congruence.
    + intros ch Hout. rewrite Hexact, decide_False; [done|].
      intros (ch' & Hin & _ & Hkey)%pruned_keys_elem.
      apply tracker_key_inj in Hkey. congruence.
    + rewrite Hspec, negb_true_iff. apply reached_channels_all.
    + rewrite Hspec, negb_false_iff. apply reached_channels_stop.
Qed.

(** *** Identifiers *)

Lemma title_of_length_length n : String.length (title_of_length n) = n.
Proof. induction n; simpl; congruence. Qed.

(** Titles whose hashes agree modulo 10000 get the same identifier when
    created within the same second. *)
Lemma alert_id_same_second t1 t2 title1 title2 :
  t1 / 1000000 = t2 / 1000000 →
  hash title1 mod 10000 = hash title2 mod 10000 →
  alert_id t1 title1 = alert_id t2 title2.
Proof.
  intros Ht Hh. unfold alert_id, Time.strftime. by rewrite Ht, Hh.
Qed.

(** C3 (not met by the code). Whatever the hash function, there are two
    distinct titles such that two successive [create_alert] calls with
    them return the same identifier: the identifier is made of the second
    of creation and of the hash of the title modulo 10000, and among 10001
    titles two have the same residue. *)
Theorem alert_ids_collide :
  ∃ title1 title2, title1 ≠ title2 ∧
    ∀ message symbol p chs md m,
      available_channels p chs m ≠ [] →
      ∃ i,
        result (create_alert title1 message symbol p chs md) m = Some i ∧
        result (create_alert title2 message symbol p chs md)
               (final (create_alert title1 message symbol p chs md) m)
        = Some i.
Proof.
  destruct (nat_pigeonhole
              (λ n, Z.to_nat (hash (title_of_length n) mod 10000))
              (S (Z.to_nat 10000)) (Z.to_nat 10000))
    as (n1 & n2 & Hlt & Heq); [lia| |].
  { intros n _. pose proof (Z.mod_pos_bound (hash (title_of_length n)) 10000).
    lia. }
  exists (title_of_length n1), (title_of_length n2). split.
  - intros Heq'%(f_equal String.length).
    rewrite !title_of_length_length in Heq'. lia.
  - intros message symbol p chs md m Hav.
    exists (alert_id (clock m) (title_of_length n1)).
    unfold result, final.
    rewrite (create_alert_run (title_of_length n1)).
    destruct (available_channels p chs m) as [|ch l] eqn:Hav'; [done|].
    cbn [fst snd]. split; [done|]. rewrite create_alert_run.
    unfold available_channels, resolved_channels in *.
    cbn [mgr_channels set_alert_queue set_store clock]. rewrite Hav'.
    cbn [fst snd]. f_equal. apply alert_id_same_second; [done|].
    pose proof (Z.mod_pos_bound (hash (title_of_length n1)) 10000).
    pose proof (Z.mod_pos_bound (hash (title_of_length n2)) 10000).
    lia.
Qed.

(** *** Outcomes of the sends *)

(** For an alert that is not CRITICAL the fan-out changes nothing in the
    manager, whatever the channels answer. *)
Lemma send_loop_non_critical r tasks m :
  priority (store m !!! r) ≠ CRITICAL →
  final (send_loop r tasks) m = m.
Proof.
  intros Hp. induction tasks as [|ch tasks IH]; [done|].
  cbn [send_loop]. autorewrite with run.
  rewrite bool_decide_eq_false_2 by done. cbn [andb].
  destruct (send_alert ch (store m !!! r) (clock m)); by autorewrite with run.
Qed.

End Properties.

(** ** What the stored alert tells about the deliveries *)

(** C8 (as amended). An alert carries no per-channel ledger.  After the
    fan-out the stored alert is the alert as it came in with [sent] set and
    some retry counter, and it enters the history in the same step,
    whether or not a retry has been queued.  Two channel behaviours give
    the same history, and for an alert that is not CRITICAL the same
    manager altogether: the outcome of a send is logged and otherwise
    lost. *)
Theorem delivery_outcomes_leave_no_record (config : Config)
    (priority_value : AlertPriority → string)
    (send1 send2 : string → Alert → datetime → bool)
    (r : ref) (m : AlertManager) (a : Alert) :
  store m !! r = Some a →
  outcome config priority_value r m = Dispatched →
  let m1 := final (process_alert config priority_value send1 r) m in
  let m2 := final (process_alert config priority_value send2 r) m in
  (∃ n, store m1 !! r = Some (set_sent true (set_retry_count n a))) ∧
  alert_history m1 = trim_history config (alert_history m ++ [r]) ∧
  alert_history m2 = alert_history m1 ∧
  (priority a ≠ CRITICAL → m2 = m1).
Proof.
  intros Ha Hout m1 m2. subst m1 m2.
  destruct (process_alert_dispatched_fields config priority_value send1
              r m a Ha Hout) as (Hs1 & Hh1 & _).
  destruct (process_alert_dispatched_fields config priority_value send2
              r m a Ha Hout) as (_ & Hh2 & _).
  split; [done|]. split; [done|]. split; [by rewrite Hh1, Hh2|].
  intros Hp.
  rewrite (proj1 (process_alert_dispatched config priority_value send1
                    r m Hout)).
  rewrite (proj1 (process_alert_dispatched config priority_value send2
                    r m Hout)).
  unfold after_fanout.
  assert (priority (store (after_admission config priority_value r m) !!! r)
          ≠ CRITICAL) as Hp'.
  { unfold after_admission.
    destruct (check_rate_limit_frame config priority_value r m)
      as [[_ _ _ _ Hst _] _].
    destruct (is_duplicate_frame config r
                (final (check_rate_limit config priority_value r) m))
      as [[_ _ _ _ Hst' _] _].
    by rewrite Hst', Hst, (lookup_total_correct _ _ _ Ha). }
  by rewrite !send_loop_non_critical.
Qed.

Lemma no_delivery_ledger : ¬ ∃ ledger, ledger_records_outcomes ledger.
Proof.
  intros [ledger H].
  assert (ledger (store (final (process_alert ex_config ex_priority_value
                                  ex_send_ok 0) (ex_created ex_config LOW))
                    !!! 0%nat) "telegram" = Some Delivered) as Hok.
  { apply (H ex_config ex_priority_value ex_send_ok 0%nat
             (ex_created ex_config LOW) "telegram" true).
    apply (list_elem_of_lookup_2 _ 2%nat). vm_compute. reflexivity. }
  assert (ledger (store (final (process_alert ex_config ex_priority_value
                                  ex_send_fail 0) (ex_created ex_config LOW))
                    !!! 0%nat) "telegram" = Some Failed) as Hfail.
  { apply (H ex_config ex_priority_value ex_send_fail 0%nat
             (ex_created ex_config LOW) "telegram" false).
    apply (list_elem_of_lookup_2 _ 2%nat). vm_compute. reflexivity. }
  assert (store (final (process_alert ex_config ex_priority_value
                          ex_send_fail 0) (ex_created ex_config LOW)) !!! 0%nat
          = store (final (process_alert ex_config ex_priority_value
                            ex_send_ok 0) (ex_created ex_config LOW)) !!! 0%nat)
    as Hsame by (vm_compute; reflexivity).
  rewrite Hsame, Hok in Hfail. discriminate Hfail.
Qed.

Lemma delivery_outcomes_leave_no_record_witness :
  EvPut 0%nat ∈ events (process_alert ex_config ex_priority_value
                          ex_send_fail 0) (ex_taken ex_config CRITICAL) ∧
  alert_history (final (process_alert ex_config ex_priority_value
                          ex_send_ok 0) (ex_taken ex_config CRITICAL))
  = [0%nat] ∧
  alert_history (final (process_alert ex_config ex_priority_value
                          ex_send_fail 0) (ex_taken ex_config CRITICAL))
  = alert_history (final (process_alert ex_config ex_priority_value
                            ex_send_ok 0) (ex_taken ex_config CRITICAL)).
Proof.
  destruct (delivery_outcomes_leave_no_record ex_config ex_priority_value
              ex_send_ok ex_send_fail 0%nat (ex_taken ex_config CRITICAL)
              (store (ex_taken ex_config CRITICAL) !!! 0%nat))
    as (_ & Hh1 & Hh2 & _).
  - vm_compute. reflexivity.
  - vm_compute. reflexivity.
  - split; [|split].
    + apply (list_elem_of_lookup_2 _ 5%nat). vm_compute. reflexivity.
    + rewrite Hh1. vm_compute. reflexivity.
    + exact Hh2.
Defined.

(** ** The claims on concrete runs *)

Lemma admitted_alert_recorded_witness :
  sent <$> store (ex_taken ex_config CRITICAL) !! 0%nat = Some false ∧
  sent <$> store (final (process_alert ex_config ex_priority_value
                           ex_send_fail 0) (ex_taken ex_config CRITICAL))
           !! 0%nat
  = Some true ∧
  (∃ n, store (final (process_alert ex_config ex_priority_value ex_send_fail 0)
                 (ex_taken ex_config CRITICAL)) !! 0%nat
        = Some (set_sent true
                  (set_retry_count n
                     (store (ex_taken ex_config CRITICAL) !!! 0%nat)))) ∧
  total_alerts_sent (final (process_alert ex_config ex_priority_value
                              ex_send_fail 0) (ex_taken ex_config CRITICAL))
  = 1 ∧
  sent_alerts_tracker (final (process_alert ex_config ex_priority_value
                                ex_send_fail 0) (ex_taken ex_config CRITICAL))
    !!! "telegram_critical"
  = [ex_t0 + Time.seconds 2].
Proof.
  destruct (admitted_alert_recorded_whatever_the_outcome ex_config
              ex_priority_value ex_send_fail 0%nat
              (ex_taken ex_config CRITICAL)
              (store (ex_taken ex_config CRITICAL) !!! 0%nat))
    as ((a' & Ha' & Hsent & _) & Hs & _ & Ht & Hk).
  - vm_compute. reflexivity.
  - vm_compute. reflexivity.
  - split; [vm_compute; reflexivity|].
    split; [rewrite Ha'; cbn [fmap option_fmap option_map]; by rewrite Hsent|].
    split; [exact Hs|]. split.
    + rewrite Ht. vm_compute. reflexivity.
    + rewrite Hk. vm_compute. reflexivity.
Defined.

Lemma no_channels_nothing_enqueued_witness :
  available_channels ex_config HIGH (Some ["sms"]) ex_m0 = [] ∧
  result (create_alert ex_config ex_hash "Price Spike" "BTC +5%" "BTCUSDT"
                       HIGH (Some ["sms"]) None) ex_m0 = None ∧
  final (create_alert ex_config ex_hash "Price Spike" "BTC +5%" "BTCUSDT"
                      HIGH (Some ["sms"]) None) ex_m0 = ex_m0.
Proof.
  split; [vm_compute; reflexivity|].
  destruct (proj1 (no_channels_nothing_enqueued ex_config ex_priority_value
                     ex_hash ex_send_ok unit ex_check)
              "Price Spike" "BTC +5%" "BTCUSDT" HIGH (Some ["sms"]) None ex_m0)
    as (Hres & Hfin & _).
  - vm_compute. reflexivity.
  - split; [exact Hres | exact Hfin].
Defined.

Lemma dedup_store_never_expires_witness :
  duplicate_window ex_config
  < clock ex_repeated - clock (ex_taken ex_config HIGH) ∧
  result (is_duplicate ex_config 1) ex_repeated = true ∧
  outcome ex_config ex_priority_value 1 ex_repeated ≠ Dispatched.
Proof.
  split; [vm_compute; reflexivity|].
  apply (dedup_store_never_expires ex_config ex_priority_value ex_hash
           ex_send_ok unit ex_check 0%nat 1%nat
           (store (ex_taken ex_config HIGH) !!! 0%nat)
           (store ex_repeated !!! 1%nat)
           (ex_taken ex_config HIGH) ex_repeated).
  - vm_compute. reflexivity.
  - vm_compute. discriminate.
  - unfold ex_repeated.
    eapply rtc_l.
    + apply (step_time ex_config ex_priority_value ex_hash ex_send_ok unit
               ex_check (Time.minutes 6)).
      vm_compute. discriminate.
    + apply rtc_once. apply step_create.
  - vm_compute. reflexivity.
  - vm_compute. reflexivity.
  - vm_compute. reflexivity.
Defined.

Lemma critical_retry_never_resends_witness :
  events (process_alert ex_config ex_priority_value ex_send_fail 0)
         (ex_taken ex_config CRITICAL)
  = [EvRateCheck 0 true; EvDupCheck 0 false; EvSend "telegram" 0 false;
     EvLog ERROR "telegram"; EvSleep 2; EvPut 0] ∧
  outcome ex_config ex_priority_value 0
    (final (process_alert ex_config ex_priority_value ex_send_fail 0)
       (ex_taken ex_config CRITICAL))
  ≠ Dispatched.
Proof.
  destruct (critical_retry_never_resends ex_config ex_priority_value ex_hash
              ex_send_fail unit ex_check 0%nat
              (store (ex_taken ex_config CRITICAL) !!! 0%nat) "telegram"
              (ex_taken ex_config CRITICAL))
    as [Hfirst Hlater].
  - vm_compute. reflexivity.
  - vm_compute. reflexivity.
  - vm_compute. reflexivity.
  - vm_compute. reflexivity.
  - vm_compute. left.
  - intros alert t. reflexivity.
  - vm_compute. reflexivity.
  - split; [exact Hfirst|]. apply Hlater. apply rtc_refl.
Defined.

(** The whole run of the retry scenario makes one send attempt. *)
Lemma critical_retry_run_sends_once :
  List.filter is_send (events ex_retry_run ex_m0)
  = [EvSend "telegram" 0 false] ∧
  alert_queue (final ex_retry_run ex_m0) = [] ∧
  retry_count <$> store (final ex_retry_run ex_m0) !! 0%nat = Some 1.
Proof. vm_compute. repeat split. Qed.

Lemma alert_ids_collide_witness :
  ∃ title1 title2, title1 ≠ title2 ∧
    ∃ i,
      result (create_alert ex_config ex_hash title1 "BTC +5%" "BTCUSDT" HIGH
                           None None) ex_m0 = Some i ∧
      result (create_alert ex_config ex_hash title2 "BTC +5%" "BTCUSDT" HIGH
                           None None)
             (final (create_alert ex_config ex_hash title1 "BTC +5%"
                                  "BTCUSDT" HIGH None None) ex_m0)
      = Some i.
Proof.
  destruct (alert_ids_collide ex_config ex_hash)
    as (title1 & title2 & Hne & Hsame).
  exists title1, title2. split; [exact Hne|].
  apply Hsame. vm_compute. discriminate.
Defined.

Lemma history_exceeds_size_zero_witness :
  max_history_size ex_config_size0 = 0 ∧
  alert_history (final (process_alert ex_config_size0 ex_priority_value
                          ex_send_ok 0) (ex_taken ex_config_size0 HIGH))
  = [0%nat] ∧
  max_history_size ex_config_size0
  < Z.of_nat (length (alert_history
                        (final (process_alert ex_config_size0
                                  ex_priority_value ex_send_ok 0)
                           (ex_taken ex_config_size0 HIGH)))).
Proof.
  split; [reflexivity|].
  apply (history_exceeds_size_zero ex_config_size0 ex_priority_value
           ex_send_ok 0%nat (ex_taken ex_config_size0 HIGH)).
  - reflexivity.
  - vm_compute. reflexivity.
Defined.


(** The rate-limit scenario of the spec: with [max_per_minute = 2] the
    third alert of the same second is rejected and nothing is sent. *)
Lemma rate_limit_rejects_whole_alert_witness :
  result (check_rate_limit ex_config_limit2 ex_priority_value 2)
         ex_third_taken = false ∧
  events (process_alert ex_config_limit2 ex_priority_value ex_send_ok 2)
         ex_third_taken
  = [EvRateCheck 2 false; EvLog DEBUG (id (store ex_third_taken !!! 2%nat))] ∧
  alert_history (final (process_alert ex_config_limit2 ex_priority_value
                          ex_send_ok 2) ex_third_taken)
  = [0%nat; 1%nat].
Proof.
  destruct (rate_limit_rejects_whole_alert ex_config_limit2 ex_priority_value
              ex_send_ok 2%nat ex_third_taken) as (_ & Hrej & _).
  assert (result (check_rate_limit ex_config_limit2 ex_priority_value 2)
            ex_third_taken = false) as Hfalse by (vm_compute; reflexivity).
  destruct (Hrej Hfalse) as (Hev & _ & Hh).
  split; [exact Hfalse|]. split; [exact Hev|].
  rewrite Hh. vm_compute. reflexivity.
Defined.

(** The claim as worded fails twice: a configured maximum of 0 is met by
    a count of 0, yet the alert passes; and a channel without limits keeps
    a timestamp that is two hours old through the check. *)
Lemma rate_limit_claim_fails_as_stated :
  ¬ suppression_as_stated ex_config_limit0 ex_priority_value 0
      (ex_taken ex_config_limit0 CRITICAL) ∧
  ¬ pruning_as_stated ex_config ex_priority_value 1 ex_stale.
Proof.
  split.
  - intros H.
    assert (result (check_rate_limit ex_config_limit0 ex_priority_value 0)
              (ex_taken ex_config_limit0 CRITICAL) = false) as Hr.
    { apply H. exists "telegram". split; [vm_compute; left|].
      left. exists 0. split; [vm_compute; reflexivity|].
      vm_compute. discriminate. }
    vm_compute in Hr. discriminate Hr.
  - intros H.
    assert (clock ex_stale - Time.hours 1 ≤ ex_t0) as Hle.
    { apply (H "telegram").
      - vm_compute. left.
      - vm_compute. left. }
    vm_compute in Hle. apply Hle. reflexivity.
Qed.

(** ** Further properties of the manager *)

Section FurtherProperties.

#[local] Set Default Proof Using "Type".

Variable config : Config.
Variable priority_value : AlertPriority → string.
Variable hash : string → Z.
Variable send_alert : string → Alert → datetime → bool.
Variable MarketData : Type.
Variable check : string → MarketData → datetime → CheckResult.

Local Abbreviation duplicate_window := (duplicate_window config).
Local Abbreviation tracker_key := (tracker_key priority_value).
Local Abbreviation check_channel := (check_channel config priority_value).
Local Abbreviation check_rate_limit_loop :=
  (check_rate_limit_loop config priority_value).
Local Abbreviation check_rate_limit := (check_rate_limit config priority_value).
Local Abbreviation track_sent_alert_loop :=
  (track_sent_alert_loop priority_value).
Local Abbreviation track_sent_alert := (track_sent_alert priority_value).
Local Abbreviation is_duplicate := (is_duplicate config).
Local Abbreviation cleanup_history := (cleanup_history config).
Local Abbreviation send_loop := (send_loop send_alert).
Local Abbreviation process_alert :=
  (process_alert config priority_value send_alert).
Local Abbreviation create_alert := (create_alert config hash).
Local Abbreviation create_alert_kw := (create_alert_kw config hash).
Local Abbreviation check_triggers_loop :=
  (check_triggers_loop config hash MarketData check).
Local Abbreviation check_triggers :=
  (check_triggers config hash MarketData check).
Local Abbreviation alert_worker_step :=
  (alert_worker_step config priority_value send_alert).
Local Abbreviation alert_worker :=
  (alert_worker config priority_value send_alert).
Local Abbreviation after_admission := (after_admission config priority_value).
Local Abbreviation after_fanout :=
  (after_fanout config priority_value send_alert).
Local Abbreviation key_count := (key_count priority_value).
Local Abbreviation trim_history := (trim_history config).
Local Abbreviation outcome := (outcome config priority_value).
Local Abbreviation limits_of := (limits_of config).
Local Abbreviation has_limit := (has_limit config).
Local Abbreviation over_limit := (over_limit config priority_value).
Local Abbreviation reached_channels :=
  (reached_channels config priority_value).
Local Abbreviation pruned_keys := (pruned_keys config priority_value).
Local Abbreviation resolved_channels := (resolved_channels config).
Local Abbreviation available_channels := (available_channels config).
Local Abbreviation alert_id := (alert_id hash).
Local Abbreviation new_alert := (new_alert config hash).
Local Abbreviation step :=
  (step config priority_value hash send_alert MarketData check).

(** *** Fan-out, send by send *)

Lemma sent_on_app es1 es2 : sent_on (es1 ++ es2) = sent_on es1 ++ sent_on es2.
Proof. apply omap_app. Qed.

Lemma enqueued_app es1 es2 :
  enqueued (es1 ++ es2) = enqueued es1 ++ enqueued es2.
Proof. apply omap_app. Qed.

Lemma sleeps_app es1 es2 : sleeps (es1 ++ es2) = sleeps es1 ++ sleeps es2.
Proof. apply omap_app. Qed.

Lemma processed_app es1 es2 :
  processed (es1 ++ es2) = processed es1 ++ processed es2.
Proof. apply omap_app. Qed.

(** One send per task, in order, whatever the sends do. *)
Lemma send_loop_sent_on r tasks m :
  sent_on (events (send_loop r tasks) m) = tasks.
Proof.
  revert m. induction tasks as [|ch tasks IH]; intros m; [done|].
  cbn [send_loop]. autorewrite with run. rewrite !sent_on_app, IH.
  destruct (send_alert ch (store m !!! r) (clock m)); autorewrite with run.
  - done.
  - rewrite !sent_on_app.
    destruct (bool_decide _ && _); autorewrite with run; done.
Qed.

Lemma backoff_shift (c : Z) (k : nat) :
  (λ i, 2 ^ (c + 1 + Z.of_nat i)) <$> seq 1 k
  = (λ i, 2 ^ (c + Z.of_nat i)) <$> seq 2 k.
Proof.
  rewrite <- (fmap_S_seq 1), <- list_fmap_compose.
  apply list_fmap_ext. intros i x _. cbn. f_equal. lia.
Qed.

(** The retries of one fan-out: [k] failures of a CRITICAL alert below
    the bound raise the counter by [k], put the alert back [k] times and
    sleep [2^(c+1)], ..., [2^(c+k)] seconds, where [c] is the counter at
    the start. *)
Lemma send_loop_retries r tasks m a :
  store m !! r = Some a →
  ∃ k : nat,
    store (final (send_loop r tasks) m)
    = alter (set_retry_count (retry_count a + Z.of_nat k)) r (store m) ∧
    alert_queue (final (send_loop r tasks) m)
    = alert_queue m ++ replicate k r ∧
    enqueued (events (send_loop r tasks) m) = replicate k r ∧
    sleeps (events (send_loop r tasks) m)
    = (λ i, 2 ^ (retry_count a + Z.of_nat i)) <$> seq 1 k ∧
    clock m ≤ clock (final (send_loop r tasks) m) ∧
    (k = 0%nat ∨ priority a = CRITICAL ∧ retry_count a + Z.of_nat k ≤ 3) ∧
    (k ≤ length tasks)%nat.
Proof.
  revert m a. induction tasks as [|ch tasks IH]; intros m a Ha.
  - exists 0%nat. simpl. rewrite Z.add_0_r, app_nil_r.
    rewrite <- (lookup_total_correct _ _ _ Ha) at 1.
    rewrite set_retry_count_same. repeat split; try done. by left.
  - cbn [send_loop]. autorewrite with run.
    rewrite (lookup_total_correct _ _ _ Ha).
    destruct (send_alert ch a (clock m)) eqn:Hsend; autorewrite with run.
    { destruct (IH m a Ha) as (k & Hs & Hq & He & Hsl & Hc & Hb & Hk).
      exists k. rewrite !enqueued_app, !sleeps_app, He, Hsl.
      repeat split; try done. simpl. lia. }
    destruct (bool_decide (priority a = CRITICAL) && (retry_count a <? 3))
      eqn:Hretry; autorewrite with run.
    2:{ destruct (IH m a Ha) as (k & Hs & Hq & He & Hsl & Hc & Hb & Hk).
        exists k. rewrite !enqueued_app, !sleeps_app, He, Hsl.
        repeat split; try done. simpl. lia. }
    apply andb_true_iff in Hretry as [Hp%bool_decide_eq_true Hlt%Z.ltb_lt].
    cbn [store set_store]. rewrite lookup_total_alter_eq, Ha. cbn [fmap option_fmap option_map default retry_count set_retry_count].
    cbn [Datatypes.id].
    match goal with |- context [final (send_loop r tasks) ?mm] =>
      set (m1 := mm) end.
    assert (store m1 !! r = Some (set_retry_count (retry_count a + 1) a))
      as Ha1 by (unfold m1; cbn [store set_alert_queue set_clock set_store];
                 by rewrite lookup_alter_eq, Ha).
    destruct (IH m1 _ Ha1) as (k & Hs & Hq & He & Hsl & Hc & Hb & Hk).
    cbn [retry_count set_retry_count] in *.
    assert (clock m ≤ clock (final (send_loop r tasks) m1)) as Hclock.
    { etransitivity; [|exact Hc]. unfold m1.
      cbn [clock set_alert_queue set_clock set_store].
      assert (0 ≤ 2 ^ (retry_count a + 1)) by (apply Z.pow_nonneg; lia).
      unfold Time.seconds. lia. }
    exists (S k). rewrite !enqueued_app, !sleeps_app, He, Hsl, Hs, Hq.
    split; [|split; [|split; [|split; [|split; [|split]]]]].
    + unfold m1. cbn [store set_alert_queue set_clock set_store].
      rewrite set_retry_count_twice. f_equal. f_equal. lia.
    + unfold m1. cbn [alert_queue set_alert_queue set_clock set_store].
      rewrite <- app_assoc. done.
    + done.
    + rewrite backoff_shift. cbn -[Z.pow Z.add seq Z.of_nat].
      cbn [seq fmap list_fmap]. f_equal.
    + exact Hclock.
    + right. split; [done|]. destruct Hb as [->|[_ ?]]; lia.
    + simpl. lia.
Qed.

(** *** One dispatch in detail *)

Lemma process_alert_dispatched_detail r m a :
  store m !! r = Some a →
  outcome r m = Dispatched →
  ∃ k : nat,
    store (final (process_alert r) m)
    = alter (set_sent true) r
        (alter (set_retry_count (retry_count a + Z.of_nat k)) r (store m)) ∧
    alert_queue (final (process_alert r) m)
    = alert_queue m ++ replicate k r ∧
    enqueued (events (process_alert r) m) = replicate k r ∧
    sleeps (events (process_alert r) m)
    = (λ i, 2 ^ (retry_count a + Z.of_nat i)) <$> seq 1 k ∧
    clock m ≤ clock (final (process_alert r) m) ∧
    (k = 0%nat ∨ priority a = CRITICAL ∧ retry_count a + Z.of_nat k ≤ 3) ∧
    (k ≤ length (send_tasks r m))%nat ∧
    recent_alerts (final (process_alert r) m)
    = {[alert_hash a]} ∪ recent_alerts m ∧
    alert_hash a ∉ recent_alerts m.
Proof.
  intros Ha Hout.
  destruct (process_alert_dispatched config priority_value send_alert r m Hout)
    as [Hfin Hev]. cbn zeta in Hfin.
  destruct (check_rate_limit_frame config priority_value r m)
    as [[_ Hq1 _ Hr1 Hs1 Hc1] _].
  destruct (is_duplicate_frame config r (final (check_rate_limit r) m))
    as [[_ Hq2 _ _ Hs2 Hc2] _].
  pose proof (is_duplicate_recent config r (final (check_rate_limit r) m))
    as Hr2.
  rewrite Hs1, Hr1, (lookup_total_correct _ _ _ Ha) in Hr2.
  assert (alert_hash a ∉ recent_alerts m) as Hnew.
  { unfold outcome in Hout.
    destruct (result (check_rate_limit r) m); [|done].
    destruct (result (is_duplicate r) _) eqn:Hdup; [done|].
    rewrite is_duplicate_result, Hs1, Hr1, (lookup_total_correct _ _ _ Ha)
      in Hdup.
    by apply bool_decide_eq_false in Hdup. }
  assert (store (after_admission r m) !! r = Some a) as Ha2
    by (unfold after_admission; by rewrite Hs2, Hs1).
  destruct (send_loop_retries r (send_tasks r m) (after_admission r m) a Ha2)
    as (k & Hs3 & Hq3 & He3 & Hsl3 & Hc3 & Hb & Hk).
  fold (after_fanout r m) in Hs3, Hq3, Hc3.
  destruct (send_loop_frame send_alert r (send_tasks r m) (after_admission r m))
    as ([_ _ _ Hr3] & _).
  fold (after_fanout r m) in Hr3.
  exists k. rewrite Hfin, Hev, final_cleanup_history, final_update.
  match goal with |- context [final (track_sent_alert r) ?m4] =>
    destruct (track_sent_alert_frame priority_value r m4)
      as [[_ Hq5 _ Hr5 Hs5 Hc5] _];
    set (m5 := final (track_sent_alert r) m4) in * end.
  cbn [store alert_queue clock recent_alerts set_alert_history set_store] in *.
  rewrite Hs5, Hq5, Hc5, Hr5, Hs3, Hq3, Hr3.
  unfold after_admission in *. rewrite Hs2, Hs1, Hq2, Hq1, Hr2.
  repeat split; try done.
  lia.
Qed.

(** *** What holds from construction on *)

Lemma trim_history_is_drop history :
  ∃ n, trim_history history = drop n history.
Proof.
  unfold trim_history, slice_from. destruct (_ <? Z.of_nat _).
  - by eexists.
  - by exists 0%nat.
Qed.

Lemma sound_init channel_names trigger_names t0 :
  sound (init channel_names trigger_names t0).
Proof.
  split; try done.
  - by intros r ?%elem_of_nil.
  - by intros r ?%elem_of_nil.
  - constructor.
Qed.

Lemma history_keys_ext m m' :
  alert_history m' = alert_history m →
  (∀ r, r ∈ alert_history m →
        alert_hash (store m' !!! r) = alert_hash (store m !!! r)) →
  history_keys m' = history_keys m.
Proof.
  unfold history_keys. intros -> Hext. apply list_fmap_ext.
  intros i r Hr. apply Hext. by eapply list_elem_of_lookup_2.
Qed.

Lemma create_alert_sound title message symbol p chs md m :
  sound m → sound (final (create_alert title message symbol p chs md) m).
Proof.
  intros Hsound.
  pose proof (create_alert_queue_wf config hash title message symbol p chs md m
                (sound_queue _ Hsound)) as Hqwf.
  revert Hqwf. unfold final. rewrite create_alert_run. unfold new_alert.
  destruct (available_channels p chs m) as [|ch l] eqn:Hav; [done|].
  cbn [fst snd]. intros Hqwf. destruct Hsound as [_ Ht Hr Hh Hk].
  assert (∀ r a, store m !! r = Some a → r ≠ fresh (dom (store m))) as Hfresh.
  { intros r a Ha ->. apply (is_fresh (dom (store m))).
    apply elem_of_dom. eauto. }
  split; [done|..];
    cbn [store alert_history recent_alerts mgr_channels set_alert_queue
         set_store].
  - intros r a. destruct (decide (r = fresh (dom (store m)))) as [->|Hne].
    + rewrite lookup_insert_eq. intros [= <-]. cbn [channels].
      split; [done|]. intros c. rewrite <- Hav. unfold available_channels.
      by intros [? _]%list_elem_of_filter.
    + rewrite lookup_insert_ne by done. apply Ht.
  - intros r a. destruct (decide (r = fresh (dom (store m)))) as [->|Hne].
    + rewrite lookup_insert_eq. intros [= <-]. cbn [retry_count priority].
      split; [lia|done].
    + rewrite lookup_insert_ne by done. apply Hr.
  - intros r Hin. destruct (Hh r Hin) as (a & Ha & Hsent & Hrec).
    exists a. rewrite lookup_insert_ne by (symmetry; eauto). done.
  - erewrite history_keys_ext; [exact Hk|done|].
    intros r Hin. destruct (Hh r Hin) as (a & Ha & _).
    cbn [store set_alert_queue set_store].
    rewrite lookup_total_insert_ne by (symmetry; eauto). done.
Qed.

Lemma process_alert_sound r m a :
  store m !! r = Some a →
  channels a ≠ [] →
  sound m → sound (final (process_alert r) m).
Proof.
  intros Ha Hch Hsound.
  pose proof (process_alert_queue_wf config priority_value send_alert r m
                (ex_intro _ a (conj Ha Hch)) (sound_queue _ Hsound)) as Hqwf.
  destruct (process_alert_fields config priority_value send_alert r m)
    as ([Hreg _] & _ & _ & Hrec & _).
  pose proof (process_alert_history config priority_value send_alert r m)
    as Hhist.
  destruct Hsound as [_ Ht Hr Hh Hk].
  destruct (outcome r m) eqn:Hout.
  - (* rate limited *)
    pose proof (process_alert_by_outcome config priority_value send_alert r m)
      as H. cbn zeta in H. rewrite Hout in H.
    destruct H as (_ & _ & _ & Hs & Hre).
    split; [done|..]; rewrite ?Hs, ?Hreg, ?Hhist, ?Hre; try done.
    apply history_keys_ext in Hhist; [by rewrite Hhist|]. by rewrite Hs.
  - (* duplicate *)
    pose proof (process_alert_by_outcome config priority_value send_alert r m)
      as H. cbn zeta in H. rewrite Hout in H.
    destruct H as (_ & _ & _ & Hs).
    split; [done|..]; rewrite ?Hs, ?Hreg, ?Hhist; try done.
    + intros r' Hin. destruct (Hh r' Hin) as (a' & Ha' & Hsent & Hin').
      exists a'. split; [done|]. split; [done|]. by apply Hrec.
    + apply history_keys_ext in Hhist; [by rewrite Hhist|]. by rewrite Hs.
  - (* dispatched *)
    destruct (process_alert_dispatched_detail r m a Ha Hout)
      as (k & Hs & _ & _ & _ & _ & Hb & _ & Hrec' & Hnew).
    assert (∀ r', store (final (process_alert r) m) !! r'
                  = if decide (r' = r)
                    then Some (set_sent true
                                 (set_retry_count
                                    (retry_count a + Z.of_nat k) a))
                    else store m !! r') as Hlook.
    { intros r'. rewrite Hs. case_decide as Hr'.
      - subst r'. by rewrite !lookup_alter_eq, Ha.
      - by rewrite !lookup_alter_ne. }
    assert (∀ r', alert_hash (store (final (process_alert r) m) !!! r')
                  = alert_hash (store m !!! r')) as Hkey.
    { intros r'. unfold lookup_total, map_lookup_total. rewrite Hlook.
      case_decide as Hr'; [|done]. subst r'. by rewrite Ha. }
    split; [done|..].
    + intros r' a'. rewrite Hlook, Hreg. case_decide as Hr'.
      * intros [= <-]. cbn [channels set_sent set_retry_count]. by eapply Ht.
      * apply Ht.
    + intros r' a'. rewrite Hlook. case_decide as Hr'; [|apply Hr].
      intros [= <-]. cbn [retry_count priority set_sent set_retry_count].
      destruct (Hr r a Ha) as [Hrange Hlow].
      destruct Hb as [->|[Hp Hle]].
      * rewrite Z.add_0_r. done.
      * split; [lia|]. by intros [].
    + rewrite Hhist. intros r' Hin.
      destruct (trim_history_is_drop (alert_history m ++ [r])) as [n Hn].
      rewrite Hn in Hin. apply (subseteq_drop n) in Hin as Hi.
      rewrite Hlook, Hrec'. case_decide as Hr'.
      * eexists. split; [done|]. split; [done|].
        cbn [alert_hash symbol title message set_sent set_retry_count].
        apply elem_of_union_l. by apply elem_of_singleton.
      * apply elem_of_app in Hi as [Hi|Hi%list_elem_of_singleton]; [|done].
        destruct (Hh r' Hi) as (a' & Ha' & Hsent & Hin').
        exists a'. split; [done|]. split; [done|]. by apply elem_of_union_r.
    + unfold history_keys. rewrite Hhist.
      destruct (trim_history_is_drop (alert_history m ++ [r])) as [n ->].
      rewrite (list_fmap_ext _ (λ r', alert_hash (store m !!! r')))
        by (intros; apply Hkey).
      rewrite fmap_drop. eapply sublist_NoDup; [|apply sublist_drop].
      rewrite fmap_app. apply NoDup_app. split; [exact Hk|]. split.
      * cbn [fmap list_fmap]. intros key Hin ->%list_elem_of_singleton.
        apply Hnew. apply list_elem_of_fmap in Hin as (r' & Heq & Hr').
        destruct (Hh r' Hr') as (a' & Ha' & _ & Hin').
        rewrite (lookup_total_correct _ _ _ Ha) in Heq.
        rewrite (lookup_total_correct _ _ _ Ha') in Heq. by rewrite Heq.
      * apply NoDup_singleton.
Qed.

Lemma check_triggers_loop_sound market_data names m :
  sound m → sound (final (check_triggers_loop market_data names) m).
Proof.
  revert m. induction names as [|name names IH]; intros m Hsound; [done|].
  cbn [check_triggers_loop]. autorewrite with run. apply IH.
  destruct (check name market_data (clock m)) as [|[] [d|]];
    autorewrite with run; try done.
  by apply create_alert_sound.
Qed.

Lemma step_sound m m' : step m m' → sound m → sound m'.
Proof.
  destruct 1; intros Hsound.
  - by apply create_alert_sound.
  - unfold check_triggers. autorewrite with run.
    by apply check_triggers_loop_sound.
  - unfold alert_worker_step. autorewrite with run.
    destruct (alert_queue m) as [|r rest] eqn:Hq; autorewrite with run.
    + by destruct Hsound.
    + destruct (sound_queue _ Hsound r) as (a & Ha & Hch);
        [rewrite Hq; by left|].
      apply (process_alert_sound r _ a); [done..|].
      destruct Hsound as [Hqw ? ? ? ?]. split; try done.
      intros r' Hr'. apply (Hqw r'). rewrite Hq. by right.
  - by destruct Hsound.
Qed.

Lemma run_sound m m' : rtc step m m' → sound m → sound m'.
Proof. induction 1; eauto using step_sound. Qed.

(** *** Fan-out and retries of one processing step *)

Lemma fanout_tries_every_target_aux (r : ref) (m : AlertManager) :
  sent_on (events (process_alert r) m)
  = match outcome r m with
    | Dispatched => send_tasks r m
    | _ => []
    end.
Proof.
  pose proof (process_alert_by_outcome config priority_value send_alert r m)
    as H. cbn zeta in H.
  destruct (outcome r m) eqn:Hout.
  - destruct H as [-> _]. done.
  - destruct H as [-> _]. done.
  - rewrite (proj2 (process_alert_dispatched config priority_value send_alert
                      r m Hout)).
    cbn [sent_on omap list_omap]. apply send_loop_sent_on.
Qed.

(** X1. A dispatched alert is tried once on every target channel that is
    registered, in the order of its channel list, whether the earlier
    sends were delivered or raised; an alert that is not dispatched is
    tried on none. *)
Theorem fanout_tries_every_target (r : ref) (m : AlertManager) :
  sent_on (events (process_alert r) m)
  = match outcome r m with
    | Dispatched => send_tasks r m
    | _ => []
    end.
Proof. apply fanout_tries_every_target_aux. Qed.

(** X2. The retries of one dispatch.  With [c] the retry counter of the
    alert when the step starts, there is a number [k] of retries, at most
    the number of sends, such that the counter ends at [c + k], the alert
    was put back on the queue [k] times, and the step slept [2^(c+1)],
    ..., [2^(c+k)] seconds, in this order.  [k] is 0 unless the alert is
    CRITICAL, and [c + k] does not pass 3. *)
Theorem retries_follow_failures (r : ref) (m : AlertManager) (a : Alert) :
  store m !! r = Some a →
  outcome r m = Dispatched →
  ∃ k : nat,
    retry_count <$> store (final (process_alert r) m) !! r
    = Some (retry_count a + Z.of_nat k) ∧
    alert_queue (final (process_alert r) m) = alert_queue m ++ replicate k r ∧
    enqueued (events (process_alert r) m) = replicate k r ∧
    sleeps (events (process_alert r) m)
    = (λ i, 2 ^ (retry_count a + Z.of_nat i)) <$> seq 1 k ∧
    (k = 0%nat ∨ priority a = CRITICAL ∧ retry_count a + Z.of_nat k ≤ 3) ∧
    (k ≤ length (send_tasks r m))%nat.
Proof.
  intros Ha Hout.
  destruct (process_alert_dispatched_detail r m a Ha Hout)
    as (k & Hs & Hq & He & Hsl & _ & Hb & Hk & _).
  exists k. rewrite Hs, !lookup_alter_eq, Ha. done.
Qed.

(** *** Invariants of every run *)

(** X3. From construction on, whatever is created, triggered, processed
    and retried, the retry counter of every alert stays between 0 and 3,
    and it stays 0 for an alert that is not CRITICAL. *)
Theorem retry_counter_stays_within_three
    (channel_names trigger_names : list string) (t0 : datetime)
    (m : AlertManager) (r : ref) (a : Alert) :
  rtc step (init channel_names trigger_names t0) m →
  store m !! r = Some a →
  0 ≤ retry_count a ≤ 3 ∧ (priority a ≠ CRITICAL → retry_count a = 0).
Proof.
  intros Hrun Ha.
  apply (sound_retries m (run_sound _ _ Hrun (sound_init _ _ _)) r a Ha).
Qed.

(** X4. From construction on, the history never holds two records with
    the same duplicate key (symbol, title and message joined by
    underscores), and every record in it has [sent] set. *)
Theorem history_never_repeats_a_key
    (channel_names trigger_names : list string) (t0 : datetime)
    (m : AlertManager) :
  rtc step (init channel_names trigger_names t0) m →
  NoDup (history_keys m) ∧
  ∀ r, r ∈ alert_history m → sent <$> store m !! r = Some true.
Proof.
  intros Hrun.
  pose proof (run_sound _ _ Hrun (sound_init _ _ _)) as [_ _ _ Hh Hk].
  split; [done|]. intros r Hr. destruct (Hh r Hr) as (a & -> & <- & _). done.
Qed.

(** X5. From construction on, every alert a worker takes from the queue
    targets only registered channels, so that when it is dispatched a
    send is tried on each of its channels, in order. *)
Theorem queued_alert_is_tried_on_all_its_channels
    (channel_names trigger_names : list string) (t0 : datetime)
    (m : AlertManager) (r : ref) (rest : list ref) :
  rtc step (init channel_names trigger_names t0) m →
  alert_queue m = r :: rest →
  sent_on (events alert_worker_step m)
  = match outcome r (set_alert_queue rest m) with
    | Dispatched => channels (store m !!! r)
    | _ => []
    end.
Proof.
  intros Hrun Hq.
  pose proof (run_sound _ _ Hrun (sound_init _ _ _)) as Hsound.
  destruct (sound_queue _ Hsound r) as (a & Ha & _); [rewrite Hq; by left|].
  unfold alert_worker_step. autorewrite with run. rewrite Hq.
  autorewrite with run. cbn [app].
  pose proof (fanout_tries_every_target_aux r (set_alert_queue rest m)) as H.
  rewrite H. destruct (outcome r _); [done..|].
  unfold send_tasks. cbn [store mgr_channels set_alert_queue].
  rewrite (lookup_total_correct _ _ _ Ha).
  destruct (sound_targets _ Hsound r a Ha) as [_ Hall].
  clear -Hall. induction (channels a) as [|ch l IH]; [done|].
  rewrite filter_cons, decide_True by (apply Hall; by left).
  f_equal. apply IH. intros c Hc. apply Hall. by right.
Qed.

(** *** The history buffer, for sizes of at least one *)

(** X6. With [max_history_size] at least 1, from construction on the
    history never holds more than [max_history_size] records; the
    statistic [total_alerts_sent], which is the length of the history,
    therefore stops growing at that value. *)
Theorem history_stays_bounded
    (channel_names trigger_names : list string) (t0 : datetime)
    (m : AlertManager) :
  1 ≤ max_history_size config →
  rtc step (init channel_names trigger_names t0) m →
  Z.of_nat (length (alert_history m)) ≤ max_history_size config ∧
  total_alerts_sent m ≤ max_history_size config.
Proof.
  intros Hmax Hrun.
  assert (Z.of_nat (length (alert_history m)) ≤ max_history_size config)
    as Hlen.
  { eapply (history_bounded_for_positive_size config priority_value hash
              send_alert MarketData check); [done| |exact Hrun].
    simpl. lia. }
  by split.
Qed.

(** X7. With [max_history_size] at least 1, a dispatch appends the alert
    and then drops records from the front only: the new history is the
    last [max_history_size] records of the old history followed by the
    alert, and the alert is its last record. *)
Theorem eviction_drops_the_oldest (r : ref) (m : AlertManager) :
  1 ≤ max_history_size config →
  outcome r m = Dispatched →
  alert_history (final (process_alert r) m)
  = drop (length (alert_history m ++ [r])
          - Z.to_nat (max_history_size config))
         (alert_history m ++ [r]) ∧
  last (alert_history (final (process_alert r) m)) = Some r.
Proof.
  intros Hmax Hout.
  rewrite (process_alert_history config priority_value send_alert), Hout.
  destruct (trim_history_positive config (alert_history m ++ [r]) Hmax)
    as [Heq _].
  rewrite Heq. split; [done|].
  rewrite length_app. cbn [length].
  rewrite drop_app_le by lia. apply last_snoc.
Qed.

(** *** The rate limits after a dispatch *)

Lemma not_reached count v :
  v ≠ 0 → reached count (Some v) = false → count < v.
Proof.
  unfold reached. intros Hv%Z.eqb_neq. rewrite Hv. cbn [negb andb].
  by intros ?%Z.leb_gt.
Qed.

Lemma check_passed_not_over (r : ref) (m : AlertManager) (a : Alert) :
  store m !! r = Some a →
  result (check_rate_limit r) m = true →
  ∀ ch, ch ∈ channels a →
        over_limit (clock m) (sent_alerts_tracker m) (priority a) ch = false.
Proof.
  intros Ha Hok ch Hin.
  assert (result (check_rate_limit r) m
          = result (check_rate_limit_loop (clock m) (priority a) (channels a))
                   m) as Hres
    by (unfold check_rate_limit; autorewrite with run;
        by rewrite (lookup_total_correct _ _ _ Ha)).
  destruct (check_rate_limit_loop_spec config priority_value (clock m)
              (priority a) (channels a) m) as (Hspec & _).
  rewrite <- Hres, Hok in Hspec. symmetry in Hspec.
  apply negb_true_iff in Hspec.
  destruct (over_limit _ _ _ ch) eqn:Hover; [|done].
  assert (existsb (over_limit (clock m) (sent_alerts_tracker m) (priority a))
                  (channels a) = true) as Hex.
  { apply existsb_exists. exists ch. split; [|done]. by apply list_elem_of_In. }
  congruence.
Qed.

Lemma filter_length_le {A} (P Q : A → Prop) `{∀ x, Decision (P x)}
    `{∀ x, Decision (Q x)} (l : list A) :
  (∀ x, P x → Q x) → (length (filter P l) ≤ length (filter Q l))%nat.
Proof.
  intros HPQ. induction l as [|x l IH]; [done|].
  rewrite !filter_cons.
  destruct (decide (P x)) as [HP|HP].
  - rewrite decide_True by auto. simpl. lia.
  - destruct (decide (Q x)); simpl; lia.
Qed.

(** The recording of a send, made in a state [m1], against a check that
    passed in a state [m] not later than [m1]. *)
Lemma recording_after_check (r : ref) (m m1 : AlertManager) (a a1 : Alert)
    (ch : string) (v : Z) (k : nat) (window : timedelta)
    (limit : PriorityLimit → option Z) :
  store m1 !! r = Some a1 →
  priority a1 = priority a → channels a1 = channels a →
  key_count (priority a) (tracker_key ch (priority a)) (channels a) = 1%nat →
  v ≠ 0 →
  clock m ≤ clock m1 →
  0 < window →
  limit (limits_of ch (priority a)) = Some v →
  reached (sends_since (sent_alerts_tracker m)
                       (tracker_key ch (priority a)) (clock m - window))
          (limit (limits_of ch (priority a))) = false →
  sends_since (sent_alerts_tracker m1) (tracker_key ch (priority a))
              (clock m - window)
  ≤ sends_since (sent_alerts_tracker m) (tracker_key ch (priority a))
                (clock m - window) + Z.of_nat k →
  sends_since (sent_alerts_tracker (final (track_sent_alert r) m1))
              (tracker_key ch (priority a)) (clock m1 - window)
  ≤ v + Z.of_nat k.
Proof.
  intros Ha1 Hp Hchs Hone Hv Hclock Hw Hlim Hnot Hk.
  rewrite Hlim in Hnot. apply not_reached in Hnot; [|done].
  unfold track_sent_alert. autorewrite with run.
  rewrite (lookup_total_correct _ _ _ Ha1), Hp, Hchs.
  unfold sends_since in *.
  rewrite (track_sent_alert_loop_tracker priority_value), Hone.
  cbn [replicate].
  rewrite filter_app, length_app, filter_cons, filter_nil.
  rewrite decide_True by lia. cbn [length].
  pose proof (filter_length_le
                (λ ts, clock m1 - window < ts) (λ ts, clock m - window < ts)
                (sent_alerts_tracker m1 !!! tracker_key ch (priority a)))
    as Hle.
  specialize (Hle ltac:(intros x; cbn beta; lia)). lia.
Qed.

(** X8. A limit bounds the recorded sends up to what other workers
    record in the meantime.  Let the rate check of an alert pass in a
    state [m] and let its send be recorded by [_track_sent_alert] in a
    state [m1] that is not earlier; in between the worker awaits the
    sends, and other workers may run.  For a target channel that occurs
    once in the channel list and has a non-zero [max_per_minute] of [v]:
    if at the recording the list of the key holds at most [k] more
    timestamps of the minute before the check than it held at the check,
    then after the recording it holds at most [v + k] timestamps of the
    minute before the recording, the new one included; the same for
    [max_per_hour] and the hour.  With [k = 0], a processing step that
    nothing interleaves with, the limit is kept; each send recorded by
    another worker in between can raise the count by one above it. *)
Theorem limit_holds_up_to_concurrent_sends (r : ref) (m m1 : AlertManager)
    (a a1 : Alert) (ch : string) (v : Z) (k : nat) :
  store m !! r = Some a →
  result (check_rate_limit r) m = true →
  store m1 !! r = Some a1 →
  priority a1 = priority a → channels a1 = channels a →
  ch ∈ channels a →
  key_count (priority a) (tracker_key ch (priority a)) (channels a) = 1%nat →
  v ≠ 0 →
  clock m ≤ clock m1 →
  let key := tracker_key ch (priority a) in
  let recorded := sent_alerts_tracker (final (track_sent_alert r) m1) in
  (max_per_minute (limits_of ch (priority a)) = Some v →
   sends_since (sent_alerts_tracker m1) key (clock m - Time.minutes 1)
   ≤ sends_since (sent_alerts_tracker m) key (clock m - Time.minutes 1)
     + Z.of_nat k →
   sends_since recorded key (clock m1 - Time.minutes 1) ≤ v + Z.of_nat k) ∧
  (max_per_hour (limits_of ch (priority a)) = Some v →
   sends_since (sent_alerts_tracker m1) key (clock m - Time.hours 1)
   ≤ sends_since (sent_alerts_tracker m) key (clock m - Time.hours 1)
     + Z.of_nat k →
   sends_since recorded key (clock m1 - Time.hours 1) ≤ v + Z.of_nat k).
Proof.
  intros Ha Hok Ha1 Hp Hchs Hin Hone Hv Hclock. cbn zeta.
  assert (over_limit (clock m) (sent_alerts_tracker m) (priority a) ch = false)
    as Hover by (by apply (check_passed_not_over r m a Ha Hok)).
  unfold over_limit in Hover. apply orb_false_iff in Hover as [Hh Hm].
  split; intros Hlim Hk.
  - by apply (recording_after_check r m m1 a a1 ch v k (Time.minutes 1)
                max_per_minute).
  - by apply (recording_after_check r m m1 a a1 ch v k (Time.hours 1)
                max_per_hour).
Qed.

(** *** Admission as a function of the state *)

(** X9. Which way a processing step goes is decided by the state it
    starts in, as long as the instants the two checks compute are
    datetimes, that is the current time, the time one hour before it and
    the time one duplicate window before it (otherwise the subtraction
    raises [OverflowError] and the step ends in the handler of
    [_process_alert], a path the model leaves out).  The alert is rate
    limited when one of its target channels is at a non-zero limit;
    otherwise it is a duplicate when its key is in the set of seen keys;
    otherwise it is dispatched.  The rate limiter comes first, so an
    alert that is both is reported as rate limited. *)
Theorem outcome_from_the_state (r : ref) (m : AlertManager) (a : Alert) :
  store m !! r = Some a →
  Time.representable (clock m) →
  Time.representable (clock m - Time.hours 1) →
  Time.representable (clock m - duplicate_window) →
  outcome r m
  = if existsb (over_limit (clock m) (sent_alerts_tracker m) (priority a))
               (channels a)
    then RateLimited
    else if bool_decide (alert_hash a ∈ recent_alerts m) then Duplicate
         else Dispatched.
Proof.
  intros Ha _ _ _. unfold outcome.
  assert (result (check_rate_limit r) m
          = result (check_rate_limit_loop (clock m) (priority a) (channels a))
                   m) as Hres
    by (unfold check_rate_limit; autorewrite with run;
        by rewrite (lookup_total_correct _ _ _ Ha)).
  destruct (check_rate_limit_loop_spec config priority_value (clock m)
              (priority a) (channels a) m) as (Hspec & _).
  rewrite Hres, Hspec.
  destruct (existsb _ _); cbn [negb]; [done|].
  destruct (check_rate_limit_frame config priority_value r m)
    as [[_ _ _ Hr Hs _] _].
  by rewrite is_duplicate_result, Hs, Hr, (lookup_total_correct _ _ _ Ha).
Qed.

(** X10. An alert that is not dispatched records no send: after the step
    every list of the rate tracker is what it was, or that list pruned to
    the last hour. *)
Theorem rejected_alert_records_no_send (r : ref) (m : AlertManager)
    (key : string) :
  outcome r m ≠ Dispatched →
  sent_alerts_tracker (final (process_alert r) m) !!! key
  = sent_alerts_tracker m !!! key ∨
  sent_alerts_tracker (final (process_alert r) m) !!! key
  = filter (λ ts, clock m - Time.hours 1 < ts)
           (sent_alerts_tracker m !!! key).
Proof.
  intros Hout.
  assert (sent_alerts_tracker (final (process_alert r) m)
          = sent_alerts_tracker (final (check_rate_limit r) m)) as ->.
  { unfold final at 1. rewrite process_alert_run. cbn zeta.
    unfold outcome in Hout.
    destruct (result (check_rate_limit r) m); [|done].
    destruct (result (is_duplicate r) _); [|done]. cbn [fst snd].
    unfold after_admission.
    by destruct (is_duplicate_frame config r (final (check_rate_limit r) m))
      as [[_ _ _ -> _ _] _]. }
  assert (final (check_rate_limit r) m
          = final (check_rate_limit_loop (clock m)
                     (priority (store m !!! r)) (channels (store m !!! r))) m)
    as -> by (unfold check_rate_limit; by autorewrite with run).
  apply check_rate_limit_loop_spec.
Qed.

(** *** The worker loop *)

(** X12. On an empty queue a worker only waits: [n] iterations let [n]
    seconds pass, one time-out each, and change nothing else. *)
Theorem idle_worker_only_waits (n : nat) (m : AlertManager) :
  alert_queue m = [] →
  final (alert_worker n) m
  = set_clock (clock m + Time.seconds (Z.of_nat n)) m ∧
  events (alert_worker n) m = [].
Proof.
  revert m. induction n as [|n IH]; intros m Hq.
  - cbn [alert_worker]. autorewrite with run. split; [|done].
    unfold Time.seconds. rewrite Z.add_0_r. by destruct m.
  - cbn [alert_worker]. autorewrite with run.
    unfold alert_worker_step. autorewrite with run. rewrite Hq.
    autorewrite with run.
    destruct (IH (set_clock (clock m + Time.seconds 1) m)) as [-> ->];
      [done|].
    split; [|done]. cbn [clock set_clock]. unfold set_clock, Time.seconds.
    cbn. f_equal. lia.
Qed.

(** *** What a trigger pass can do *)

Lemma create_alert_kw_effect d m :
  books_untouched m (final (create_alert_kw d) m) ∧
  sent_on (events (create_alert_kw d) m) = [] ∧
  ∃ new, alert_queue (final (create_alert_kw d) m) = alert_queue m ++ new ∧
         enqueued (events (create_alert_kw d) m) = new ∧
         (length new ≤ 1)%nat.
Proof.
  unfold create_alert_kw, final, events. rewrite create_alert_run.
  destruct (available_channels _ _ _); cbn [fst snd].
  - split; [apply books_untouched_refl|]. split; [done|].
    exists []. rewrite app_nil_r. repeat split; simpl; lia.
  - split; [by repeat split|]. split; [done|].
    eexists. repeat split; simpl; lia.
Qed.

Lemma check_triggers_loop_effect market_data names m :
  books_untouched m (final (check_triggers_loop market_data names) m) ∧
  sent_on (events (check_triggers_loop market_data names) m) = [] ∧
  ∃ new,
    alert_queue (final (check_triggers_loop market_data names) m)
    = alert_queue m ++ new ∧
    enqueued (events (check_triggers_loop market_data names) m) = new ∧
    (length new ≤ length names)%nat.
Proof.
  revert m. induction names as [|name names IH]; intros m.
  - simpl. split; [apply books_untouched_refl|]. split; [done|].
    exists []. rewrite app_nil_r. repeat split; simpl; lia.
  - cbn [check_triggers_loop]. autorewrite with run.
    change (result now m) with (clock m).
    set (body := match check name market_data (clock m) with
                 | CheckRaises => log ERROR name
                 | CheckReturns true (Some d) => create_alert_kw d ≫= λ _, mret ()
                 | CheckReturns true None => log ERROR name
                 | CheckReturns false _ => mret ()
                 end).
    assert (books_untouched m (final body m) ∧
            sent_on (events body m) = [] ∧
            ∃ new, alert_queue (final body m) = alert_queue m ++ new ∧
                   enqueued (events body m) = new ∧ (length new ≤ 1)%nat)
      as (Hb & Hs & new1 & Hq1 & He1 & Hl1).
    { unfold body. destruct (check name market_data (clock m)) as [|[] [d|]];
        autorewrite with run;
        try (split; [apply books_untouched_refl|]; split; [done|];
             exists []; rewrite app_nil_r; repeat split; simpl; lia).
      rewrite app_nil_r. apply create_alert_kw_effect. }
    destruct (IH (final body m)) as (Hb' & Hs' & new2 & Hq2 & He2 & Hl2).
    split; [by eapply books_untouched_trans|]. split.
    + rewrite !sent_on_app, Hs, Hs'. done.
    + exists (new1 ++ new2). rewrite !enqueued_app, He1, He2, Hq2, Hq1.
      rewrite app_assoc, length_app. repeat split; simpl; lia.
Qed.

(** X13. A trigger pass only creates alerts: it sends nothing, leaves
    history, rate tracker and seen keys as they were, and appends to the
    queue at most one alert per registered trigger, behind the alerts
    already waiting. *)
Theorem trigger_pass_only_enqueues (market_data : MarketData)
    (m : AlertManager) :
  sent_on (events (check_triggers market_data) m) = [] ∧
  alert_history (final (check_triggers market_data) m) = alert_history m ∧
  sent_alerts_tracker (final (check_triggers market_data) m)
  = sent_alerts_tracker m ∧
  recent_alerts (final (check_triggers market_data) m) = recent_alerts m ∧
  ∃ new,
    alert_queue (final (check_triggers market_data) m) = alert_queue m ++ new ∧
    enqueued (events (check_triggers market_data) m) = new ∧
    (length new ≤ length (mgr_triggers m))%nat.
Proof.
  unfold check_triggers. autorewrite with run. cbn [app].
  destruct (check_triggers_loop_effect market_data (mgr_triggers m) m)
    as ([_ Hh Ht Hr] & Hs & Hnew).
  done.
Qed.

(** *** The keys of the rate tracker and of the duplicate filter *)

Lemma has_underscore_app s v : has_underscore (s +:+ "_" +:+ v) = true.
Proof. induction s as [|c s IH]; [done|]. simpl. by destruct (Ascii.eqb c "_"). Qed.

Lemma has_underscore_cons c s :
  has_underscore (String c s) = false →
  c ≠ "_"%char ∧ has_underscore s = false.
Proof.
  simpl. destruct (Ascii.eqb c "_") eqn:Hc; [done|].
  intros ->. split; [|done]. intros ->. by rewrite Ascii.eqb_refl in Hc.
Qed.

Lemma string_app_assoc s1 s2 s3 : (s1 +:+ s2) +:+ s3 = s1 +:+ s2 +:+ s3.
Proof.
  induction s1 as [|c s1 IH]; [done|].
  change (String c ((s1 +:+ s2) +:+ s3) = String c (s1 +:+ s2 +:+ s3)).
  by rewrite IH.
Qed.

(** A string without underscore in front of the separator is recovered
    from the whole. *)
Lemma underscore_free_prefix s1 s2 v1 v2 :
  has_underscore s1 = false → has_underscore s2 = false →
  s1 +:+ "_" +:+ v1 = s2 +:+ "_" +:+ v2 → s1 = s2 ∧ v1 = v2.
Proof.
  revert s2. induction s1 as [|c s1 IH]; intros [|c' s2] H1 H2 Heq.
  - simpl in Heq. by injection Heq.
  - apply has_underscore_cons in H2 as [Hc _]. simpl in Heq.
    injection Heq as Hc' _. congruence.
  - apply has_underscore_cons in H1 as [Hc _]. simpl in Heq.
    injection Heq as Hc' _. congruence.
  - apply has_underscore_cons in H1 as [_ H1].
    apply has_underscore_cons in H2 as [_ H2].
    simpl in Heq. injection Heq as -> Heq.
    destruct (IH s2 H1 H2 Heq) as [-> ->]. done.
Qed.

(** A string without underscore behind the separator is recovered from
    the whole. *)
Lemma underscore_free_suffix s1 s2 v1 v2 :
  has_underscore v1 = false → has_underscore v2 = false →
  s1 +:+ "_" +:+ v1 = s2 +:+ "_" +:+ v2 → s1 = s2 ∧ v1 = v2.
Proof.
  revert s2. induction s1 as [|c s1 IH]; intros [|c' s2] H1 H2 Heq.
  - simpl in Heq. by injection Heq.
  - simplify_eq/=. pose proof (has_underscore_app s2 v2) as Hu.
    change ("" +:+ v1) with v1 in *. congruence.
  - simplify_eq/=. pose proof (has_underscore_app s1 v1) as Hu.
    change ("" +:+ v2) with v2 in *. congruence.
  - simpl in Heq. injection Heq as -> Heq.
    destruct (IH s2 H1 H2 Heq) as [-> ->]. done.
Qed.

(** X14. The key of the duplicate filter tells apart alerts whose symbol
    and title contain no underscore: equal keys then mean equal symbol,
    title and message. *)
Theorem duplicate_key_separates_plain_alerts (a b : Alert) :
  has_underscore (symbol a) = false → has_underscore (title a) = false →
  has_underscore (symbol b) = false → has_underscore (title b) = false →
  alert_hash a = alert_hash b →
  symbol a = symbol b ∧ title a = title b ∧ message a = message b.
Proof.
  unfold alert_hash. intros Hsa Hta Hsb Htb Heq.
  apply underscore_free_prefix in Heq as [Hs Heq]; [|done..].
  apply underscore_free_prefix in Heq as [Ht Hm]; done.
Qed.

(** X15. The separator of the key is not escaped: an alert whose symbol
    ends where the title of another begins shares its key, and once the
    first of the two has reached the duplicate filter the other one is
    never dispatched, although symbol and title differ: in every state
    that is reached afterwards, whatever is created, triggered and
    processed and however much time passes, a processing step for it
    stops at one of the two checks and sends nothing. *)
Theorem underscore_moves_between_symbol_and_title (r1 r2 : ref)
    (a1 a2 : Alert) (s t u : string) (m m' : AlertManager) :
  store m !! r1 = Some a1 → store m !! r2 = Some a2 →
  symbol a1 = s +:+ "_" +:+ t → title a1 = u →
  symbol a2 = s → title a2 = t +:+ "_" +:+ u →
  message a2 = message a1 →
  outcome r1 m ≠ RateLimited →
  rtc step (final (process_alert r1) m) m' →
  alert_hash a2 = alert_hash a1 ∧
  outcome r2 m' ≠ Dispatched ∧
  sent_on (events (process_alert r2) m') = [].
Proof.
  intros Ha1 Ha2 Hs1 Ht1 Hs2 Ht2 Hm Hout Hrun.
  assert (alert_hash a2 = alert_hash a1) as Hhash.
  { unfold alert_hash. rewrite Hs1, Ht1, Hs2, Ht2, Hm.
    by rewrite !string_app_assoc. }
  split; [done|].
  destruct (process_alert_fields config priority_value send_alert r1 m)
    as (_ & _ & _ & _ & Hin).
  specialize (Hin Hout). rewrite (lookup_total_correct _ _ _ Ha1) in Hin.
  destruct (process_alert_evolves config priority_value send_alert r1 m)
    as [_ _ Hstore].
  destruct (Hstore r2 a2 Ha2) as (a2' & Ha2' & Hsame).
  assert (alert_hash a2' ∈ recent_alerts (final (process_alert r1) m))
    as Hseen by (by rewrite (same_alert_hash _ _ Hsame), Hhash).
  destruct (hash_stays_seen config priority_value hash send_alert MarketData
              check r2 a2' _ m' Ha2' Hseen Hrun) as (a2'' & Ha2'' & Hseen').
  assert (outcome r2 m' ≠ Dispatched) as Hnot
    by (by apply (seen_hash_not_dispatched config priority_value r2 a2'')).
  split; [done|]. rewrite fanout_tries_every_target_aux.
  by destruct (outcome r2 m').
Qed.

(** X16. Rate buckets are per channel and priority: when the printed
    priorities contain no underscore, two pairs of channel and priority
    share a tracker key only if the channels are the same and the
    priorities print alike. *)
Theorem tracker_key_separates_channels (ch ch' : string)
    (p p' : AlertPriority) :
  has_underscore (priority_value p) = false →
  has_underscore (priority_value p') = false →
  tracker_key ch p = tracker_key ch' p' →
  ch = ch' ∧ priority_value p = priority_value p'.
Proof. unfold tracker_key. apply underscore_free_suffix. Qed.

(** *** Statistics *)

Lemma get_alert_stats_run m :
  get_alert_stats m
  = (mkStats
       (Z.of_nat (length (alert_history m)))
       (Z.of_nat (length (filter (λ r, clock m - Time.hours 1
                                        < timestamp (store m !!! r))
                                 (alert_history m))))
       (Z.of_nat (length (filter (λ r, clock m - Time.hours 24
                                        < timestamp (store m !!! r))
                                 (alert_history m))))
       (Z.of_nat (length (alert_queue m)))
       (Z.of_nat (length (mgr_channels m)))
       (Z.of_nat (length (mgr_triggers m))),
     m, []).
Proof. reflexivity. Qed.

Lemma filter_length_mono {A} (P Q : A → Prop) `{!∀ x, Decision (P x)}
    `{!∀ x, Decision (Q x)} (l : list A) :
  (∀ x, P x → Q x) → (length (filter P l) ≤ length (filter Q l))%nat.
Proof.
  intros HPQ. induction l as [|x l IH]; [done|].
  rewrite !filter_cons.
  destruct (decide (P x)) as [HP|HP].
  - rewrite decide_True by auto. simpl. lia.
  - destruct (decide (Q x)); simpl; lia.
Qed.

(** X17. Reading the statistics changes nothing and emits nothing, and
    its counters are nested: the alerts of the last hour are among those
    of the last 24 hours, which are among the alerts of the history, whose
    number is [total_alerts_sent]. *)
Theorem statistics_are_nested_and_read_only (m : AlertManager) :
  final get_alert_stats m = m ∧
  events get_alert_stats m = [] ∧
  0 ≤ stat_alerts_last_hour (result get_alert_stats m)
    ≤ stat_alerts_last_24h (result get_alert_stats m) ∧
  stat_alerts_last_24h (result get_alert_stats m)
  ≤ stat_total_alerts_sent (result get_alert_stats m) ∧
  stat_total_alerts_sent (result get_alert_stats m) = total_alerts_sent m ∧
  stat_pending_alerts (result get_alert_stats m)
  = Z.of_nat (length (alert_queue m)).
Proof.
  unfold final, events, result. rewrite get_alert_stats_run.
  cbn [fst snd stat_alerts_last_hour stat_alerts_last_24h
       stat_total_alerts_sent stat_pending_alerts].
  split; [done|]. split; [done|]. split; [split; [lia|]|split].
  - apply Nat2Z.inj_le, filter_length_mono. intros r.
    unfold Time.hours. lia.
  - apply Nat2Z.inj_le, length_filter.
  - done.
Qed.

(** *** The trigger loop of the application *)

Variable get_current_market_data : datetime → option MarketData.

Local Abbreviation alert_trigger_iteration :=
  (alert_trigger_iteration config hash MarketData check
     get_current_market_data).
Local Abbreviation alert_trigger_loop :=
  (alert_trigger_loop config hash MarketData check get_current_market_data).
Local Abbreviation iteration_delay :=
  (iteration_delay MarketData get_current_market_data).
Local Abbreviation loop_delays :=
  (loop_delays MarketData get_current_market_data).
Local Abbreviation loop_checks :=
  (loop_checks MarketData get_current_market_data).

Lemma create_alert_kw_sleeps d m : sleeps (events (create_alert_kw d) m) = [].
Proof.
  unfold create_alert_kw, events. rewrite create_alert_run.
  by destruct (available_channels _ _ _).
Qed.

Lemma check_triggers_loop_sleeps market_data names m :
  sleeps (events (check_triggers_loop market_data names) m) = [].
Proof.
  revert m. induction names as [|name names IH]; intros m; [done|].
  cbn [check_triggers_loop]. autorewrite with run.
  change (result now m) with (clock m).
  rewrite !sleeps_app, IH, app_nil_r.
  destruct (check name market_data (clock m)) as [|[] [d|]];
    autorewrite with run; try done.
  by rewrite app_nil_r, create_alert_kw_sleeps.
Qed.

Lemma alert_trigger_iteration_effect m :
  books_untouched m (final alert_trigger_iteration m) ∧
  sent_on (events alert_trigger_iteration m) = [] ∧
  (∃ new,
     alert_queue (final alert_trigger_iteration m) = alert_queue m ++ new ∧
     enqueued (events alert_trigger_iteration m) = new ∧
     (length new ≤ length (mgr_triggers m))%nat) ∧
  (iteration_delay (clock m) = 60 ∨ iteration_delay (clock m) = 30) ∧
  sleeps (events alert_trigger_iteration m) = [iteration_delay (clock m)] ∧
  clock (final alert_trigger_iteration m)
  = clock m + Time.seconds (iteration_delay (clock m)) ∧
  checked (events alert_trigger_iteration m)
  = match get_current_market_data (clock m) with
    | Some _ => mgr_triggers m
    | None => []
    end.
Proof.
  unfold alert_trigger_iteration, iteration_delay. autorewrite with run.
  change (result now m) with (clock m).
  destruct (get_current_market_data (clock m)) as [market_data|];
    autorewrite with run.
  - unfold check_triggers. autorewrite with run. cbn [app].
    destruct (check_triggers_loop_effect market_data (mgr_triggers m) m)
      as ([[Hc Ht] Hh Hk Hr] & Hs & new & Hq & He & Hl).
    destruct (check_triggers_loop_pass config hash MarketData check
                market_data (mgr_triggers m) m) as (Hclock & Hchecked & _).
    set (m' := final (check_triggers_loop market_data (mgr_triggers m)) m)
      in *.
    split; [by repeat split|]. split.
    { by rewrite sent_on_app, Hs. }
    split.
    { exists new. by rewrite enqueued_app, He, app_nil_r. }
    split; [by left|]. split; [|split].
    + by rewrite sleeps_app, check_triggers_loop_sleeps.
    + cbn [clock set_clock]. by rewrite Hclock.
    + by rewrite checked_app, Hchecked,
        app_nil_r.
  - cbn [app]. split; [by repeat split|]. split; [done|]. split.
    { exists []. rewrite app_nil_r. repeat split; simpl; lia. }
    split; [by right|]. done.
Qed.

(** X18. The trigger loop of the application only creates alerts.
    Whatever the market data and the triggers do, [n] iterations send
    nothing, leave history, rate tracker and seen keys alone, put at most
    one alert per trigger and iteration on the queue, and sleep once per
    iteration, 60 seconds after a pass and 30 after a failure to get the
    market data: the delays are those of [loop_delays], which gives 60
    to an iteration exactly when the market data were obtained at its
    start, and the triggers checked are those of [loop_checks], all
    registered triggers in such an iteration and none in the others. *)
Theorem trigger_loop_only_creates_alerts (n : nat) (m : AlertManager) :
  let m' := final (alert_trigger_loop n) m in
  let es := events (alert_trigger_loop n) m in
  sent_on es = [] ∧
  books_untouched m m' ∧
  (∃ new, alert_queue m' = alert_queue m ++ new ∧ enqueued es = new ∧
          (length new ≤ n * length (mgr_triggers m))%nat) ∧
  length (sleeps es) = n ∧
  Forall (λ secs, secs = 60 ∨ secs = 30) (sleeps es) ∧
  clock m + Time.seconds 30 * Z.of_nat n ≤ clock m'
  ≤ clock m + Time.seconds 60 * Z.of_nat n ∧
  sleeps es = loop_delays n (clock m) ∧
  checked es = loop_checks (mgr_triggers m) n (clock m) ∧
  (∀ t, iteration_delay t = 60 ↔ is_Some (get_current_market_data t)) ∧
  (∀ t, iteration_delay t = 30 ↔ get_current_market_data t = None).
Proof.
  cbn zeta.
  assert ((∀ t, iteration_delay t = 60 ↔ is_Some (get_current_market_data t))
          ∧ (∀ t, iteration_delay t = 30 ↔ get_current_market_data t = None))
    as Hdelay.
  { split; intros t; unfold iteration_delay;
      destruct (get_current_market_data t); split; try done;
      try (by intros [? ?]); by eexists. }
  revert m. induction n as [|n IH]; intros m.
  - cbn [alert_trigger_loop]. autorewrite with run.
    split; [done|]. split; [apply books_untouched_refl|]. split.
    { exists []. rewrite app_nil_r. repeat split; simpl; lia. }
    split; [done|]. split; [constructor|]. split; [lia|]. done.
  - cbn [alert_trigger_loop]. autorewrite with run.
    destruct (alert_trigger_iteration_effect m)
      as (Hb & Hs & (new1 & Hq1 & He1 & Hl1) & Hsecs & Hsl & Hclock & Hch).
    set (m1 := final alert_trigger_iteration m) in *.
    destruct (IH m1)
      as (Hs' & Hb' & (new2 & Hq2 & He2 & Hl2) & Hlen & Hall & Hc' & Hsl'
          & Hch' & _).
    assert (mgr_triggers m1 = mgr_triggers m) as Htr by apply Hb.
    rewrite Htr in Hl2, Hch'.
    split; [by rewrite sent_on_app, Hs, Hs'|].
    split; [by eapply books_untouched_trans|]. split.
    { exists (new1 ++ new2). rewrite enqueued_app, He1, He2, Hq2, Hq1.
      rewrite app_assoc, length_app. repeat split; simpl; lia. }
    rewrite sleeps_app, Hsl. cbn [app length].
    split; [by rewrite Hlen|]. split; [by constructor|]. split.
    { rewrite Hclock in Hc'. unfold Time.seconds in *.
      destruct Hsecs as [Hd | Hd]; rewrite Hd in Hc'; lia. }
    split; [|split; [|exact Hdelay]].
    + cbn [loop_delays]. by rewrite Hsl', Hclock.
    + rewrite checked_app, Hch, Hch', Hclock.
      done.
Qed.


(** *** The pool of workers *)

Local Abbreviation run_checks := (run_checks config priority_value).
Local Abbreviation record_sent := (record_sent config priority_value).
Local Abbreviation next_send := (next_send config priority_value).
Local Abbreviation complete_send :=
  (complete_send config priority_value send_alert).
Local Abbreviation wake := (wake config priority_value).
Local Abbreviation act :=
  (act config priority_value hash send_alert MarketData check).
Local Abbreviation run_pool :=
  (run_pool config priority_value hash send_alert MarketData check).
Local Abbreviation run_alone :=
  (run_alone config priority_value hash send_alert MarketData check).

Lemma off_queue_ret {A} (x : A) : off_queue (mret x).
Proof. by intros m. Qed.

Lemma off_queue_bind {A B} (c : M A) (f : A → M B) :
  off_queue c → (∀ x, off_queue (f x)) → off_queue (c ≫= f).
Proof.
  intros Hc Hf m. autorewrite with run.
  destruct (Hc m) as (Hq & He & Hp).
  destruct (Hf (result c m) (final c m)) as (Hq' & He' & Hp').
  rewrite enqueued_app, processed_app, He, He', Hp, Hp', Hq', Hq. done.
Qed.

Lemma off_queue_law {A} (c : M A) : off_queue c → queue_law c.
Proof.
  intros Hc m. destruct (Hc m) as (-> & -> & ->). by rewrite app_nil_r.
Qed.

Lemma queue_law_ret {A} (x : A) : queue_law (mret x).
Proof. apply off_queue_law, off_queue_ret. Qed.

Lemma queue_law_bind {A B} (c : M A) (f : A → M B) :
  queue_law c → (∀ x, queue_law (f x)) → queue_law (c ≫= f).
Proof.
  intros Hc Hf m. autorewrite with run.
  rewrite enqueued_app, processed_app, app_assoc, Hc, <- !app_assoc.
  f_equal. apply Hf.
Qed.

Lemma record_sent_off_queue r : off_queue (record_sent r).
Proof.
  intros m. unfold record_sent. autorewrite with run.
  rewrite final_cleanup_history.
  destruct (track_sent_alert_frame priority_value r
              (set_store (alter (set_sent true) r (store m)) m))
    as [[_ Hq _ _ _ _] He].
  rewrite He. cbn [alert_queue set_alert_history app]. rewrite Hq.
  unfold events. rewrite cleanup_history_run. done.
Qed.

Lemma next_send_off_queue r tasks : off_queue (next_send r tasks).
Proof.
  destruct tasks as [|ch rest]; cbn [next_send].
  - apply off_queue_bind; [apply record_sent_off_queue|].
    intros _. apply off_queue_ret.
  - apply off_queue_ret.
Qed.

Lemma complete_send_off_queue r ch rest : off_queue (complete_send r ch rest).
Proof.
  intros m. unfold complete_send. autorewrite with run.
  destruct (next_send_off_queue r rest m) as (Hq & He & Hp).
  destruct (send_alert ch (store m !!! r) (clock m)).
  - autorewrite with run. rewrite !enqueued_app, !processed_app.
    by rewrite Hq, He, Hp.
  - autorewrite with run.
    destruct (bool_decide _ && _).
    + by autorewrite with run.
    + rewrite !enqueued_app, !processed_app. by rewrite Hq, He, Hp.
Qed.

(** The checks take no alert and put none; they are where an alert
    shows as processed. *)
Lemma run_checks_queue r m :
  alert_queue (final (run_checks r) m) = alert_queue m ∧
  enqueued (events (run_checks r) m) = [] ∧
  processed (events (run_checks r) m) = [r].
Proof.
  unfold run_checks. autorewrite with run.
  destruct (check_rate_limit_frame config priority_value r m)
    as [[_ Hq _ _ _ _] He].
  rewrite He. destruct (result (check_rate_limit r) m); cbn [negb].
  - autorewrite with run.
    destruct (is_duplicate_frame config r (final (check_rate_limit r) m))
      as [[_ Hq' _ _ _ _] He'].
    rewrite He'.
    destruct (result (is_duplicate r) _); autorewrite with run;
      by rewrite Hq', Hq.
  - autorewrite with run. by rewrite Hq.
Qed.

Lemma wake_queue_law r rest : queue_law (wake r rest).
Proof.
  unfold wake. apply queue_law_bind.
  - intros m. autorewrite with run. cbn [alert_queue set_alert_queue].
    done.
  - intros _. apply off_queue_law, next_send_off_queue.
Qed.

Lemma create_alert_queue_law title message symbol p chs md :
  queue_law (create_alert title message symbol p chs md).
Proof.
  intros m. unfold final, events. rewrite create_alert_run.
  destruct (available_channels _ _ _); cbn [fst snd];
    [by rewrite app_nil_r|done].
Qed.

Lemma check_triggers_loop_processed market_data names m :
  processed (events (check_triggers_loop market_data names) m) = [].
Proof.
  revert m. induction names as [|name names IH]; intros m; [done|].
  cbn [check_triggers_loop]. autorewrite with run.
  change (result now m) with (clock m).
  rewrite !processed_app, IH, app_nil_r.
  destruct (check name market_data (clock m)) as [|[] [d|]];
    autorewrite with run; try done.
  rewrite app_nil_r. unfold create_alert_kw, events. rewrite create_alert_run.
  by destruct (available_channels _ _ _).
Qed.

Lemma check_triggers_queue_law market_data :
  queue_law (check_triggers market_data).
Proof.
  intros m. unfold check_triggers. autorewrite with run. cbn [app].
  destruct (check_triggers_loop_effect market_data (mgr_triggers m) m)
    as (_ & _ & new & -> & -> & _).
  by rewrite check_triggers_loop_processed.
Qed.

Lemma act_queue_law action ws : queue_law (act action ws).
Proof.
  destruct action as [i|i|i|title message symbol p chs md|market_data|d];
    unfold act.
  - intros m. autorewrite with run.
    destruct (ws !! i) as [[|r' ch' rest'|r' rest' until]|];
      destruct (alert_queue m) as [|r rest] eqn:Hq;
      autorewrite with run; rewrite ?app_nil_r; try done.
    set (m0 := set_alert_queue rest m).
    destruct (run_checks_queue r m0) as (Hq1 & He1 & Hp1).
    assert (off_queue (match result (run_checks r) m0 with
                       | Some tasks => next_send r tasks
                       | None => mret Waiting
                       end)) as Hoff.
    { destruct (result (run_checks r) m0);
        [apply next_send_off_queue | apply off_queue_ret]. }
    destruct (Hoff (final (run_checks r) m0)) as (Hq2 & He2 & Hp2).
    rewrite !enqueued_app, !processed_app, He1, He2, Hp1, Hp2, Hq2, Hq1.
    by rewrite app_nil_r.
  - destruct (ws !! i) as [[|r ch rest|r rest until]|];
      try apply queue_law_ret.
    apply queue_law_bind; [|intros w; apply queue_law_ret].
    apply off_queue_law, complete_send_off_queue.
  - apply queue_law_bind; [by apply off_queue_law|]. intros t.
    destruct (ws !! i) as [[|r ch rest|r rest until]|];
      try apply queue_law_ret.
    destruct (until <=? t); [|apply queue_law_ret].
    apply queue_law_bind; [|intros w; apply queue_law_ret].
    apply wake_queue_law.
  - apply queue_law_bind; [|intros w; apply queue_law_ret].
    apply create_alert_queue_law.
  - apply queue_law_bind; [|intros w; apply queue_law_ret].
    apply check_triggers_queue_law.
  - destruct (0 <=? d); [|apply queue_law_ret].
    intros m. autorewrite with run. by rewrite app_nil_r.
Qed.

Lemma run_pool_queue_law schedule ws : queue_law (run_pool schedule ws).
Proof.
  revert ws. induction schedule as [|action schedule IH]; intros ws.
  - apply queue_law_ret.
  - change (queue_law (ws' ← act action ws;
                       match ws' with
                       | Some ws' => run_pool schedule ws'
                       | None => mret None
                       end)).
    apply queue_law_bind; [apply act_queue_law|].
    intros [ws'|]; [apply IH | apply queue_law_ret].
Qed.

(** X11. The workers take the alerts in queue order, however they
    interleave.  Along every schedule of the pool, with any number of
    workers, with sends that complete in any order, retries, creations,
    trigger passes and waits in between: the queue at the start followed
    by the alerts put since is the list of the alerts taken so far, in
    the order of their rate checks, followed by the queue at the end.  So
    the alerts are taken first in, first out, each once for each time it
    was put; as long as no more alerts were taken than the queue held at
    the start, they are its first alerts, in order, and an alert put back
    for a retry goes behind those waiting. *)
Theorem pool_takes_alerts_in_queue_order (schedule : list (Action MarketData))
    (ws : list Worker) (m : AlertManager) :
  let es := events (run_pool schedule ws) m in
  let m' := final (run_pool schedule ws) m in
  alert_queue m ++ enqueued es = processed es ++ alert_queue m' ∧
  processed es
  = take (length (processed es)) (alert_queue m ++ enqueued es) ∧
  ((length (processed es) ≤ length (alert_queue m))%nat →
   processed es = take (length (processed es)) (alert_queue m)).
Proof.
  cbn zeta. pose proof (run_pool_queue_law schedule ws m) as Hlaw.
  split; [exact Hlaw|]. split.
  - rewrite Hlaw. by rewrite take_app_length.
  - intros Hle.
    rewrite <- (take_app_le _ (enqueued (events (run_pool schedule ws) m)))
      by done.
    rewrite Hlaw. by rewrite take_app_length.
Qed.


(** *** A worker that is alone *)

Lemma run_alone_waiting i n ws :
  ws !! i = Some Waiting → run_alone i n ws = mret (Some ws).
Proof. intros Hw. destruct n; [done|]. cbn [run_alone]. by rewrite Hw. Qed.

Lemma run_alone_sending i n ws r ch rest :
  ws !! i = Some (Sending r ch rest) →
  run_alone i (S n) ws
  = (ws' ← (w ← complete_send r ch rest; mret (Some (<[i:=w]> ws)));
     match ws' with
     | Some ws' => run_alone i n ws'
     | None => mret None
     end).
Proof. intros Hw. cbn [run_alone]. rewrite Hw. unfold act. by rewrite Hw. Qed.

Lemma run_alone_backoff i n ws r rest until :
  ws !! i = Some (Backoff r rest until) →
  run_alone i (S n) ws
  = (t ← now;
     (if 0 <=? until - t then advance (until - t);; mret (Some ws)
      else mret None);;
     ws' ← (t ← now;
            if until <=? t then
              w ← wake r rest; mret (Some (<[i:=w]> ws))
            else mret None);
     match ws' with
     | Some ws' => run_alone i n ws'
     | None => mret None
     end).
Proof. intros Hw. cbn [run_alone]. rewrite Hw. unfold act. by rewrite Hw. Qed.

Lemma run_alone_sends i r tasks n ws m :
  (i < length ws)%nat → (2 * length tasks ≤ n)%nat →
  let w := result (next_send r tasks) m in
  let m1 := final (next_send r tasks) m in
  let m2 := final (send_loop r tasks) m in
  result (run_alone i n (<[i:=w]> ws)) m1 = Some (<[i:=Waiting]> ws) ∧
  final (run_alone i n (<[i:=w]> ws)) m1 = final (record_sent r) m2 ∧
  events (next_send r tasks) m ++ events (run_alone i n (<[i:=w]> ws)) m1
  = events (send_loop r tasks) m ++ events (record_sent r) m2.
Proof.
  intros Hi. cbn zeta. revert n m.
  induction tasks as [|ch rest IH]; intros n m Hn.
  - cbn [next_send send_loop]. autorewrite with run.
    rewrite run_alone_waiting by (by apply list_lookup_insert_eq).
    autorewrite with run. by rewrite !app_nil_r.
  - cbn [next_send send_loop]. cbn [length] in Hn.
    destruct n as [|[|n]]; [lia..|].
    autorewrite with run.
    rewrite (run_alone_sending i (S n) _ r ch rest)
      by (by apply list_lookup_insert_eq).
    autorewrite with run. cbn beta iota. rewrite !list_insert_insert_eq.
    unfold complete_send. autorewrite with run.
    destruct (send_alert ch (store m !!! r) (clock m)).
    + autorewrite with run.
      destruct (IH (S n) m ltac:(lia)) as (Hr & Hf & He).
      split; [done|]. split; [done|].
      cbn [app]. rewrite ?app_nil_r, <- ?app_assoc. cbn [app].
      by rewrite He.
    + autorewrite with run.
      destruct (bool_decide (priority (store m !!! r) = CRITICAL)
                && (retry_count (store m !!! r) <? 3)).
      * autorewrite with run.
        set (m1 := set_store
                     (alter (set_retry_count
                               (retry_count (store m !!! r) + 1)) r (store m))
                     m).
        set (d := Time.seconds (2 ^ retry_count (store m1 !!! r))).
        assert (0 ≤ d) as Hd.
        { unfold d, Time.seconds.
          pose proof (Z.pow_nonneg 2 (retry_count (store m1 !!! r))). lia. }
        rewrite (run_alone_backoff i n _ r rest (clock m1 + d))
          by (by apply list_lookup_insert_eq).
        autorewrite with run.
        change (result now m1) with (clock m1).
        replace (clock m1 + d - clock m1) with d by lia.
        rewrite (proj2 (Z.leb_le 0 d) Hd).
        autorewrite with run.
        change (result now (set_clock (clock m1 + d) m1))
          with (clock m1 + d).
        rewrite Z.leb_refl. unfold wake. autorewrite with run.
        cbn beta iota. rewrite !list_insert_insert_eq.
        set (m2 := set_alert_queue
                     (alert_queue (set_clock (clock m1 + d) m1) ++ [r])
                     (set_clock (clock m1 + d) m1)).
        destruct (IH n m2 ltac:(lia)) as (Hr & Hf & He).
        split; [done|]. split; [done|].
        cbn [app]. rewrite ?app_nil_r, <- ?app_assoc. cbn [app].
        by rewrite He.
      * autorewrite with run.
        destruct (IH (S n) m ltac:(lia)) as (Hr & Hf & He).
        split; [done|]. split; [done|].
        cbn [app]. rewrite ?app_nil_r, <- ?app_assoc. cbn [app].
        by rewrite He.
Qed.

(** The iteration of the worker loop that the claims are about is what
    a worker of the pool does when nothing else runs between its awaits:
    the same state and the same events. *)
Lemma worker_alone_is_alert_worker_step i ws m r rest n :
  ws !! i = Some Waiting →
  alert_queue m = r :: rest →
  (2 * length (channels (store m !!! r)) ≤ n)%nat →
  let alone :=
    ws' ← act (Take i) ws;
    match ws' with
    | Some ws' => run_alone i n ws'
    | None => mret None
    end in
  result alone m = Some ws ∧
  final alone m = final alert_worker_step m ∧
  events alone m = events alert_worker_step m.
Proof.
  intros Hw Hq Hn. cbn zeta.
  assert (i < length ws)%nat as Hi by (by eapply lookup_lt_Some).
  assert (<[i:=Waiting]> ws = ws) as Hid by (by apply list_insert_id).
  unfold act, alert_worker_step. autorewrite with run. rewrite Hw, Hq.
  autorewrite with run. cbn beta iota.
  set (m0 := set_alert_queue rest m).
  unfold run_checks, process_alert. autorewrite with run.
  destruct (result (check_rate_limit r) m0); cbn [negb].
  2:{ autorewrite with run. rewrite run_alone_waiting, Hid by (by rewrite Hid).
      autorewrite with run. by rewrite ?app_nil_r. }
  autorewrite with run.
  destruct (result (is_duplicate r) (final (check_rate_limit r) m0)).
  { autorewrite with run. rewrite run_alone_waiting, Hid by (by rewrite Hid).
    autorewrite with run. by rewrite ?app_nil_r. }
  destruct (check_rate_limit_frame config priority_value r m0)
    as [[_ _ _ _ Hs1 _] _].
  destruct (is_duplicate_frame config r (final (check_rate_limit r) m0))
    as [[_ _ _ _ Hs2 _] _].
  set (m3 := final (is_duplicate r) (final (check_rate_limit r) m0)) in *.
  autorewrite with run.
  set (tasks := filter (λ ch, ch ∈ mgr_channels m3) (channels (store m3 !!! r))).
  assert (2 * length tasks ≤ n)%nat as Htasks.
  { pose proof (length_filter (λ ch, ch ∈ mgr_channels m3)
                  (channels (store m3 !!! r))) as Hle.
    fold tasks in Hle. rewrite Hs2, Hs1 in Hle.
    unfold m0 in Hle. cbn [store set_alert_queue] in Hle. lia. }
  destruct (run_alone_sends i r tasks n ws m3 Hi Htasks) as (Hr & Hf & He).
  unfold record_sent in Hf, He. autorewrite with run in Hf, He.
  rewrite Hr, Hf, Hid. split; [done|]. split; [done|].
  rewrite ?app_nil_r, <- ?app_assoc. cbn [app].
  rewrite ?app_nil_r, <- ?app_assoc in He. cbn [app] in He.
  by rewrite He.
Qed.

End FurtherProperties.

(** ** The registries *)

Section RegistryProperties.

#[local] Set Default Proof Using "Type".

Variable lower : string → string.
Variable construct : string → EntryConfig → Construction.

Local Abbreviation create_component := (create_component lower construct).
Local Abbreviation init_components := (init_components lower construct).
Local Abbreviation init_channels := (init_channels lower construct).
Local Abbreviation init_triggers := (init_triggers lower construct).
Local Abbreviation accepted := (accepted lower construct).

Lemma logged_app lvl es1 es2 :
  logged lvl (es1 ++ es2) = logged lvl es1 ++ logged lvl es2.
Proof. apply omap_app. Qed.

(** One round of the loop: the entry is registered when it is accepted,
    and then only is its name logged at level INFO. *)
Lemma init_components_cons known name entry rest registry :
  (init_components known ((name, entry) :: rest) registry).1
  = (init_components known rest
       (if accepted known (name, entry) then register name registry
        else registry)).1 ∧
  logged INFO (init_components known ((name, entry) :: rest) registry).2
  = (if accepted known (name, entry) then [name] else [])
    ++ logged INFO
         (init_components known rest
            (if accepted known (name, entry) then register name registry
             else registry)).2.
Proof.
  cbn [init_components]. unfold accepted, create_component. cbn [snd].
  destruct (entry_enabled entry); cbn [negb andb]; [|done].
  destruct (decide (lower (entry_type entry) ∈ known)) as [Hin|Hin].
  - rewrite bool_decide_eq_true_2 by done.
    destruct (construct _ _) as [|[]];
      destruct (init_components _ _ _); done.
  - rewrite bool_decide_eq_false_2 by done.
    destruct (init_components _ _ _); done.
Qed.

Lemma init_components_registry known entries registry :
  (init_components known entries registry).1
  = foldl (λ reg name, register name reg) registry
          (filter (λ item, accepted known item) entries).*1 ∧
  logged INFO (init_components known entries registry).2
  = (filter (λ item, accepted known item) entries).*1.
Proof.
  revert registry. induction entries as [|[name entry] rest IH];
    intros registry; [done|].
  destruct (init_components_cons known name entry rest registry)
    as [-> ->].
  rewrite filter_cons.
  destruct (accepted known (name, entry)) eqn:Hacc.
  - rewrite decide_True by done. cbn [fmap list_fmap foldl fst app].
    destruct (IH (register name registry)) as [-> ->]. done.
  - rewrite decide_False by (by intros []). apply IH.
Qed.

Lemma foldl_register_fresh names registry :
  NoDup names → (∀ name, name ∈ names → name ∉ registry) →
  foldl (λ reg name, register name reg) registry names = registry ++ names.
Proof.
  intros Hnd. revert registry.
  induction Hnd as [|name names Hnotin Hnd IH]; intros registry Hfresh.
  - by rewrite app_nil_r.
  - cbn [foldl]. unfold register at 2.
    rewrite decide_False by (apply Hfresh; left).
    rewrite IH; [by rewrite <- app_assoc|].
    intros name' Hin [Hr| ->%list_elem_of_singleton]%elem_of_app.
    + apply (Hfresh name'); [by right|done].
    + done.
Qed.

Lemma accepted_names_NoDup known entries :
  NoDup entries.*1 → NoDup (filter (λ item, accepted known item) entries).*1.
Proof.
  intros Hnd. eapply sublist_NoDup; [exact Hnd|].
  apply fmap_sublist, sublist_filter.
Qed.

(** X19. Construction registers exactly the accepted entries.  Over the
    items of a dictionary, whose keys are distinct, [_init_channels] and
    [_init_triggers] register, in the order of the configuration, the
    names of the entries that are enabled, whose lower-cased type is a
    key of the map and whose class returns a truthy object; these are
    also the names logged at level INFO. *)
Theorem registries_hold_the_accepted_entries
    (entries : list (string * EntryConfig)) :
  NoDup entries.*1 →
  (init_channels entries).1
  = (filter (λ item, accepted channel_map item) entries).*1 ∧
  logged INFO (init_channels entries).2 = (init_channels entries).1 ∧
  (init_triggers entries).1
  = (filter (λ item, accepted trigger_map item) entries).*1 ∧
  logged INFO (init_triggers entries).2 = (init_triggers entries).1.
Proof.
  intros Hnd. unfold init_channels, init_triggers.
  destruct (init_components_registry channel_map entries []) as [-> ->].
  destruct (init_components_registry trigger_map entries []) as [-> ->].
  rewrite !foldl_register_fresh;
    try (by intros ? _ ?%elem_of_nil); try by apply accepted_names_NoDup.
  done.
Qed.

Lemma init_components_skip known before after name entry registry :
  accepted known (name, entry) = false →
  (init_components known (before ++ (name, entry) :: after) registry).1
  = (init_components known (before ++ after) registry).1.
Proof.
  intros Hacc.
  rewrite (proj1 (init_components_registry known (before ++ _) registry)).
  rewrite (proj1 (init_components_registry known (before ++ after) registry)).
  rewrite !filter_app, filter_cons, decide_False; [done|].
  rewrite Hacc. by intros [].
Qed.

(** X20. An entry that is not accepted, be it disabled, of unknown type,
    with a class that raises or one that returns a falsy object, leaves
    no trace in the registry: the loop goes on with the entries after it
    as if it had not been there. *)
Theorem rejected_entry_is_skipped (known : list string)
    (before after : list (string * EntryConfig)) (name : string)
    (entry : EntryConfig) (registry : list string) :
  accepted known (name, entry) = false →
  (init_components known (before ++ (name, entry) :: after) registry).1
  = (init_components known (before ++ after) registry).1.
Proof. apply init_components_skip. Qed.

(** What a class that raises leaves behind is an error line. *)
Lemma init_components_raising known before name entry after registry :
  entry_enabled entry = true →
  lower (entry_type entry) ∈ known →
  construct (lower (entry_type entry)) entry = ConstructorRaises →
  name ∈ logged ERROR
           (init_components known (before ++ (name, entry) :: after)
              registry).2.
Proof.
  intros Hen Hin Hraise. revert registry.
  induction before as [|[name' entry'] before IH]; intros registry.
  - cbn [app init_components]. rewrite Hen. cbn [negb].
    unfold create_component. rewrite decide_True by done. rewrite Hraise.
    destruct (init_components _ _ _) as [reg es].
    cbn [snd app logged omap list_omap]. rewrite decide_True by done.
    apply elem_of_cons. by left.
  - cbn [app init_components].
    destruct (negb (entry_enabled entry')); [apply IH|].
    destruct (create_component known name' entry') as [created es].
    set (next := match created with
                 | CreationRaises => (registry, [EvLog ERROR name'])
                 | ReturnsNone | Returns false => (registry, [])
                 | Returns true => (register name' registry, [EvLog INFO name'])
                 end).
    destruct next as [registry' es'].
    specialize (IH registry').
    destruct (init_components _ _ _) as [reg es''].
    cbn [snd] in *. rewrite !logged_app.
    apply elem_of_app; right. apply elem_of_app; by right.
Qed.

(** X21. A class that raises does not stop the construction: the error
    is logged under the name of the entry, and the channels and triggers
    configured before and after it are registered as without it. *)
Theorem raising_class_is_logged_and_skipped (known : list string)
    (before after : list (string * EntryConfig)) (name : string)
    (entry : EntryConfig) (registry : list string) :
  entry_enabled entry = true →
  lower (entry_type entry) ∈ known →
  construct (lower (entry_type entry)) entry = ConstructorRaises →
  name ∈ logged ERROR
           (init_components known (before ++ (name, entry) :: after)
              registry).2 ∧
  (init_components known (before ++ (name, entry) :: after) registry).1
  = (init_components known (before ++ after) registry).1.
Proof.
  intros Hen Hin Hraise. split; [by apply init_components_raising|].
  apply init_components_skip. unfold accepted. cbn [snd].
  by rewrite Hraise, andb_false_r.
Qed.

End RegistryProperties.

(** ** Start and stop *)

Section LifecycleProperties.

#[local] Set Default Proof Using "Type".

Variable alert_workers : Z.
Variable initialize cleanup : string → bool.

Local Abbreviation start := (start alert_workers initialize).
Local Abbreviation stop := (stop cleanup).

Lemma await_each_returned call event names :
  (∀ name, name ∈ names → call name = true) →
  await_each call event names = (Returned, (λ name, event name true) <$> names).
Proof.
  induction names as [|name names IH]; intros Hall; [done|].
  cbn [await_each]. rewrite Hall by left.
  rewrite IH; [done|]. intros ? ?. apply Hall. by right.
Qed.

Lemma await_each_raised call event before name after :
  (∀ name', name' ∈ before → call name' = true) →
  call name = false →
  await_each call event (before ++ name :: after)
  = (Raised, ((λ name', event name' true) <$> before) ++ [event name false]).
Proof.
  induction before as [|name' before IH]; intros Hall Hraise.
  - cbn [app await_each]. by rewrite Hraise.
  - cbn [app await_each]. rewrite Hall by left.
    rewrite IH; [done| |done]. intros ? ?. apply Hall. by right.
Qed.

Lemma created_tasks_app es1 es2 :
  created_tasks (es1 ++ es2) = created_tasks es1 ++ created_tasks es2.
Proof. apply omap_app. Qed.
Lemma cancelled_tasks_app es1 es2 :
  cancelled_tasks (es1 ++ es2) = cancelled_tasks es1 ++ cancelled_tasks es2.
Proof. apply omap_app. Qed.
Lemma cleaned_up_app es1 es2 :
  cleaned_up (es1 ++ es2) = cleaned_up es1 ++ cleaned_up es2.
Proof. apply omap_app. Qed.

Lemma created_tasks_create names :
  created_tasks (LcCreateTask <$> names) = names.
Proof. induction names as [|n names IH]; [done|]. cbn. f_equal. apply IH. Qed.
Lemma cancelled_tasks_cancel names :
  cancelled_tasks (LcCancel <$> names) = names.
Proof. induction names as [|n names IH]; [done|]. cbn. f_equal. apply IH. Qed.
Lemma cancelled_tasks_await call names :
  cancelled_tasks (await_each call LcCleanup names).2 = [].
Proof.
  induction names as [|n names IH]; [done|]. cbn [await_each].
  destruct (call n); [|done].
  destruct (await_each call LcCleanup names) as [c es]. apply IH.
Qed.
Lemma created_tasks_await call names :
  created_tasks (await_each call LcInitialize names).2 = [].
Proof.
  induction names as [|n names IH]; [done|]. cbn [await_each].
  destruct (call n); [|done].
  destruct (await_each call LcInitialize names) as [c es]. apply IH.
Qed.

Lemma start_running e : workers_running (start e).1.2 = true.
Proof.
  unfold start. destruct (workers_running e) eqn:Hr; [done|].
  by destruct (await_each _ _ _) as [[] es].
Qed.

Lemma stop_stopped e : workers_running (stop e).1.2 = false.
Proof.
  unfold stop. destruct (workers_running e) eqn:Hr; cbn [negb]; [|done].
  by destruct (await_each _ _ _) as [[] es].
Qed.

(** X22. Starting twice is starting once, and stopping twice is stopping
    once: whatever the first call did, also when a channel raised in it,
    the second returns at once and changes nothing. *)
Theorem second_start_and_second_stop_do_nothing (e : Engine) :
  start (start e).1.2 = (Returned, (start e).1.2, []) ∧
  stop (stop e).1.2 = (Returned, (stop e).1.2, []).
Proof.
  split.
  - pose proof (start_running e) as Hr.
    unfold start at 1. by rewrite Hr.
  - pose proof (stop_stopped e) as Hr.
    unfold stop at 1. by rewrite Hr.
Qed.

(** X23. A start in which every channel initialises creates
    [alert_workers] tasks, none when that number is zero or negative, and
    the stop that follows cancels the tasks that were there, in the order
    of their creation, and empties the list, whether or not the clean-up
    of the channels raises. *)
Theorem stop_cancels_what_start_created (e : Engine) :
  workers_running e = false →
  (∀ ch, ch ∈ mgr_channels (manager e) → initialize ch = true) →
  let started := start e in
  let stopped := stop started.1.2 in
  started.1.1 = Returned ∧
  workers_running started.1.2 = true ∧
  created_tasks started.2 = worker_names alert_workers ∧
  worker_tasks started.1.2 = worker_tasks e ++ worker_names alert_workers ∧
  length (worker_names alert_workers) = Z.to_nat alert_workers ∧
  cancelled_tasks stopped.2 = worker_tasks started.1.2 ∧
  stopped.1.2 = mkEngine (manager e) false [].
Proof.
  intros Hr Hinit. cbn zeta. unfold start. rewrite Hr.
  rewrite (await_each_returned _ _ _ Hinit). cbn [fst snd].
  split; [done|]. split; [done|]. split.
  { rewrite !created_tasks_app, created_tasks_create, app_nil_r.
    pose proof (created_tasks_await initialize (mgr_channels (manager e)))
      as Hc.
    rewrite (await_each_returned _ _ _ Hinit) in Hc. cbn [snd] in Hc.
    by rewrite Hc. }
  split; [done|]. split.
  { unfold worker_names. by rewrite length_fmap, length_seq. }
  unfold stop. cbn [workers_running negb worker_tasks manager].
  pose proof (cancelled_tasks_await cleanup (mgr_channels (manager e))) as Hc.
  destruct (await_each cleanup LcCleanup (mgr_channels (manager e)))
    as [[] es]; cbn [fst snd] in *;
    rewrite ?cancelled_tasks_app, cancelled_tasks_cancel, Hc, ?app_nil_r;
    done.
Qed.

(** X24. A channel that raises in [initialize] leaves the manager flagged
    as running without a new worker: the channels after it are not
    initialised, no task is created, and since the flag is set a second
    start returns at once and creates none either. *)
Theorem failed_start_leaves_no_workers (e : Engine)
    (before after : list string) (ch : string) :
  workers_running e = false →
  mgr_channels (manager e) = before ++ ch :: after →
  (∀ ch', ch' ∈ before → initialize ch' = true) →
  initialize ch = false →
  let started := start e in
  started.1.1 = Raised ∧
  started.2
  = ((λ name, LcInitialize name true) <$> before)
    ++ [LcInitialize ch false] ∧
  workers_running started.1.2 = true ∧
  worker_tasks started.1.2 = worker_tasks e ∧
  created_tasks started.2 = [] ∧
  worker_tasks (start started.1.2).1.2 = worker_tasks e.
Proof.
  intros Hr Hchs Hbefore Hraise. cbn zeta.
  assert (start e
          = (Raised, mkEngine (manager e) true (worker_tasks e),
             ((λ name, LcInitialize name true) <$> before)
             ++ [LcInitialize ch false])) as Hstart.
  { unfold start. rewrite Hr, Hchs.
    by rewrite (await_each_raised _ _ _ _ _ Hbefore Hraise). }
  rewrite Hstart. cbn [fst snd].
  split; [done|]. split; [done|].
  split; [done|]. split; [done|]. split; [|done].
  pose proof (created_tasks_await initialize (mgr_channels (manager e))) as Hc.
  rewrite Hchs, (await_each_raised _ _ _ _ _ Hbefore Hraise) in Hc.
  exact Hc.
Qed.

(** X25. When a channel raises in [cleanup], the stop of a running
    manager has already cancelled every task, cleared the flag and
    emptied the list of tasks; the call ends with that exception, and
    the channels after the failing one are not cleaned up. *)
Theorem failed_cleanup_skips_the_later_channels (e : Engine)
    (before after : list string) (ch : string) :
  workers_running e = true →
  mgr_channels (manager e) = before ++ ch :: after →
  (∀ ch', ch' ∈ before → cleanup ch' = true) →
  cleanup ch = false →
  stop e
  = (Raised, mkEngine (manager e) false [],
     (LcCancel <$> worker_tasks e)
     ++ ((λ name, LcCleanup name true) <$> before)
     ++ [LcCleanup ch false]) ∧
  cleaned_up (stop e).2 = before ++ [ch].
Proof.
  intros Hr Hchs Hbefore Hraise.
  assert (stop e
          = (Raised, mkEngine (manager e) false [],
             (LcCancel <$> worker_tasks e)
             ++ ((λ name, LcCleanup name true) <$> before)
             ++ [LcCleanup ch false])) as Hstop.
  { unfold stop. rewrite Hr, Hchs. cbn [negb].
    by rewrite (await_each_raised _ _ _ _ _ Hbefore Hraise). }
  split; [done|]. rewrite Hstop. cbn [snd].
  rewrite !cleaned_up_app. cbn.
  assert (cleaned_up (LcCancel <$> worker_tasks e) = []) as ->.
  { clear. induction (worker_tasks e) as [|n l IH]; [done|]. apply IH. }
  cbn [app]. f_equal. clear.
  induction before as [|b before IH]; [done|]. cbn. f_equal. apply IH.
Qed.

End LifecycleProperties.

(** ** From the configuration to the alerts *)

Lemma foldl_register_elem x names registry :
  x ∈ foldl (λ reg name, register name reg) registry names →
  x ∈ registry ∨ x ∈ names.
Proof.
  revert registry. induction names as [|name names IH]; intros registry Hin.
  - by left.
  - cbn [foldl] in Hin. apply IH in Hin as [Hin|Hin].
    + unfold register in Hin. destruct (decide (name ∈ registry)).
      * by left.
      * apply elem_of_app in Hin as [Hin| ->%list_elem_of_singleton].
        -- by left.
        -- right. by left.
    + right. by right.
Qed.

Lemma registered_was_accepted lower construct known entries name :
  name ∈ (init_components lower construct known entries []).1 →
  ∃ entry, (name, entry) ∈ entries ∧
           entry_enabled entry = true ∧
           lower (entry_type entry) ∈ known ∧
           construct (lower (entry_type entry)) entry = Constructed true.
Proof.
  rewrite (proj1 (init_components_registry lower construct known entries [])).
  intros [Hin|Hin]%foldl_register_elem; [by apply elem_of_nil in Hin|].
  apply list_elem_of_fmap in Hin as ([name' entry] & -> & Hin).
  apply list_elem_of_filter in Hin as [Hacc Hin].
  exists entry. split; [done|]. unfold accepted in Hacc. cbn [snd fst] in *.
  destruct (entry_enabled entry); [|done].
  destruct (bool_decide_reflect (lower (entry_type entry) ∈ known));
    [|done].
  by destruct (construct _ _) as [|[]].
Qed.

(** X26. From the configuration to the sends: in a manager built by
    [__init__], whatever happened since, every channel an alert object
    names, and so every channel a send is attempted on, comes from an
    entry of [config['channels']] that is enabled, whose lower-cased type
    is one of the four known ones and whose class returned a truthy
    object. *)
Theorem alerts_target_configured_channels (config : Config)
    (priority_value : AlertPriority → string) (hash : string → Z)
    (send_alert : string → Alert → datetime → bool) (MarketData : Type)
    (check : string → MarketData → datetime → CheckResult)
    (lower : string → string)
    (channel_class trigger_class : string → EntryConfig → Construction)
    (channels_config triggers_config : list (string * EntryConfig))
    (t0 : datetime) (m : AlertManager) (r : ref) (a : Alert) (ch : string) :
  rtc (step config priority_value hash send_alert MarketData check)
      (construct_manager lower channel_class trigger_class channels_config
         triggers_config t0) m →
  store m !! r = Some a →
  ch ∈ channels a →
  ∃ entry, (ch, entry) ∈ channels_config ∧
           entry_enabled entry = true ∧
           lower (entry_type entry) ∈ channel_map ∧
           channel_class (lower (entry_type entry)) entry = Constructed true.
Proof.
  intros Hrun Ha Hch.
  pose proof (run_sound _ _ _ _ _ _ _ _ Hrun (sound_init _ _ _)) as Hsound.
  destruct (sound_targets _ Hsound r a Ha) as [_ Hin].
  apply run_evolves in Hrun as [[Hchs _] _ _].
  specialize (Hin ch Hch). rewrite Hchs in Hin.
  by apply registered_was_accepted in Hin.
Qed.

(** ** The further properties on concrete runs *)

Lemma ex_retried_reachable :
  rtc (step ex_config ex_priority_value ex_hash ex_send_fail unit ex_check)
      (init ["telegram"] ["signal"; "price"; "risk"] ex_t0) ex_retried.
Proof.
  unfold ex_retried, ex_created.
  eapply rtc_l; [apply step_create|]. apply rtc_once. apply step_worker.
Defined.

(** The CRITICAL alert whose channel fails is put back once, after a
    back-off of two seconds. *)
Lemma retries_follow_failures_witness :
  ∃ k : nat,
    (k ≤ 1)%nat ∧
    enqueued (events (process_alert ex_config ex_priority_value ex_send_fail 0)
                (ex_taken ex_config CRITICAL))
    = replicate k 0%nat ∧
    sleeps (events (process_alert ex_config ex_priority_value ex_send_fail 0)
              (ex_taken ex_config CRITICAL))
    = (λ i, 2 ^ (0 + Z.of_nat i)) <$> seq 1 k.
Proof.
  destruct (retries_follow_failures ex_config ex_priority_value ex_send_fail
              0%nat (ex_taken ex_config CRITICAL)
              (store (ex_taken ex_config CRITICAL) !!! 0%nat))
    as (k & _ & _ & Hput & Hsleep & _ & Hk).
  - vm_compute. reflexivity.
  - vm_compute. reflexivity.
  - exists k. split; [exact Hk|]. split; [exact Hput | exact Hsleep].
Defined.

Lemma retry_counter_stays_within_three_witness :
  0 ≤ retry_count (store ex_retried !!! 0%nat) ≤ 3.
Proof.
  apply (retry_counter_stays_within_three ex_config ex_priority_value ex_hash
           ex_send_fail unit ex_check ["telegram"] ["signal"; "price"; "risk"]
           ex_t0 ex_retried 0%nat (store ex_retried !!! 0%nat)).
  - exact ex_retried_reachable.
  - vm_compute. reflexivity.
Defined.

Lemma ex_three_processed_reachable :
  rtc (step ex_config ex_priority_value ex_hash ex_send_ok unit ex_check)
      (init ["telegram"] ["signal"; "price"; "risk"] ex_t0)
      ex_three_processed.
Proof.
  unfold ex_three_processed, ex_three_created.
  eapply rtc_l; [apply step_create|].
  eapply rtc_l; [apply step_create|].
  eapply rtc_l; [apply step_create|].
  eapply rtc_l; [apply step_worker|].
  eapply rtc_l; [apply step_worker|].
  apply rtc_once. apply step_worker.
Defined.

(** Three objects were processed, two of them with the same key: the
    history holds the first and the third, under different keys. *)
Lemma history_never_repeats_a_key_witness :
  alert_hash (store ex_three_processed !!! 0%nat)
  = alert_hash (store ex_three_processed !!! 1%nat) ∧
  alert_history ex_three_processed = [0%nat; 2%nat] ∧
  history_keys ex_three_processed
  = ["BTCUSDT_Spike 1_BTC +5%"; "BTCUSDT_Spike 2_BTC +6%"] ∧
  NoDup (history_keys ex_three_processed) ∧
  sent <$> store ex_three_processed !! 0%nat = Some true ∧
  sent <$> store ex_three_processed !! 2%nat = Some true.
Proof.
  split; [vm_compute; reflexivity|].
  split; [vm_compute; reflexivity|].
  split; [vm_compute; reflexivity|].
  destruct (history_never_repeats_a_key ex_config ex_priority_value ex_hash
              ex_send_ok unit ex_check ["telegram"]
              ["signal"; "price"; "risk"] ex_t0 ex_three_processed)
    as [Hnd Hsent].
  - exact ex_three_processed_reachable.
  - split; [exact Hnd|]. split; apply Hsent; vm_compute.
    + left.
    + right. left.
Defined.

Lemma queued_alert_is_tried_on_all_its_channels_witness :
  sent_on (events (alert_worker_step ex_config ex_priority_value ex_send_ok)
             (ex_created ex_config HIGH))
  = ["telegram"].
Proof.
  rewrite (queued_alert_is_tried_on_all_its_channels ex_config
             ex_priority_value ex_hash ex_send_ok unit ex_check ["telegram"]
             ["signal"; "price"; "risk"] ex_t0 (ex_created ex_config HIGH)
             0%nat []).
  - vm_compute. reflexivity.
  - apply rtc_once. apply step_create.
  - vm_compute. reflexivity.
Defined.

Lemma history_stays_bounded_witness :
  Z.of_nat (length (alert_history ex_retried)) ≤ 1000.
Proof.
  apply (history_stays_bounded ex_config ex_priority_value ex_hash
           ex_send_fail unit ex_check ["telegram"]
           ["signal"; "price"; "risk"] ex_t0 ex_retried).
  - vm_compute. discriminate.
  - exact ex_retried_reachable.
Defined.

(** The schedule of two workers in full: the alerts are taken in queue
    order, both pass the rate check, both are sent, and the minute ends
    with two sends recorded against a maximum of one. *)
Example two_workers_exceed_the_limit :
  result ex_pool_run ex_two_created = Some [Waiting; Waiting] ∧
  processed (events ex_pool_run ex_two_created) = [0%nat; 1%nat] ∧
  sent_on (events ex_pool_run ex_two_created) = ["telegram"; "telegram"] ∧
  max_per_minute (limits_of ex_config_limit1 "telegram" HIGH) = Some 1 ∧
  sends_since (sent_alerts_tracker (final ex_pool_run ex_two_created))
              "telegram_high"
              (clock (final ex_pool_run ex_two_created) - Time.minutes 1)
  = 2 ∧
  alert_history (final ex_pool_run ex_two_created) = [1%nat; 0%nat].
Proof. vm_compute. repeat split. Qed.

(** With room for one record, the second dispatch evicts the first. *)
Lemma eviction_drops_the_oldest_witness :
  alert_history ex_second_taken = [0%nat] ∧
  alert_history (final (process_alert ex_config_size1 ex_priority_value
                          ex_send_ok 1) ex_second_taken)
  = [1%nat].
Proof.
  split; [vm_compute; reflexivity|].
  destruct (eviction_drops_the_oldest ex_config_size1 ex_priority_value
              ex_send_ok 1%nat ex_second_taken) as [Heq _].
  - vm_compute. discriminate.
  - vm_compute. reflexivity.
  - rewrite Heq. vm_compute. reflexivity.
Defined.

(** Two workers and [max_per_minute = 1]: the check of the first alert
    passes, the second alert is checked, sent and recorded while the
    first is being sent, and the recording of the first brings the sends
    of the minute to two.  When the first alert is sent with nothing in
    between, its recording is the only send of the minute. *)
Lemma limit_holds_up_to_concurrent_sends_witness :
  max_per_minute (limits_of ex_config_limit1 "telegram" HIGH) = Some 1 ∧
  result (check_rate_limit ex_config_limit1 ex_priority_value 0)
         ex_two_created = true ∧
  outcome ex_config_limit1 ex_priority_value 1
          (after_admission ex_config_limit1 ex_priority_value 0
             ex_two_created) = Dispatched ∧
  sends_since
    (sent_alerts_tracker
       (final (track_sent_alert ex_priority_value 0) ex_other_recorded))
    "telegram_high" (clock ex_other_recorded - Time.minutes 1)
  = 2 ∧
  sends_since
    (sent_alerts_tracker
       (final (track_sent_alert ex_priority_value 0) ex_other_recorded))
    (tracker_key ex_priority_value "telegram"
       (priority (store ex_two_created !!! 0%nat)))
    (clock ex_other_recorded - Time.minutes 1)
  ≤ 1 + Z.of_nat 1 ∧
  sends_since
    (sent_alerts_tracker
       (final (track_sent_alert ex_priority_value 0) ex_sent_alone))
    (tracker_key ex_priority_value "telegram"
       (priority (store ex_two_created !!! 0%nat)))
    (clock ex_sent_alone - Time.minutes 1)
  ≤ 1 + Z.of_nat 0.
Proof.
  split; [vm_compute; reflexivity|]. split; [vm_compute; reflexivity|].
  split; [vm_compute; reflexivity|]. split; [vm_compute; reflexivity|].
  split.
  - destruct (limit_holds_up_to_concurrent_sends ex_config_limit1
                ex_priority_value 0%nat ex_two_created ex_other_recorded
                (store ex_two_created !!! 0%nat)
                (store ex_other_recorded !!! 0%nat) "telegram" 1 1)
      as [Hminute _].
    + vm_compute. reflexivity.
    + vm_compute. reflexivity.
    + vm_compute. reflexivity.
    + vm_compute. reflexivity.
    + vm_compute. reflexivity.
    + vm_compute. left.
    + vm_compute. reflexivity.
    + discriminate.
    + vm_compute. discriminate.
    + apply Hminute.
      * vm_compute. reflexivity.
      * vm_compute. discriminate.
  - destruct (limit_holds_up_to_concurrent_sends ex_config_limit1
                ex_priority_value 0%nat ex_two_created ex_sent_alone
                (store ex_two_created !!! 0%nat)
                (store ex_sent_alone !!! 0%nat) "telegram" 1 0)
      as [Hminute _].
    + vm_compute. reflexivity.
    + vm_compute. reflexivity.
    + vm_compute. reflexivity.
    + vm_compute. reflexivity.
    + vm_compute. reflexivity.
    + vm_compute. left.
    + vm_compute. reflexivity.
    + discriminate.
    + vm_compute. discriminate.
    + apply Hminute.
      * vm_compute. reflexivity.
      * vm_compute. discriminate.
Defined.

Lemma outcome_from_the_state_witness :
  outcome ex_config ex_priority_value 1 ex_repeated = Duplicate.
Proof.
  rewrite (outcome_from_the_state ex_config ex_priority_value 1%nat
             ex_repeated (store ex_repeated !!! 1%nat)).
  - vm_compute. reflexivity.
  - vm_compute. reflexivity.
  - unfold Time.representable. vm_compute. split; discriminate.
  - unfold Time.representable. vm_compute. split; discriminate.
  - unfold Time.representable. vm_compute. split; discriminate.
Defined.

Lemma rejected_alert_records_no_send_witness :
  sent_alerts_tracker
    (final (process_alert ex_config ex_priority_value ex_send_ok 1)
       ex_repeated) !!! "telegram_high"
  = sent_alerts_tracker ex_repeated !!! "telegram_high" ∨
  sent_alerts_tracker
    (final (process_alert ex_config ex_priority_value ex_send_ok 1)
       ex_repeated) !!! "telegram_high"
  = filter (λ ts, clock ex_repeated - Time.hours 1 < ts)
           (sent_alerts_tracker ex_repeated !!! "telegram_high").
Proof.
  apply (rejected_alert_records_no_send ex_config ex_priority_value
           ex_send_ok 1%nat ex_repeated "telegram_high").
  vm_compute. discriminate.
Defined.

Lemma idle_worker_only_waits_witness :
  final (alert_worker ex_config ex_priority_value ex_send_ok 3) ex_m0
  = set_clock (ex_t0 + Time.seconds 3) ex_m0 ∧
  events (alert_worker ex_config ex_priority_value ex_send_ok 3) ex_m0 = [].
Proof.
  apply (idle_worker_only_waits ex_config ex_priority_value ex_send_ok 3
           ex_m0).
  reflexivity.
Defined.

(** Two objects of the same alert, created six minutes apart. *)
Lemma duplicate_key_separates_plain_alerts_witness :
  id (store ex_repeated !!! 0%nat) ≠ id (store ex_repeated !!! 1%nat) ∧
  symbol (store ex_repeated !!! 0%nat) = symbol (store ex_repeated !!! 1%nat) ∧
  title (store ex_repeated !!! 0%nat) = title (store ex_repeated !!! 1%nat) ∧
  message (store ex_repeated !!! 0%nat)
  = message (store ex_repeated !!! 1%nat).
Proof.
  split; [vm_compute; discriminate|].
  apply (duplicate_key_separates_plain_alerts
           (store ex_repeated !!! 0%nat) (store ex_repeated !!! 1%nat));
    vm_compute; reflexivity.
Defined.

(** BTC_USDT with title Spike, and BTC with title USDT_Spike. *)
Lemma underscore_moves_between_symbol_and_title_witness :
  symbol (store ex_moved !!! 0%nat) ≠ symbol (store ex_moved !!! 1%nat) ∧
  title (store ex_moved !!! 0%nat) ≠ title (store ex_moved !!! 1%nat) ∧
  duplicate_window ex_config < clock ex_moved_later - clock ex_moved ∧
  outcome ex_config ex_priority_value 1 ex_moved_later ≠ Dispatched ∧
  sent_on (events (process_alert ex_config ex_priority_value ex_send_ok 1)
             ex_moved_later)
  = [].
Proof.
  split; [vm_compute; discriminate|]. split; [vm_compute; discriminate|].
  split; [vm_compute; reflexivity|].
  apply (underscore_moves_between_symbol_and_title ex_config
           ex_priority_value ex_hash ex_send_ok unit ex_check 0%nat 1%nat
           (store ex_moved !!! 0%nat) (store ex_moved !!! 1%nat)
           "BTC" "USDT" "Spike" ex_moved ex_moved_later).
  - vm_compute. reflexivity.
  - vm_compute. reflexivity.
  - vm_compute. reflexivity.
  - vm_compute. reflexivity.
  - vm_compute. reflexivity.
  - vm_compute. reflexivity.
  - vm_compute. reflexivity.
  - vm_compute. discriminate.
  - unfold ex_moved_later. apply rtc_once.
    apply (step_time ex_config ex_priority_value ex_hash ex_send_ok unit
             ex_check (Time.hours 2)).
    vm_compute. discriminate.
Defined.

Lemma tracker_key_separates_channels_witness :
  tracker_key ex_priority_value "telegram" HIGH = "telegram_high" ∧
  ("telegram" = "telegram" ∧ ex_priority_value HIGH = ex_priority_value HIGH).
Proof.
  split; [vm_compute; reflexivity|].
  apply (tracker_key_separates_channels ex_priority_value "telegram"
           "telegram" HIGH HIGH).
  - vm_compute. reflexivity.
  - vm_compute. reflexivity.
  - reflexivity.
Defined.

Lemma ex_channels_config_NoDup : NoDup ex_channels_config.*1.
Proof. apply (bool_decide_unpack _). vm_compute. exact I. Defined.

(** Of the six configured channels, the Telegram one and the second SMS
    one are registered. *)
Lemma registries_hold_the_accepted_entries_witness :
  (init_channels ex_lower ex_construct ex_channels_config).1
  = ["tg"; "text2"] ∧
  logged INFO (init_channels ex_lower ex_construct ex_channels_config).2
  = ["tg"; "text2"].
Proof.
  destruct (registries_hold_the_accepted_entries ex_lower ex_construct
              ex_channels_config ex_channels_config_NoDup)
    as (Hreg & Hlog & _).
  rewrite Hlog, Hreg. split; vm_compute; reflexivity.
Defined.

(** The entry of unknown type. *)
Lemma rejected_entry_is_skipped_witness :
  (init_components ex_lower ex_construct channel_map
     ([("tg", mkEntry true "Telegram")]
      ++ ("pager", mkEntry true "pager") :: [("text2", mkEntry true "SMS")])
     []).1
  = (init_components ex_lower ex_construct channel_map
       ([("tg", mkEntry true "Telegram")] ++ [("text2", mkEntry true "SMS")])
       []).1.
Proof.
  apply (rejected_entry_is_skipped ex_lower ex_construct channel_map
           [("tg", mkEntry true "Telegram")] [("text2", mkEntry true "SMS")]
           "pager" (mkEntry true "pager") []).
  vm_compute. reflexivity.
Defined.

(** The entry whose class raises. *)
Lemma raising_class_is_logged_and_skipped_witness :
  "mail" ∈ logged ERROR
             (init_components ex_lower ex_construct channel_map
                ([("tg", mkEntry true "Telegram")]
                 ++ ("mail", mkEntry true "email")
                    :: [("text2", mkEntry true "SMS")]) []).2 ∧
  (init_components ex_lower ex_construct channel_map
     ([("tg", mkEntry true "Telegram")]
      ++ ("mail", mkEntry true "email") :: [("text2", mkEntry true "SMS")])
     []).1
  = (init_components ex_lower ex_construct channel_map
       ([("tg", mkEntry true "Telegram")] ++ [("text2", mkEntry true "SMS")])
       []).1.
Proof.
  apply (raising_class_is_logged_and_skipped ex_lower ex_construct
           channel_map [("tg", mkEntry true "Telegram")]
           [("text2", mkEntry true "SMS")] "mail" (mkEntry true "email") []).
  - reflexivity.
  - vm_compute. left.
  - vm_compute. reflexivity.
Defined.

(** Three workers, and a clean-up in which the e-mail channel raises. *)
Lemma stop_cancels_what_start_created_witness :
  worker_tasks (start 3 (λ _, true) ex_engine).1.2
  = ["worker-0"; "worker-1"; "worker-2"] ∧
  cancelled_tasks (stop ex_channel_call (start 3 (λ _, true) ex_engine).1.2).2
  = ["worker-0"; "worker-1"; "worker-2"] ∧
  (stop ex_channel_call (start 3 (λ _, true) ex_engine).1.2).1.2 = ex_engine.
Proof.
  destruct (stop_cancels_what_start_created 3 (λ _, true) ex_channel_call
              ex_engine) as (_ & _ & _ & Htasks & _ & Hcancel & Hstop).
  - reflexivity.
  - intros ch _. reflexivity.
  - split; [rewrite Htasks; vm_compute; reflexivity|].
    split; [rewrite Hcancel, Htasks; vm_compute; reflexivity|].
    rewrite Hstop. reflexivity.
Defined.

(** The e-mail channel raises in [initialize]. *)
Lemma failed_start_leaves_no_workers_witness :
  (start 3 ex_channel_call ex_engine).1.1 = Raised ∧
  workers_running (start 3 ex_channel_call ex_engine).1.2 = true ∧
  worker_tasks
    (start 3 ex_channel_call (start 3 ex_channel_call ex_engine).1.2).1.2
  = [].
Proof.
  destruct (failed_start_leaves_no_workers 3 ex_channel_call ex_engine
              ["telegram"] [] "email")
    as (Hraised & _ & Hrunning & _ & _ & Hnone).
  - reflexivity.
  - reflexivity.
  - intros ch' Hin. apply list_elem_of_singleton in Hin. rewrite Hin.
    reflexivity.
  - reflexivity.
  - split; [exact Hraised|]. split; [exact Hrunning | exact Hnone].
Defined.

(** The e-mail channel raises in [cleanup]. *)
Lemma failed_cleanup_skips_the_later_channels_witness :
  cleaned_up (stop ex_channel_call ex_engine_running).2
  = ["telegram"] ++ ["email"] ∧
  (stop ex_channel_call ex_engine_running).1.1 = Raised.
Proof.
  destruct (failed_cleanup_skips_the_later_channels ex_channel_call
              ex_engine_running ["telegram"] [] "email") as [Hstop Hclean].
  - reflexivity.
  - reflexivity.
  - intros ch' Hin. apply list_elem_of_singleton in Hin. rewrite Hin.
    reflexivity.
  - reflexivity.
  - split; [exact Hclean|]. rewrite Hstop. reflexivity.
Defined.

(** The alert created right after construction targets the two
    registered channels, and each of them comes from an accepted entry. *)
Lemma alerts_target_configured_channels_witness :
  channels (store ex_built_created !!! 0%nat) = ["tg"; "text2"] ∧
  ∃ entry, ("text2", entry) ∈ ex_channels_config ∧
           entry_enabled entry = true ∧
           ex_lower (entry_type entry) ∈ channel_map ∧
           ex_construct (ex_lower (entry_type entry)) entry = Constructed true.
Proof.
  split; [vm_compute; reflexivity|].
  apply (alerts_target_configured_channels ex_config ex_priority_value
           ex_hash ex_send_ok unit ex_check ex_lower ex_construct
           (λ _ _, Constructed true) ex_channels_config ex_triggers_config
           ex_t0 ex_built_created 0%nat (store ex_built_created !!! 0%nat)
           "text2").
  - apply rtc_once. apply step_create.
  - vm_compute. reflexivity.
  - vm_compute. right. left.
Defined.
